(** * Fusion: the SQL execution engine of [sql_execution_server.py]

    A shallow embedding of the query analyzer, the connection pool, the
    query executor and the transaction manager, with the properties the
    specification states about them.

    Conventions of the embedding.
    - A Python [str] is a [string]; its characters stand for the code points
      U+0000 to U+00FF, and the character classes of [str.strip] and of the
      [re] module ([\s], [\w], case folding under [re.I]) are the Unicode
      ones restricted to that range.
    - Clock readings ([time.monotonic], [time.perf_counter]) and durations
      are integers (clock ticks): exact numbers, compared and added up;
      nothing below speaks about the rounding of floating-point sums.
    - Object identity of a [ConnectionWrapper] is a reference into a heap.
    - Everything the engine awaits from outside (the database driver, other
      tasks holding the pool lock in between) is supplied as an explicit
      script, so every definition below computes. *)

From Stdlib Require Import ZArith QArith Lia Ascii String List Bool.
From stdpp Require Import gmap strings list fin_maps.

Open Scope string_scope.
Open Scope list_scope.

(** ** Enumerations *)

Inductive QueryType :=
  | SELECT | INSERT | UPDATE | DELETE | CREATE | DROP | ALTER | TRUNCATE
  | BEGIN | COMMIT | ROLLBACK | PRAGMA | EXPLAIN | ATTACH | DETACH | VACUUM
  | UNKNOWN.

Inductive IsolationLevel :=
  | NONE | DEFERRED | IMMEDIATE | EXCLUSIVE.

Inductive ExecutionStatus :=
  | PENDING | RUNNING | SUCCESS | ERROR | CANCELLED | TIMEOUT.

#[global] Instance QueryType_eq_dec : EqDecision QueryType.
Proof. solve_decision. Defined.

#[global] Instance IsolationLevel_eq_dec : EqDecision IsolationLevel.
Proof. solve_decision. Defined.

#[global] Instance ExecutionStatus_eq_dec : EqDecision ExecutionStatus.
Proof. solve_decision. Defined.

(** [QueryType.name] *)
Definition QueryType_name (t : QueryType) : string :=
  match t with
  | SELECT => "SELECT" | INSERT => "INSERT" | UPDATE => "UPDATE"
  | DELETE => "DELETE" | CREATE => "CREATE" | DROP => "DROP"
  | ALTER => "ALTER" | TRUNCATE => "TRUNCATE" | BEGIN => "BEGIN"
  | COMMIT => "COMMIT" | ROLLBACK => "ROLLBACK" | PRAGMA => "PRAGMA"
  | EXPLAIN => "EXPLAIN" | ATTACH => "ATTACH" | DETACH => "DETACH"
  | VACUUM => "VACUUM" | UNKNOWN => "UNKNOWN"
  end.

(** [IsolationLevel.value]: [None] for [NONE], the mode's name otherwise. *)
Definition IsolationLevel_value (l : IsolationLevel) : option string :=
  match l with
  | NONE => None
  | DEFERRED => Some "DEFERRED"
  | IMMEDIATE => Some "IMMEDIATE"
  | EXCLUSIVE => Some "EXCLUSIVE"
  end.

(** ** Characters and strings *)

Module Str.

Definition code (c : ascii) : N := N_of_ascii c.

Definition between (lo hi : N) (c : ascii) : bool :=
  N.leb lo (code c) && N.leb (code c) hi.

Definition at_code (n : N) (c : ascii) : bool := N.eqb (code c) n.

(** [str.isspace], also the class [\s] of a [str] pattern. *)
Definition isspace (c : ascii) : bool :=
  between 9 13 c || between 28 32 c || at_code 133 c || at_code 160 c.

(** [str.isalnum] *)
Definition isalnum (c : ascii) : bool :=
  between 48 57 c || between 65 90 c || between 97 122 c
  || at_code 170 c || at_code 178 c || at_code 179 c || at_code 181 c
  || at_code 185 c || at_code 186 c
  || between 188 190 c || between 192 214 c || between 216 246 c
  || between 248 255 c.

(** The class [\w] of a [str] pattern: alphanumeric or underscore. *)
Definition isword (c : ascii) : bool := isalnum c || at_code 95 c.

(** Simple lower-case mapping, the folding [re.I] compares with. *)
Definition lower (c : ascii) : ascii :=
  if between 65 90 c || between 192 214 c || between 216 222 c
  then ascii_of_N (code c + 32) else c.

(** Upper-casing of the ASCII letters. *)
Definition upper (c : ascii) : ascii :=
  if between 97 122 c then ascii_of_N (code c - 32) else c.

Fixpoint lstrip (s : string) : string :=
  match s with
  | String c s' => if isspace c then lstrip s' else s
  | EmptyString => EmptyString
  end.

Fixpoint rstrip (s : string) : string :=
  match s with
  | String c s' =>
      match rstrip s' with
      | EmptyString => if isspace c then EmptyString else String c EmptyString
      | r => String c r
      end
  | EmptyString => EmptyString
  end.

(** [str.strip()] *)
Definition strip (s : string) : string := rstrip (lstrip s).

Fixpoint map (f : ascii -> ascii) (s : string) : string :=
  match s with
  | String c s' => String (f c) (map f s')
  | EmptyString => EmptyString
  end.

(** The longest prefix made of word characters. *)
Fixpoint take_word (s : string) : string :=
  match s with
  | String c s' => if isword c then String c (take_word s') else EmptyString
  | EmptyString => EmptyString
  end.

(** The 256 characters. *)
Definition all_ascii : list ascii :=
  List.map (fun n => ascii_of_N (N.of_nat n)) (seq 0 256).

Definition is_upper_letter (c : ascii) : bool := between 65 90 c.

(** A string of upper-case ASCII letters, as the keywords are. *)
Fixpoint all_upper (s : string) : bool :=
  match s with
  | String c s' => is_upper_letter c && all_upper s'
  | EmptyString => true
  end.

End Str.

(** ** Regular expressions

    The fragment of [re] the analyzer's tables are written in: a pattern is
    a sequence of items, each a literal character, [^], [\b], [\s*] or
    [\s+].  All the patterns are compiled with [re.I]. *)

Module Re.

Inductive item :=
  | Bol                      (* ^ *)
  | Lit (c : ascii)          (* a literal character *)
  | SpaceStar                (* \s* *)
  | SpacePlus                (* \s+ *)
  | WordBoundary.            (* \b *)

Record pattern := Compile { source : string; items : list item }.

Definition lits (s : string) : list item :=
  List.map Lit (list_ascii_of_string s).

Definition eqb_ci (c d : ascii) : bool :=
  Ascii.eqb (Str.lower c) (Str.lower d).

Definition word_before (prev : option ascii) : bool :=
  match prev with Some p => Str.isword p | None => false end.

Definition word_after (s : string) : bool :=
  match s with String c _ => Str.isword c | EmptyString => false end.

(** [match_here its prev s]: the items match some prefix of [s], where
    [prev] is the character just before [s] in the subject ([None] at
    its start). *)
Fixpoint match_here (its : list item) (prev : option ascii) (s : string)
  {struct its} : bool :=
  match its with
  | [] => true
  | Bol :: its' =>
      match prev with None => match_here its' prev s | Some _ => false end
  | Lit c :: its' =>
      match s with
      | String d s' => eqb_ci c d && match_here its' (Some d) s'
      | EmptyString => false
      end
  | SpaceStar :: its' =>
      (fix star (prev : option ascii) (s : string) {struct s} : bool :=
         match s with
         | String d s' =>
             (Str.isspace d && star (Some d) s') || match_here its' prev s
         | EmptyString => match_here its' prev s
         end) prev s
  | SpacePlus :: its' =>
      match s with
      | String d s' =>
          Str.isspace d &&
          (fix star (prev : option ascii) (s : string) {struct s} : bool :=
             match s with
             | String d s' =>
                 (Str.isspace d && star (Some d) s') || match_here its' prev s
             | EmptyString => match_here its' prev s
             end) (Some d) s'
      | EmptyString => false
      end
  | WordBoundary :: its' =>
      xorb (word_before prev) (word_after s) && match_here its' prev s
  end.

(** [pattern.match(s)]: a match at the start of [s]. *)
Definition match_ (p : pattern) (s : string) : bool :=
  match_here (items p) None s.

(** The positions of [s] at which the pattern matches, left to right. *)
Fixpoint matches_from (its : list item) (prev : option ascii) (pos : nat)
  (s : string) : list nat :=
  (if match_here its prev s then [pos] else []) ++
  match s with
  | String c s' => matches_from its (Some c) (S pos) s'
  | EmptyString => []
  end.

Definition occurrences (p : pattern) (s : string) : list nat :=
  matches_from (items p) None 0 s.

(** The pattern occurs somewhere in the text. *)
Definition occurs (p : pattern) (s : string) : bool :=
  match occurrences p s with
  | [] => false
  | _ :: _ => true
  end.

(** [pattern.search(s)]: a match at some position of [s]. *)
Fixpoint search_from (its : list item) (prev : option ascii) (s : string)
  : bool :=
  match_here its prev s ||
  match s with
  | String c s' => search_from its (Some c) s'
  | EmptyString => false
  end.

Definition search (p : pattern) (s : string) : bool :=
  search_from (items p) None s.

End Re.

(** ** QueryAnalyzer *)

Module QueryAnalyzer.

Import Re.

Definition keyword_pattern (src kw : string) : pattern :=
  Compile src ([Bol; SpaceStar] ++ lits kw ++ [WordBoundary]).

Definition _QUERY_PATTERNS : list (pattern * QueryType) :=
  [ (keyword_pattern "^\s*SELECT\b" "SELECT", SELECT);
    (keyword_pattern "^\s*INSERT\b" "INSERT", INSERT);
    (keyword_pattern "^\s*UPDATE\b" "UPDATE", UPDATE);
    (keyword_pattern "^\s*DELETE\b" "DELETE", DELETE);
    (keyword_pattern "^\s*CREATE\b" "CREATE", CREATE);
    (keyword_pattern "^\s*DROP\b" "DROP", DROP);
    (keyword_pattern "^\s*ALTER\b" "ALTER", ALTER);
    (keyword_pattern "^\s*TRUNCATE\b" "TRUNCATE", TRUNCATE);
    (keyword_pattern "^\s*BEGIN\b" "BEGIN", BEGIN);
    (keyword_pattern "^\s*COMMIT\b" "COMMIT", COMMIT);
    (keyword_pattern "^\s*ROLLBACK\b" "ROLLBACK", ROLLBACK);
    (keyword_pattern "^\s*PRAGMA\b" "PRAGMA", PRAGMA);
    (keyword_pattern "^\s*EXPLAIN\b" "EXPLAIN", EXPLAIN);
    (keyword_pattern "^\s*ATTACH\b" "ATTACH", ATTACH);
    (keyword_pattern "^\s*DETACH\b" "DETACH", DETACH);
    (keyword_pattern "^\s*VACUUM\b" "VACUUM", VACUUM) ].

Definition stacking_pattern (src kw : string) : pattern :=
  Compile src ([Lit ";"%char; SpaceStar] ++ lits kw ++ [WordBoundary]).

Definition _DANGEROUS_PATTERNS : list pattern :=
  [ stacking_pattern ";\s*DROP\b" "DROP";
    stacking_pattern ";\s*DELETE\b" "DELETE";
    stacking_pattern ";\s*UPDATE\b" "UPDATE";
    stacking_pattern ";\s*INSERT\b" "INSERT";
    stacking_pattern ";\s*CREATE\b" "CREATE";
    stacking_pattern ";\s*ALTER\b" "ALTER";
    Compile "--" (lits "--");
    Compile "/\*" (lits "/*");
    Compile "UNION\s+SELECT" (lits "UNION" ++ [SpacePlus] ++ lits "SELECT");
    Compile "INTO\s+OUTFILE" (lits "INTO" ++ [SpacePlus] ++ lits "OUTFILE");
    Compile "LOAD_FILE" (lits "LOAD_FILE") ].

(** The [for ... return] loop of [determine_type]. *)
Fixpoint first_match (table : list (pattern * QueryType)) (s : string)
  : QueryType :=
  match table with
  | (pat, query_type) :: table' =>
      if match_ pat s then query_type else first_match table' s
  | [] => UNKNOWN
  end.

Definition determine_type (sql : string) : QueryType :=
  let sql_stripped := Str.strip sql in
  first_match _QUERY_PATTERNS sql_stripped.

Definition dangerous_warning (p : pattern) : string :=
  "Potentially dangerous pattern detected: " +:+ source p.

(** The [for ... append] loop of [validate_security]. *)
Fixpoint scan (pats : list pattern) (sql : string) (warnings : list string)
  : list string :=
  match pats with
  | p :: pats' =>
      if search p sql
      then scan pats' sql (warnings ++ [dangerous_warning p])
      else scan pats' sql warnings
  | [] => warnings
  end.

Definition validate_security (sql : string) (allow_dangerous : bool)
  : list string :=
  let warnings := [] in
  let warnings :=
    if negb allow_dangerous then scan _DANGEROUS_PATTERNS sql warnings
    else warnings in
  let warnings :=
    if (100000 <? Z.of_nat (String.length sql))%Z
    then warnings ++ ["Query exceeds recommended length"]
    else warnings in
  warnings.

Definition is_read_only (query_type : QueryType) : bool :=
  match query_type with
  | SELECT | PRAGMA | EXPLAIN => true
  | _ => false
  end.

End QueryAnalyzer.

(** ** Exceptions and results

    The exceptions derived from [Exception] that the engine raises or that
    reach it from the driver. *)

Inductive exn :=
  | QueryCancelledException
  | TimeoutError                            (* asyncio.TimeoutError *)
  | ConnectionPoolExhausted (msg : string)
  | ValueError (msg : string)
  | DriverError (msg : string).             (* any other exception *)

(** [str(e)] *)
Definition exn_str (e : exn) : string :=
  match e with
  | QueryCancelledException => ""
  | TimeoutError => ""
  | ConnectionPoolExhausted msg => msg
  | ValueError msg => msg
  | DriverError msg => msg
  end.

Inductive result (A : Type) :=
  | Ok (a : A)
  | Raise (e : exn).

Arguments Ok {A} a.
Arguments Raise {A} e.

(** Bind values and row cells. *)
Inductive value :=
  | VNone
  | VInt (n : Z)
  | VStr (s : string).

Definition row := list value.

(** Truth value of an [Optional] number: [None] and zero are false. *)
Definition truthy (x : option Z) : bool :=
  match x with
  | Some n => negb (n =? 0)%Z
  | None => false
  end.

(** ** Request and result records *)

Module QueryRequest.

Record t := mk {
  sql : string;
  params : list value;
  query_id : string;
  timeout : option Z;
  isolation_level : IsolationLevel;
  read_only : bool;
  row_limit : option Z;
  fetch_size : Z;
  metadata : gmap string value
}.

(** The dataclass constructor.  A keyword that the caller leaves out is
    [None] here and takes the field's default; [uuid] is the value
    [uuid.uuid4().hex] would produce for a missing [query_id]. *)
Definition __init__ (sql : string) (params : option (list value))
  (query_id : option string) (timeout : option Z)
  (isolation_level : option IsolationLevel) (read_only : option bool)
  (row_limit : option Z) (fetch_size : option Z)
  (metadata : option (gmap string value)) (uuid : string) : t :=
  mk sql
     (default [] params)
     (default uuid query_id)
     timeout
     (default DEFERRED isolation_level)
     (default false read_only)
     row_limit
     (default 1000%Z fetch_size)
     (default ∅ metadata).

End QueryRequest.

Module QueryResult.

Record t := mk {
  query_id : string;
  status : ExecutionStatus;
  rows : list row;
  columns : list string;
  row_count : Z;
  affected_rows : Z;
  last_row_id : option Z;
  execution_time : Z;
  query_type : QueryType;
  error : option string;
  warnings : list string;
  metadata : gmap string value
}.

End QueryResult.

(** ** ConnectionWrapper

    A wrapper object lives in the pool's heap under its reference; its
    connection is identified with the wrapper.  The random [_id] tag is
    never read and is left out. *)

Definition wref := nat.

Module ConnectionWrapper.

Record t := mk {
  _in_use : bool;
  _created_at : Z;
  _last_used : Z;
  _query_count : Z
}.

Definition __init__ (now : Z) : t := mk false now now 0.

Definition mark_in_use (now : Z) (w : t) : t :=
  mk true (_created_at w) now (_query_count w + 1).

Definition mark_available (now : Z) (w : t) : t :=
  mk false (_created_at w) now (_query_count w).

Definition age (now : Z) (w : t) : Z := (now - _created_at w)%Z.

Definition idle_time (now : Z) (w : t) : Z := (now - _last_used w)%Z.

End ConnectionWrapper.

(** ** ConnectionPool

    Every method body that runs under the pool's lock is one function on
    the pool state; it takes the clock reading and the outcome of the
    driver calls it awaits ([aiosqlite.connect] and the PRAGMAs of
    [_create_connection], [connection.close]). *)

Module ConnectionPool.

Record t := mk {
  _min_connections : nat;
  _max_connections : nat;
  _max_idle_time : Z;
  _max_connection_age : Z;
  _pool : list wref;                         (* the deque of idle wrappers *)
  _in_use : gset wref;
  _closed : bool;
  heap : gmap wref ConnectionWrapper.t;      (* the wrapper objects *)
  next_ref : wref                            (* the next fresh reference *)
}.

Definition __init__ (min_connections max_connections : nat)
  (max_idle_time max_connection_age : Z) : t :=
  mk min_connections max_connections max_idle_time max_connection_age
     [] ∅ false ∅ 0.

Definition set_pool (l : list wref) (p : t) : t :=
  mk (_min_connections p) (_max_connections p) (_max_idle_time p)
     (_max_connection_age p) l (_in_use p) (_closed p) (heap p) (next_ref p).

Definition set_in_use (s : gset wref) (p : t) : t :=
  mk (_min_connections p) (_max_connections p) (_max_idle_time p)
     (_max_connection_age p) (_pool p) s (_closed p) (heap p) (next_ref p).

Definition set_closed (b : bool) (p : t) : t :=
  mk (_min_connections p) (_max_connections p) (_max_idle_time p)
     (_max_connection_age p) (_pool p) (_in_use p) b (heap p) (next_ref p).

Definition set_heap (h : gmap wref ConnectionWrapper.t) (p : t) : t :=
  mk (_min_connections p) (_max_connections p) (_max_idle_time p)
     (_max_connection_age p) (_pool p) (_in_use p) (_closed p) h (next_ref p).

(** Allocation of a new wrapper object. *)
Definition alloc (w : ConnectionWrapper.t) (p : t) : wref * t :=
  (next_ref p,
   mk (_min_connections p) (_max_connections p) (_max_idle_time p)
      (_max_connection_age p) (_pool p) (_in_use p) (_closed p)
      (<[next_ref p := w]> (heap p)) (S (next_ref p))).

(** Method call on the wrapper object behind a reference. *)
Definition update (f : ConnectionWrapper.t -> ConnectionWrapper.t) (w : wref)
  (p : t) : t :=
  set_heap (alter f w (heap p)) p.

Definition age (now : Z) (w : wref) (p : t) : Z :=
  from_option (ConnectionWrapper.age now) 0%Z (heap p !! w).

Definition idle_time (now : Z) (w : wref) (p : t) : Z :=
  from_option (ConnectionWrapper.idle_time now) 0%Z (heap p !! w).

Definition _create_connection (connect : result unit) (now : Z) (p : t)
  : result wref * t :=
  match connect with
  | Raise e => (Raise e, p)
  | Ok _ =>
      let '(w, p) := alloc (ConnectionWrapper.__init__ now) p in
      (Ok w, p)
  end.

(** [initialize]: the loop that creates [min_connections] wrappers; the
    [k]-th [_create_connection] raises [e] when [fail = Some (k, e)]. *)
Fixpoint initialize_loop (n k : nat) (fail : option (nat * exn)) (now : Z)
  (p : t) : result unit * t :=
  match n with
  | O => (Ok tt, p)
  | S n' =>
      let connect :=
        match fail with
        | Some (i, e) => if Nat.eqb i k then Raise e else Ok tt
        | None => Ok tt
        end in
      match _create_connection connect now p with
      | (Raise e, p) => (Raise e, p)
      | (Ok conn, p) =>
          initialize_loop n' (S k) fail now (set_pool (_pool p ++ [conn]) p)
      end
  end.

Definition initialize (fail : option (nat * exn)) (now : Z) (p : t)
  : result unit * t :=
  initialize_loop (_min_connections p) 0 fail now p.

(** [deque.remove]: drops the first occurrence, [None] when there is none
    (the deque raises [ValueError]). *)
Fixpoint deque_remove (w : wref) (l : list wref) : option (list wref) :=
  match l with
  | [] => None
  | x :: l' =>
      if Nat.eqb x w then Some l'
      else match deque_remove w l' with
           | Some r => Some (x :: r)
           | None => None
           end
  end.

(** Second loop of [_cleanup_idle_connections]; the [k]-th [close] raises
    [e] when [fail = Some (k, e)]. *)
Fixpoint cleanup_loop (to_remove : list wref) (k : nat)
  (fail : option (nat * exn)) (p : t) : result unit * t :=
  match to_remove with
  | [] => (Ok tt, p)
  | wrapper :: to_remove' =>
      match deque_remove wrapper (_pool p) with
      | None => (Raise (ValueError "deque.remove(x): x not in deque"), p)
      | Some l =>
          let p := set_pool l p in
          match fail with
          | Some (i, e) =>
              if Nat.eqb i k then (Raise e, p)
              else cleanup_loop to_remove' (S k) fail p
          | None => cleanup_loop to_remove' (S k) fail p
          end
      end
  end.

Definition _cleanup_idle_connections (fail : option (nat * exn)) (now : Z)
  (p : t) : result unit * t :=
  let to_remove :=
    List.filter
      (fun wrapper =>
         ((_max_idle_time p <? idle_time now wrapper p)%Z
          || (_max_connection_age p <? age now wrapper p)%Z)
         && Nat.ltb (_min_connections p) (length (_pool p)))
      (_pool p) in
  cleanup_loop to_remove 0 fail p.

(** One pass through the [while True] body of [_acquire_wrapper]. *)
Inductive acquire_step :=
  | Acquired (wrapper : wref)
  | Failed (e : exn)
  | Wait (timed : bool).    (* condition.wait(), under wait_for or not *)

Definition _acquire_wrapper_step (deadline : option Z) (now : Z)
  (connect : result unit) (p : t) : acquire_step * t :=
  if _closed p then (Failed (ConnectionPoolExhausted "Pool is closed"), p)
  else
    match _pool p with
    | wrapper :: rest =>
        let p := set_pool rest p in
        let p := update (ConnectionWrapper.mark_in_use now) wrapper p in
        let p := set_in_use ({[wrapper]} ∪ _in_use p) p in
        (Acquired wrapper, p)
    | [] =>
        if Nat.ltb (size (_in_use p)) (_max_connections p) then
          match _create_connection connect now p with
          | (Raise e, p) => (Failed e, p)
          | (Ok wrapper, p) =>
              let p := update (ConnectionWrapper.mark_in_use now) wrapper p in
              let p := set_in_use ({[wrapper]} ∪ _in_use p) p in
              (Acquired wrapper, p)
          end
        else if truthy deadline then
          let remaining := (default 0 deadline - now)%Z in
          if (remaining <=? 0)%Z
          then
            (Failed (ConnectionPoolExhausted "Timeout waiting for connection"),
             p)
          else (Wait true, p)
        else (Wait false, p)
    end.

Definition _release_wrapper (wrapper : wref) (now : Z)
  (close connect : result unit) (p : t) : result unit * t :=
  let p := update (ConnectionWrapper.mark_available now) wrapper p in
  let p := set_in_use (_in_use p ∖ {[wrapper]}) p in
  if (age now wrapper p <? _max_connection_age p)%Z then
    (Ok tt, set_pool (_pool p ++ [wrapper]) p)
  else
    match close with
    | Raise e => (Raise e, p)
    | Ok _ =>
        if Nat.ltb (length (_pool p) + size (_in_use p)) (_min_connections p)
        then
          match _create_connection connect now p with
          | (Raise e, p) => (Raise e, p)
          | (Ok new_wrapper, p) =>
              (Ok tt, set_pool (_pool p ++ [new_wrapper]) p)
          end
        else (Ok tt, p)
    end.

(** [close] marks the pool closed before it takes the lock ... *)
Definition close_mark (p : t) : t := set_closed true p.

(** ... and, under the lock, closes every wrapper and clears both
    containers; a [close] that raises leaves them as they are. *)
Definition close_locked (fail : option exn) (p : t) : result unit * t :=
  match fail with
  | Some e =>
      if Nat.eqb (length (_pool p) + size (_in_use p)) 0
      then (Ok tt, set_in_use ∅ (set_pool [] p))
      else (Raise e, p)
  | None => (Ok tt, set_in_use ∅ (set_pool [] p))
  end.

(** [stats]: available, in_use, total, max_connections. *)
Definition stats (p : t) : nat * nat * nat * nat :=
  (length (_pool p), size (_in_use p),
   length (_pool p) + size (_in_use p), _max_connections p).

End ConnectionPool.

(** ** The pool as a transition system

    Each critical section of the pool is an event.  [held] lists the
    wrappers that a caller inside [async with pool.acquire()] holds at the
    moment: [_release_wrapper] is only ever called by that context manager,
    on the wrapper [_acquire_wrapper] gave it. *)

Module PoolSystem.

Import ConnectionPool.

Inductive event :=
  | EvAcquire (deadline : option Z) (now : Z) (connect : result unit)
  | EvRelease (wrapper : wref) (now : Z) (close connect : result unit)
  | EvCleanup (fail : option (nat * exn)) (now : Z)
  | EvCloseMark
  | EvCloseLocked (fail : option exn).

(** The effect of an event on the pool state alone. *)
Definition apply (ev : event) (p : t) : t :=
  match ev with
  | EvAcquire deadline now connect =>
      snd (_acquire_wrapper_step deadline now connect p)
  | EvRelease wrapper now close connect =>
      snd (_release_wrapper wrapper now close connect p)
  | EvCleanup fail now => snd (_cleanup_idle_connections fail now p)
  | EvCloseMark => close_mark p
  | EvCloseLocked fail => snd (close_locked fail p)
  end.

Definition run (evs : list event) (p : t) : t :=
  fold_left (fun p ev => apply ev p) evs p.

Record system := System { pool : t; held : list wref }.

Definition remove_held (w : wref) (l : list wref) : list wref :=
  filter (fun x => x ≠ w) l.

(** An event is enabled when the program can perform it: a release needs
    a caller holding the wrapper, the locked part of [close] comes after
    its first statement. *)
Definition step (ev : event) (s : system) : option system :=
  match ev with
  | EvAcquire deadline now connect =>
      match _acquire_wrapper_step deadline now connect (pool s) with
      | (Acquired wrapper, p) => Some (System p (wrapper :: held s))
      | (_, p) => Some (System p (held s))
      end
  | EvRelease wrapper _ _ _ =>
      if bool_decide (wrapper ∈ held s)
      then Some (System (apply ev (pool s)) (remove_held wrapper (held s)))
      else None
  | EvCleanup _ _ | EvCloseMark => Some (System (apply ev (pool s)) (held s))
  | EvCloseLocked _ =>
      if _closed (pool s)
      then Some (System (apply ev (pool s)) (held s))
      else None
  end.

Fixpoint steps (evs : list event) (s : system) : option system :=
  match evs with
  | [] => Some s
  | ev :: evs' =>
      match step ev s with
      | Some s' => steps evs' s'
      | None => None
      end
  end.

(** The pool a program starts from: fresh from [__init__], or after
    [initialize()] on the fresh pool. *)
Definition start (min_connections max_connections : nat)
  (max_idle_time max_connection_age : Z)
  (init : option (option (nat * exn) * Z)) : system :=
  let p := __init__ min_connections max_connections
             max_idle_time max_connection_age in
  match init with
  | Some (fail, now) => System (snd (initialize fail now p)) []
  | None => System p []
  end.

(** What holds of the pool and of the callers' wrappers in every state the
    program reaches.  The last but one clause is what bounds the pool; the
    statement about [_in_use] follows from it. *)
Record invariant (max : nat) (s : system) : Prop := {
  inv_max : _max_connections (pool s) = max;
  inv_pool_nodup : NoDup (_pool (pool s));
  inv_held_nodup : NoDup (held s);
  inv_pool_free : forall w, w ∈ _pool (pool s) -> w ∉ held s;
  inv_in_use_held : forall w, w ∈ _in_use (pool s) -> w ∈ held s;
  inv_held_in_use :
    _closed (pool s) = false -> forall w, w ∈ held s -> w ∈ _in_use (pool s);
  inv_bounded : length (_pool (pool s)) + length (held s) <= max;
  inv_allocated :
    forall w, w ∈ _pool (pool s) \/ w ∈ held s -> w < next_ref (pool s)
}.

End PoolSystem.

(** ** QueryExecutor *)

Inductive effect :=
  | PoolAcquire (wrapper : wref)
  | PoolRelease (wrapper : wref)
  | ConnExecute (conn : wref) (sql : string) (params : list value)
  | CursorFetchmany (conn : wref) (size : Z)
  | ConnCommit (conn : wref).

(** What [conn.execute] hands back: the column names of
    [cursor.description], the outcome of each successive [fetchmany]
    (an exhausted cursor gives the empty batch), [rowcount], [lastrowid]. *)
Record Cursor := {
  description : option (list string);
  fetches : list (result (list row));
  rowcount : Z;
  lastrowid : option Z
}.

(** One return from [condition.wait()]: whether the timer of [wait_for]
    fired first, the clock on the next pass, and what the other tasks did
    to the pool in between. *)
Record wake := {
  timer_fired : bool;
  woke_at : Z;
  meanwhile : list PoolSystem.event
}.

(** Everything one call of [execute] meets outside itself. *)
Record Script := {
  perf_start : Z;              (* perf_counter() on entry *)
  perf_result : Z;             (* perf_counter() when the result is built *)
  perf_metrics : Z;            (* perf_counter() for the metrics *)
  mono_deadline : Z;           (* monotonic() in the deadline *)
  mono_acquire : Z;            (* monotonic() on the first pass *)
  acquire_connect : result unit;
  wakes : list wake;
  cancel_at : option nat;      (* first checkpoint that sees the flag set *)
  begin_outcome : result unit;
  execute_outcome : result Cursor;
  commit_outcome : result unit;
  during : list PoolSystem.event;
  mono_release : Z;
  release_close : result unit;
  release_connect : result unit
}.

(** Computations that call the driver: a result and the calls made. *)
Definition Eff (A : Type) : Type := result A * list effect.

Definition ret {A} (a : A) : Eff A := (Ok a, []).

Definition raise {A} (e : exn) : Eff A := (Raise e, []).

Definition call {A} (ef : effect) (outcome : result A) : Eff A :=
  (outcome, [ef]).

Definition bind {A B} (m : Eff A) (k : A -> Eff B) : Eff B :=
  match m with
  | (Ok a, log) => let '(r, log') := k a in (r, log ++ log')
  | (Raise e, log) => (Raise e, log)
  end.

Notation "'let*' x := m 'in' k" := (bind m (fun x => k))
  (at level 10, x pattern, m at level 200, k at level 200).

Module QueryExecutor.

Import QueryAnalyzer.

Record t := mk {
  _active_queries : gmap string bool;       (* query id -> its Event's flag *)
  _query_metrics : gmap string (list Z)
}.

Definition __init__ : t := mk ∅ ∅.

(** [cancel_event.is_set()] at the [k]-th checkpoint: number 0 follows the
    acquisition, number [k+1] opens the pass of the fetch loop that comes
    after [k] batches. *)
Definition is_set (cancel_at : option nat) (k : nat) : bool :=
  match cancel_at with
  | Some c => Nat.leb c k
  | None => false
  end.

(** [request.row_limit and row_count >= request.row_limit] *)
Definition limit_reached (row_limit : option Z) (row_count : Z) : bool :=
  truthy row_limit && (default 0 row_limit <=? row_count)%Z.

(** The [for row in batch] loop. *)
Fixpoint collect (row_limit : option Z) (batch : list row) (rows : list row)
  (row_count : Z) : list row * Z :=
  match batch with
  | [] => (rows, row_count)
  | row :: batch' =>
      if limit_reached row_limit row_count then (rows, row_count)
      else collect row_limit batch' (rows ++ [row]) (row_count + 1)%Z
  end.

(** The [while True] loop over the batches of the cursor. *)
Fixpoint fetch_loop (request : QueryRequest.t) (cancel_at : option nat)
  (conn : wref) (k : nat) (fetches : list (result (list row)))
  (rows : list row) (row_count : Z) : Eff (list row * Z) :=
  if is_set cancel_at k then raise QueryCancelledException
  else
    let fetchmany := CursorFetchmany conn (QueryRequest.fetch_size request) in
    match fetches with
    | [] => let* _ := call fetchmany (Ok tt) in ret (rows, row_count)
    | Raise e :: _ => call fetchmany (Raise e)
    | Ok [] :: _ => let* _ := call fetchmany (Ok tt) in ret (rows, row_count)
    | Ok batch :: fetches' =>
        let* _ := call fetchmany (Ok tt) in
        let '(rows, row_count) :=
          collect (QueryRequest.row_limit request) batch rows row_count in
        if limit_reached (QueryRequest.row_limit request) row_count
        then ret (rows, row_count)
        else fetch_loop request cancel_at conn (S k) fetches' rows row_count
    end.

(** The body of [async with self._pool.acquire(...) as conn]. *)
Definition with_connection (request : QueryRequest.t) (sc : Script)
  (query_type : QueryType) (warnings : list string) (conn : wref)
  : Eff QueryResult.t :=
  if is_set (cancel_at sc) 0 then raise QueryCancelledException
  else
    let* _ :=
      match IsolationLevel_value (QueryRequest.isolation_level request) with
      | Some v => call (ConnExecute conn ("BEGIN " +:+ v) []) (begin_outcome sc)
      | None => ret tt
      end in
    let* cursor :=
      call (ConnExecute conn (QueryRequest.sql request)
              (QueryRequest.params request))
           (execute_outcome sc) in
    if bool_decide (query_type = SELECT) then
      let columns := default [] (description cursor) in
      let* (rows, row_count) :=
         fetch_loop request (cancel_at sc) conn 1 (fetches cursor) [] 0 in
      ret (QueryResult.mk (QueryRequest.query_id request) SUCCESS rows columns
             row_count 0 None (perf_result sc - perf_start sc) query_type
             None warnings (QueryRequest.metadata request))
    else
      let* _ := call (ConnCommit conn) (commit_outcome sc) in
      ret (QueryResult.mk (QueryRequest.query_id request) SUCCESS [] []
             0 (rowcount cursor) (lastrowid cursor)
             (perf_result sc - perf_start sc) query_type
             None warnings (QueryRequest.metadata request)).

Inductive acquisition :=
  | Got (wrapper : wref)
  | Threw (e : exn)
  | Blocked.                 (* still waiting on the condition *)

(** The [while True] loop of [_acquire_wrapper], one pass per wake-up. *)
Fixpoint _acquire_wrapper_loop (deadline : option Z) (now : Z)
  (connect : result unit) (wakes : list wake) (p : ConnectionPool.t)
  : acquisition * ConnectionPool.t :=
  match ConnectionPool._acquire_wrapper_step deadline now connect p with
  | (ConnectionPool.Acquired wrapper, p) => (Got wrapper, p)
  | (ConnectionPool.Failed e, p) => (Threw e, p)
  | (ConnectionPool.Wait timed, p) =>
      match wakes with
      | [] => if timed then (Threw TimeoutError, p) else (Blocked, p)
      | wk :: wakes' =>
          let p := PoolSystem.run (meanwhile wk) p in
          if timed && timer_fired wk then (Threw TimeoutError, p)
          else _acquire_wrapper_loop deadline (woke_at wk) connect wakes' p
      end
  end.

Definition _acquire_wrapper (timeout : option Z) (sc : Script)
  (p : ConnectionPool.t) : acquisition * ConnectionPool.t :=
  let deadline :=
    if truthy timeout then Some (mono_deadline sc + default 0 timeout)%Z
    else None in
  _acquire_wrapper_loop deadline (mono_acquire sc) (acquire_connect sc)
    (wakes sc) p.

Definition failure (request : QueryRequest.t) (sc : Script)
  (status : ExecutionStatus) (error : string) : QueryResult.t :=
  QueryResult.mk (QueryRequest.query_id request) status [] [] 0 0 None
    (perf_result sc - perf_start sc)
    (determine_type (QueryRequest.sql request)) (Some error) []
    (QueryRequest.metadata request).

(** The three [except] clauses of [execute]. *)
Definition handler (request : QueryRequest.t) (sc : Script) (e : exn)
  : result QueryResult.t :=
  match e with
  | QueryCancelledException =>
      Ok (failure request sc CANCELLED "Query was cancelled")
  | TimeoutError => Ok (failure request sc TIMEOUT "Query timed out")
  | e => Ok (failure request sc ERROR (exn_str e))
  end.

(** A run of [execute]: what the caller gets ([None] while the call is
    still waiting for a connection), the executor and the pool afterwards,
    and the calls made on the pool and on the connection. *)
Record Run := {
  outcome : option (result QueryResult.t);
  executor : t;
  pool : ConnectionPool.t;
  effects : list effect
}.

Definition register (query_id : string) (self : t) : t :=
  mk (<[query_id := false]> (_active_queries self)) (_query_metrics self).

Definition unregister (query_id : string) (self : t) : t :=
  mk (delete query_id (_active_queries self)) (_query_metrics self).

Definition record_metric (name : string) (execution_time : Z) (self : t) : t :=
  mk (_active_queries self)
     (<[name := default [] (_query_metrics self !! name) ++ [execution_time]]>
        (_query_metrics self)).

(** The [try] block. *)
Definition try_block (self : t) (p : ConnectionPool.t)
  (request : QueryRequest.t) (sc : Script) : Run :=
  let query_type := determine_type (QueryRequest.sql request) in
  let warnings := validate_security (QueryRequest.sql request) false in
  if QueryRequest.read_only request && negb (is_read_only query_type) then
    {| outcome :=
         Some (Ok (QueryResult.mk (QueryRequest.query_id request)
                     ERROR [] [] 0 0 None
                     (perf_result sc - perf_start sc) query_type
                     (Some "Write operations not allowed in read-only mode")
                     warnings (QueryRequest.metadata request)));
       executor := self; pool := p; effects := [] |}
  else
    match _acquire_wrapper (QueryRequest.timeout request) sc p with
    | (Blocked, p) =>
        {| outcome := None; executor := self; pool := p; effects := [] |}
    | (Threw e, p) =>
        {| outcome := Some (Raise e); executor := self; pool := p;
           effects := [] |}
    | (Got wrapper, p) =>
        let '(r, log) :=
          with_connection request sc query_type warnings wrapper in
        let self :=
          match r with
          | Ok _ => record_metric (QueryType_name query_type)
                      (perf_metrics sc - perf_start sc) self
          | Raise _ => self
          end in
        let p := PoolSystem.run (during sc) p in
        let '(released, p) :=
          ConnectionPool._release_wrapper wrapper (mono_release sc)
            (release_close sc) (release_connect sc) p in
        {| outcome := Some match released with
                           | Ok _ => r
                           | Raise e => Raise e
                           end;
           executor := self; pool := p;
           effects := [PoolAcquire wrapper] ++ log ++ [PoolRelease wrapper] |}
    end.

Definition execute (self : t) (p : ConnectionPool.t)
  (request : QueryRequest.t) (sc : Script) : Run :=
  let self := register (QueryRequest.query_id request) self in
  let run := try_block self p request sc in
  match outcome run with
  | None => run
  | Some r =>
      {| outcome := Some match r with
                         | Ok result => Ok result
                         | Raise e => handler request sc e
                         end;
         executor := unregister (QueryRequest.query_id request) (executor run);
         pool := pool run;
         effects := effects run |}
  end.

Definition cancel (query_id : string) (self : t) : bool * t :=
  match _active_queries self !! query_id with
  | Some _ =>
      (true, mk (<[query_id := true]> (_active_queries self))
                (_query_metrics self))
  | None => (false, self)
  end.

End QueryExecutor.

(** ** TransactionManager

    The manager keeps a log of requests per transaction; the executor and
    the pool it delegates to are passed along. *)

Module TransactionManager.

Record t := mk {
  _active_transactions : gmap string (list QueryRequest.t)
}.

Definition __init__ : t := mk ∅.

Definition not_found (transaction_id : string) : exn :=
  ValueError ("Transaction " +:+ transaction_id +:+ " not found").

(** [transaction_id or uuid.uuid4().hex]: the empty string is false too. *)
Definition begin (transaction_id : option string) (uuid : string) (self : t)
  : string * t :=
  let tx_id :=
    match transaction_id with
    | Some s => if String.eqb s "" then uuid else s
    | None => uuid
    end in
  (tx_id, mk (<[tx_id := []]> (_active_transactions self))).

Definition execute_in_transaction (transaction_id : string)
  (request : QueryRequest.t) (self : t) (ex : QueryExecutor.t)
  (p : ConnectionPool.t) (sc : Script) : t * QueryExecutor.Run :=
  match _active_transactions self !! transaction_id with
  | None =>
      (self,
       {| QueryExecutor.outcome := Some (Raise (not_found transaction_id));
          QueryExecutor.executor := ex;
          QueryExecutor.pool := p;
          QueryExecutor.effects := [] |})
  | Some log =>
      (mk (<[transaction_id := log ++ [request]]> (_active_transactions self)),
       QueryExecutor.execute ex p request sc)
  end.

Definition commit (transaction_id : string) (self : t) : Eff unit * t :=
  match _active_transactions self !! transaction_id with
  | None => (raise (not_found transaction_id), self)
  | Some _ =>
      (ret tt, mk (delete transaction_id (_active_transactions self)))
  end.

Definition rollback (transaction_id : string) (self : t) : Eff unit * t :=
  match _active_transactions self !! transaction_id with
  | None => (raise (not_found transaction_id), self)
  | Some _ =>
      (ret tt, mk (delete transaction_id (_active_transactions self)))
  end.

End TransactionManager.

(** ** LRUCache

    The [OrderedDict] is the list of its items, the oldest first. *)

Module LRUCache.

Record t (T : Type) := mk {
  _capacity : Z;
  _cache : list (string * T)
}.

Arguments mk {T} _ _.
Arguments _capacity {T} _.
Arguments _cache {T} _.

Section Items.

Context {T : Type}.

(** [d[key]], [None] when [key not in d]. *)
Fixpoint getitem (key : string) (d : list (string * T)) : option T :=
  match d with
  | [] => None
  | (k, v) :: d' => if String.eqb k key then Some v else getitem key d'
  end.

(** [del d[key]] *)
Fixpoint delitem (key : string) (d : list (string * T)) : list (string * T) :=
  match d with
  | [] => []
  | (k, v) :: d' =>
      if String.eqb k key then d' else (k, v) :: delitem key d'
  end.

(** [d.move_to_end(key)], for a key of [d]. *)
Definition move_to_end (key : string) (d : list (string * T))
  : list (string * T) :=
  match getitem key d with
  | Some v => delitem key d ++ [(key, v)]
  | None => d
  end.

(** [d[key] = value]: in place for a key of [d], at the end for a new one. *)
Fixpoint setitem (key : string) (value : T) (d : list (string * T))
  : list (string * T) :=
  match d with
  | [] => [(key, value)]
  | (k, v) :: d' =>
      if String.eqb k key then (k, value) :: d'
      else (k, v) :: setitem key value d'
  end.

(** [d.popitem(last=False)] *)
Definition popitem_first (d : list (string * T)) : list (string * T) :=
  match d with
  | _ :: d' => d'
  | [] => []
  end.

Definition __init__ (capacity : Z) : t T := mk capacity [].

Definition get (key : string) (self : t T) : option T * t T :=
  match getitem key (_cache self) with
  | None => (None, self)
  | Some _ =>
      let d := move_to_end key (_cache self) in
      (getitem key d, mk (_capacity self) d)
  end.

Definition put (key : string) (value : T) (self : t T) : t T :=
  let d := _cache self in
  let d :=
    match getitem key d with
    | Some _ => move_to_end key d
    | None => d
    end in
  let d := setitem key value d in
  let d :=
    if (_capacity self <? Z.of_nat (length d))%Z then popitem_first d
    else d in
  mk (_capacity self) d.

Definition invalidate (key : string) (self : t T) : bool * t T :=
  match getitem key (_cache self) with
  | Some _ => (true, mk (_capacity self) (delitem key (_cache self)))
  | None => (false, self)
  end.

Definition clear (self : t T) : t T := mk (_capacity self) [].

(** The calls a user makes on a cache, and a sequence of them. *)
Inductive op :=
  | Get (key : string)
  | Put (key : string) (value : T)
  | Invalidate (key : string)
  | Clear.

Definition apply (o : op) (self : t T) : t T :=
  match o with
  | Get key => (get key self).2
  | Put key value => put key value self
  | Invalidate key => (invalidate key self).2
  | Clear => clear self
  end.

Definition run (ops : list op) (self : t T) : t T :=
  fold_left (fun self o => apply o self) ops self.

(** The keys, the least recently used first. *)
Definition keys (self : t T) : list string := List.map fst (_cache self).

End Items.

End LRUCache.

(** ** QueryPlanCache

    The fingerprint [_normalize_query] (whitespace folding, upper-casing,
    placeholders for literals, MD5) is a parameter of the cache: nothing
    below depends on what it computes. *)

Module QueryPlanCache.

Record t := mk {
  _cache : LRUCache.t (string * QueryType);
  _hit_count : Z;
  _miss_count : Z
}.

Definition __init__ (max_size : Z) : t := mk (LRUCache.__init__ max_size) 0 0.

Section Fingerprint.

Variable _normalize_query : string -> string.

Definition get (sql : string) (self : t)
  : option (string * QueryType) * t :=
  let key := _normalize_query sql in
  let '(result, cache) := LRUCache.get key (_cache self) in
  match result with
  | Some _ => (result, mk cache (_hit_count self + 1) (_miss_count self))
  | None => (result, mk cache (_hit_count self) (_miss_count self + 1))
  end.

Definition put (sql parsed : string) (query_type : QueryType) (self : t) : t :=
  let key := _normalize_query sql in
  mk (LRUCache.put key (parsed, query_type) (_cache self))
     (_hit_count self) (_miss_count self).

Inductive op :=
  | Get (sql : string)
  | Put (sql parsed : string) (query_type : QueryType).

Definition apply (o : op) (self : t) : t :=
  match o with
  | Get sql => (get sql self).2
  | Put sql parsed query_type => put sql parsed query_type self
  end.

Definition run (ops : list op) (self : t) : t :=
  fold_left (fun self o => apply o self) ops self.

Definition is_get (o : op) : bool :=
  match o with Get _ => true | Put _ _ _ => false end.

End Fingerprint.

(** [hit_ratio]: the quotient is a rational. *)
Definition hit_ratio (self : t) : Q :=
  let total := (_hit_count self + _miss_count self)%Z in
  if (0 <? total)%Z then Qmake (_hit_count self) (Z.to_pos total) else 0%Q.

End QueryPlanCache.

(** ** QueryExecutor.get_metrics

    Per query type with at least one recorded time: count, total (summed
    from the left, as [sum] does), average (a rational), minimum and
    maximum. *)

Module ExecutorMetrics.

Record entry := {
  count : Z;
  total_time : Z;
  avg_time : Q;
  min_time : Z;
  max_time : Z
}.

Definition summary (times : list Z) : option entry :=
  match times with
  | [] => None
  | time :: times' =>
      let n := Z.of_nat (length times) in
      let total := fold_left Z.add times 0%Z in
      Some {| count := n;
              total_time := total;
              avg_time := Qmake total (Z.to_pos n);
              min_time := fold_right Z.min time times';
              max_time := fold_right Z.max time times' |}
  end.

Definition get_metrics (self : QueryExecutor.t) : gmap string entry :=
  omap summary (QueryExecutor._query_metrics self).

End ExecutorMetrics.

(** * What the statements are written with *)

(** The classification as the specification words it: skip the leading
    whitespace, take the leading keyword, compare it without regard to
    case with the ordered table, first entry first. *)
Module AnalyzerSpec.

Definition keyword_table : list (string * QueryType) :=
  [ ("SELECT", SELECT); ("INSERT", INSERT); ("UPDATE", UPDATE);
    ("DELETE", DELETE); ("CREATE", CREATE); ("DROP", DROP); ("ALTER", ALTER);
    ("TRUNCATE", TRUNCATE); ("BEGIN", BEGIN); ("COMMIT", COMMIT);
    ("ROLLBACK", ROLLBACK); ("PRAGMA", PRAGMA); ("EXPLAIN", EXPLAIN);
    ("ATTACH", ATTACH); ("DETACH", DETACH); ("VACUUM", VACUUM) ].

Definition leading_keyword (sql : string) : string :=
  Str.map Str.upper (Str.take_word (Str.lstrip sql)).

Fixpoint first_entry (table : list (string * QueryType)) (kw : string)
  : QueryType :=
  match table with
  | (k, query_type) :: table' =>
      if String.eqb kw k then query_type else first_entry table' kw
  | [] => UNKNOWN
  end.

Definition classify (sql : string) : QueryType :=
  first_entry keyword_table (leading_keyword sql).

(** The number of places of the text at which one of the dangerous
    patterns matches. *)
Definition dangerous_occurrences (sql : string) : nat :=
  length
    (concat
       (List.map (fun p => Re.occurrences p sql)
          QueryAnalyzer._DANGEROUS_PATTERNS)).

Definition length_warning (sql : string) : list string :=
  if (100000 <? Z.of_nat (String.length sql))%Z
  then ["Query exceeds recommended length"] else [].

End AnalyzerSpec.

(** ** Notions the statements about [execute] use *)

Module ExecutorSpec.

(** The request is turned away by the read-only policy. *)
Definition rejected (request : QueryRequest.t) : bool :=
  QueryRequest.read_only request
  && negb (QueryAnalyzer.is_read_only
             (QueryAnalyzer.determine_type (QueryRequest.sql request))).

(** A result says how the query ended: a success carries no error, every
    other end carries a message. *)
Definition well_formed (r : QueryResult.t) : Prop :=
  match QueryResult.status r with
  | SUCCESS => QueryResult.error r = None
  | ERROR | CANCELLED | TIMEOUT => is_Some (QueryResult.error r)
  | PENDING | RUNNING => False
  end.

(** The pool has no idle wrapper and no room for a new one. *)
Definition exhausted (p : ConnectionPool.t) : Prop :=
  ConnectionPool._closed p = false
  /\ ConnectionPool._pool p = []
  /\ ConnectionPool._max_connections p <= size (ConnectionPool._in_use p).

(** The timer of [wait_for] ends the first wait for a connection. *)
Definition timer_ends_wait (timeout : option Z) (sc : Script) : Prop :=
  truthy timeout = true
  /\ truthy (Some (mono_deadline sc + default 0 timeout))%Z = true
  /\ (mono_acquire sc < mono_deadline sc + default 0 timeout)%Z
  /\ match wakes sc with
     | [] => True
     | wk :: _ => timer_fired wk = true
     end.

End ExecutorSpec.

(** Concrete pools, requests and scripts for the examples. *)
Module Scenario.

Definition no_rows : Cursor :=
  {| description := None; fetches := []; rowcount := 0; lastrowid := None |}.

(** A run in which nothing fails, nobody cancels and nobody else touches
    the pool; [cancel] and [cursor] are what varies. *)
Definition script (cancel : option nat) (cursor : Cursor) : Script :=
  {| perf_start := 0; perf_result := 3; perf_metrics := 4;
     mono_deadline := 0; mono_acquire := 0;
     acquire_connect := Ok tt; wakes := [];
     cancel_at := cancel;
     begin_outcome := Ok tt;
     execute_outcome := Ok cursor;
     commit_outcome := Ok tt;
     during := []; mono_release := 5;
     release_close := Ok tt; release_connect := Ok tt |}.

(** The table [t] with [m] rows of one column. *)
Definition table (m : nat) : list row :=
  List.map (fun i => [VInt (Z.of_nat i)]) (seq 0 m).

Definition select_cursor (batches : list (list row)) : Cursor :=
  {| description := Some ["id"]; fetches := List.map Ok batches;
     rowcount := (-1); lastrowid := None |}.

Definition fresh_pool : ConnectionPool.t :=
  ConnectionPool.__init__ 2 10 300 3600.

Definition closed_pool : ConnectionPool.t :=
  ConnectionPool.close_mark fresh_pool.

Definition request (sql : string) (read_only : bool) (row_limit : option Z)
  : QueryRequest.t :=
  QueryRequest.__init__ sql None (Some "q1") None None (Some read_only)
    row_limit None None "0f8fad5bd9cb469fa16570867728950e".

(** A pool of at most two connections: two callers take one wrapper
    each, the first wrapper is given back, the sweep runs, a third caller
    comes, the pool is closed, the second wrapper is given back. *)
Definition trace : list PoolSystem.event :=
  [ PoolSystem.EvAcquire None 1 (Ok tt);
    PoolSystem.EvAcquire None 2 (Ok tt);
    PoolSystem.EvRelease 0 3 (Ok tt) (Ok tt);
    PoolSystem.EvCleanup None 400;
    PoolSystem.EvAcquire (Some 500%Z) 401 (Ok tt);
    PoolSystem.EvCloseMark;
    PoolSystem.EvCloseLocked None;
    PoolSystem.EvRelease 1 4000 (Ok tt) (Ok tt) ].

End Scenario.

(** ** Notions the statements about the caches use *)

Module CacheSpec.

(** The shape of a cache that a program can build: no key twice, and no
    more items than the capacity allows. *)
Definition wf {T} (self : LRUCache.t T) : Prop :=
  NoDup (LRUCache.keys self)
  /\ (Z.of_nat (length (LRUCache._cache self))
      <= Z.max 0 (LRUCache._capacity self))%Z.

(** The number of [get] calls among the calls made on a plan cache. *)
Definition gets (ops : list QueryPlanCache.op) : Z :=
  Z.of_nat (length (List.filter QueryPlanCache.is_get ops)).

End CacheSpec.

(** ** Notions the statements about the pool use *)

Module PoolSpec.

Import ConnectionPool.

(** The test of the sweep on an idle wrapper: idle for too long, or too
    old. *)
Definition expired (now : Z) (p : t) (wrapper : wref) : bool :=
  ((_max_idle_time p <? idle_time now wrapper p)%Z
   || (_max_connection_age p <? age now wrapper p)%Z).

(** The [_in_use] flag of the wrapper behind a reference. *)
Definition flag (p : t) (wrapper : wref) : option bool :=
  ConnectionWrapper._in_use <$> heap p !! wrapper.

(** The flags of the wrappers say where the wrappers are. *)
Definition flags_agree (p : t) : Prop :=
  (forall w, w ∈ _pool p -> flag p w = Some false)
  /\ (forall w, w ∈ _in_use p -> flag p w = Some true).

(** The flags agree, and each wrapper a caller holds is an object. *)
Definition flags_invariant (s : PoolSystem.system) : Prop :=
  flags_agree (PoolSystem.pool s)
  /\ (forall w, w ∈ PoolSystem.held s -> is_Some (flag (PoolSystem.pool s) w)).

(** The number of wrappers [initialize] creates: all of them, or those
    before the creation that fails. *)
Definition created (min_connections : nat) (fail : option (nat * exn)) : nat :=
  match fail with
  | Some (i, _) => Nat.min i min_connections
  | None => min_connections
  end.

End PoolSpec.

(** ** Notions the further statements about [execute] use *)

Module RunSpec.

(** A call made on the connection of the wrapper [w]. *)
Definition on_connection (w : wref) (ef : effect) : bool :=
  match ef with
  | ConnExecute conn _ _ | CursorFetchmany conn _ | ConnCommit conn =>
      Nat.eqb conn w
  | PoolAcquire _ | PoolRelease _ => false
  end.

(** The BEGIN that opens the body when the isolation level has a mode. *)
Definition begin_calls (request : QueryRequest.t) (w : wref) : list effect :=
  match IsolationLevel_value (QueryRequest.isolation_level request) with
  | Some v => [ConnExecute w ("BEGIN " +:+ v) []]
  | None => []
  end.

(** The leading keywords of the statements that count as reads. *)
Definition read_keywords : list string := ["SELECT"; "PRAGMA"; "EXPLAIN"].

(** The time list under the type of the request, with the reading of this
    run added. *)
Definition recorded (self : QueryExecutor.t) (request : QueryRequest.t)
  (sc : Script) : list Z :=
  default []
    (QueryExecutor._query_metrics self
       !! QueryType_name
            (QueryAnalyzer.determine_type (QueryRequest.sql request)))
  ++ [(perf_metrics sc - perf_start sc)%Z].

(** Requests executed one after the other in a transaction, each with
    what it meets; the executor and the pool pass from one call to the
    next. *)
Fixpoint execute_all (transaction_id : string)
  (calls : list (QueryRequest.t * Script)) (self : TransactionManager.t)
  (ex : QueryExecutor.t) (p : ConnectionPool.t)
  : TransactionManager.t * QueryExecutor.t * ConnectionPool.t :=
  match calls with
  | [] => (self, ex, p)
  | (request, sc) :: calls' =>
      let '(self, run) :=
        TransactionManager.execute_in_transaction transaction_id request
          self ex p sc in
      execute_all transaction_id calls' self (QueryExecutor.executor run)
        (QueryExecutor.pool run)
  end.

End RunSpec.

(** * Properties *)

(** ** Characters: facts checked on all 256 code points *)

Module CharFacts.

Lemma all_ascii_complete (c : ascii) : In c Str.all_ascii.
Proof.
  unfold Str.all_ascii. apply in_map_iff.
  exists (N.to_nat (N_of_ascii c)). split.
  - rewrite N2Nat.id. apply ascii_N_embedding.
  - apply in_seq. pose proof (N_ascii_bounded c). lia.
Qed.

Lemma by_cases (P : ascii -> bool) :
  forallb P Str.all_ascii = true -> forall c, P c = true.
Proof.
  intros H c. rewrite forallb_forall in H. apply H, all_ascii_complete.
Qed.

Lemma by_letter_cases (P : ascii -> ascii -> bool) :
  forallb
    (fun k =>
       if Str.is_upper_letter k then forallb (P k) Str.all_ascii else true)
    Str.all_ascii = true ->
  forall k d, Str.is_upper_letter k = true -> P k d = true.
Proof.
  intros H k d Hk.
  pose proof (by_cases _ H k) as Hd. cbv beta in Hd. rewrite Hk in Hd.
  exact (by_cases _ Hd d).
Qed.

Lemma word_not_space c : Str.isword c = true -> Str.isspace c = false.
Proof.
  intros H.
  assert (Hc : implb (Str.isword c) (negb (Str.isspace c)) = true).
  { clear H. revert c.
    apply (by_cases (fun c => implb (Str.isword c) (negb (Str.isspace c)))).
    vm_compute. reflexivity. }
  rewrite H in Hc. simpl in Hc. by apply negb_true_iff.
Qed.

Lemma fold_letter_word k d :
  Str.is_upper_letter k = true -> Re.eqb_ci k d = true -> Str.isword d = true.
Proof.
  intros Hk Hd.
  assert (H : implb (Re.eqb_ci k d) (Str.isword d) = true).
  { clear Hd. revert k d Hk.
    apply (by_letter_cases (fun k d => implb (Re.eqb_ci k d) (Str.isword d))).
    vm_compute. reflexivity. }
  rewrite Hd in H. exact H.
Qed.

Lemma fold_letter_upper k d :
  Str.is_upper_letter k = true -> Re.eqb_ci k d = Ascii.eqb (Str.upper d) k.
Proof.
  intros Hk. apply eqb_prop. revert k d Hk.
  apply (by_letter_cases
    (fun k d => Bool.eqb (Re.eqb_ci k d) (Ascii.eqb (Str.upper d) k))).
  vm_compute. reflexivity.
Qed.

End CharFacts.

(** ** QueryAnalyzer: classification by leading keyword *)

Module AnalyzerFacts.

Import Re QueryAnalyzer CharFacts.

Lemma lstrip_head s :
  match Str.lstrip s with
  | String c _ => Str.isspace c = false
  | EmptyString => True
  end.
Proof.
  induction s as [|c s IH]; simpl; [done|].
  destruct (Str.isspace c) eqn:E; [exact IH | exact E].
Qed.

Lemma rstrip_head c s :
  Str.isspace c = false -> exists r, Str.rstrip (String c s) = String c r.
Proof.
  intros Hc. simpl. destruct (Str.rstrip s); rewrite ?Hc; eauto.
Qed.

Lemma strip_head s :
  match Str.strip s with
  | String c _ => Str.isspace c = false
  | EmptyString => True
  end.
Proof.
  unfold Str.strip. pose proof (lstrip_head s) as H.
  destruct (Str.lstrip s) as [|c t]; [done|].
  destruct (rstrip_head c t H) as [r ->]. exact H.
Qed.

Lemma take_word_rstrip s : Str.take_word (Str.rstrip s) = Str.take_word s.
Proof.
  induction s as [|c s IH]; [done|].
  cbn [Str.rstrip Str.take_word].
  destruct (Str.isword c) eqn:Hw.
  - rewrite <- IH. rewrite (word_not_space c Hw).
    destruct (Str.rstrip s); cbn [Str.take_word]; by rewrite Hw.
  - destruct (Str.rstrip s); [destruct (Str.isspace c)|];
      cbn [Str.take_word]; by rewrite ?Hw.
Qed.

Lemma take_word_strip s :
  Str.take_word (Str.strip s) = Str.take_word (Str.lstrip s).
Proof. apply take_word_rstrip. Qed.

(** [\s*] consumes nothing in front of a character that is no space. *)
Lemma star_no_space its prev s :
  match s with String c _ => Str.isspace c = false | EmptyString => True end ->
  match_here (SpaceStar :: its) prev s = match_here its prev s.
Proof.
  destruct s as [|c s]; intros H; cbn [match_here]; [done|].
  by rewrite H.
Qed.

(** After a word character, the rest of a keyword followed by [\b] matches
    exactly when what is left of the leading word is that rest. *)
Lemma keyword_tail kw : Str.all_upper kw = true ->
  forall prev s, word_before prev = true ->
    match_here (lits kw ++ [WordBoundary]) prev s
    = String.eqb (Str.map Str.upper (Str.take_word s)) kw.
Proof.
  induction kw as [|k kw IH]; intros Hup prev s Hprev.
  - cbn [lits list_ascii_of_string List.map app match_here].
    rewrite Hprev, andb_true_r. destruct s as [|c s]; [done|].
    cbn [word_after Str.take_word]. by destruct (Str.isword c).
  - cbn [Str.all_upper] in Hup. apply andb_true_iff in Hup as [Hk Hup].
    cbn [lits list_ascii_of_string List.map app match_here].
    destruct s as [|d s]; [done|].
    cbn [Str.take_word]. destruct (Str.isword d) eqn:Hd.
    + cbn [Str.map String.eqb]. fold (lits kw).
      rewrite (IH Hup (Some d) s Hd), (fold_letter_upper k d Hk).
      reflexivity.
    + cbn [Str.map String.eqb].
      destruct (eqb_ci k d) eqn:E; [|done].
      by rewrite (fold_letter_word k d Hk E) in Hd.
Qed.

Lemma keyword_word k kw : Str.all_upper (String k kw) = true ->
  forall prev s,
    match_here (lits (String k kw) ++ [WordBoundary]) prev s
    = String.eqb (Str.map Str.upper (Str.take_word s)) (String k kw).
Proof.
  intros Hup prev s.
  cbn [Str.all_upper] in Hup. apply andb_true_iff in Hup as [Hk Hup].
  cbn [lits list_ascii_of_string List.map app match_here].
  destruct s as [|d s]; [done|].
  cbn [Str.take_word]. destruct (Str.isword d) eqn:Hd.
  - cbn [Str.map String.eqb]. fold (lits kw).
    rewrite (keyword_tail kw Hup (Some d) s Hd), (fold_letter_upper k d Hk).
    reflexivity.
  - cbn [Str.map String.eqb].
    destruct (eqb_ci k d) eqn:E; [|done].
    by rewrite (fold_letter_word k d Hk E) in Hd.
Qed.

(** A keyword pattern matches the stripped text exactly when the leading
    keyword of the text is that keyword. *)
Lemma keyword_pattern_match src k kw sql :
  Str.all_upper (String k kw) = true ->
  match_ (keyword_pattern src (String k kw)) (Str.strip sql)
  = String.eqb (AnalyzerSpec.leading_keyword sql) (String k kw).
Proof.
  intros Hup. unfold match_, keyword_pattern, items.
  change ([Bol; SpaceStar] ++ lits (String k kw) ++ [WordBoundary])
    with (Bol :: SpaceStar :: (lits (String k kw) ++ [WordBoundary])).
  cbn [match_here].
  change ((fix star (prev : option ascii) (s : string) {struct s} : bool :=
             match s with
             | String d s' =>
                 Str.isspace d && star (Some d) s'
                 || match_here (lits (String k kw) ++ [WordBoundary]) prev s
             | EmptyString =>
                 match_here (lits (String k kw) ++ [WordBoundary]) prev s
             end) None (Str.strip sql))
    with (match_here (SpaceStar :: (lits (String k kw) ++ [WordBoundary]))
            None (Str.strip sql)).
  rewrite star_no_space by apply strip_head.
  rewrite (keyword_word k kw Hup).
  unfold AnalyzerSpec.leading_keyword. by rewrite take_word_strip.
Qed.

Lemma determine_type_classify sql :
  determine_type sql = AnalyzerSpec.classify sql.
Proof.
  unfold determine_type, AnalyzerSpec.classify, _QUERY_PATTERNS,
    AnalyzerSpec.keyword_table.
  cbn [first_match AnalyzerSpec.first_entry].
  by rewrite !keyword_pattern_match.
Qed.

End AnalyzerFacts.

(** ** QueryAnalyzer: security warnings *)

Module SecurityFacts.

Import Re QueryAnalyzer AnalyzerSpec.

Lemma search_from_matches its prev pos s :
  search_from its prev s
  = match matches_from its prev pos s with [] => false | _ :: _ => true end.
Proof.
  revert prev pos. induction s as [|c s IH]; intros prev pos;
    cbn [search_from matches_from].
  - destruct (match_here its prev ""); reflexivity.
  - destruct (match_here its prev (String c s)); [reflexivity|].
    cbn [orb app]. apply IH.
Qed.

Lemma search_occurs p s : search p s = occurs p s.
Proof. apply search_from_matches. Qed.

Lemma scan_filter pats sql warnings :
  scan pats sql warnings
  = warnings ++
    List.map dangerous_warning (List.filter (fun p => occurs p sql) pats).
Proof.
  revert warnings. induction pats as [|p pats IH]; intros warnings;
    cbn [scan List.filter].
  - by rewrite app_nil_r.
  - rewrite search_occurs. destruct (occurs p sql).
    + rewrite IH. cbn [List.map]. by rewrite <- app_assoc.
    + apply IH.
Qed.

Lemma validate_security_filter sql :
  validate_security sql false
  = List.map dangerous_warning
      (List.filter (fun p => occurs p sql) _DANGEROUS_PATTERNS)
    ++ length_warning sql.
Proof.
  unfold validate_security, length_warning. cbn [negb].
  rewrite scan_filter. cbn [app].
  destruct (100000 <? Z.of_nat (String.length sql))%Z; [done|].
  by rewrite app_nil_r.
Qed.

End SecurityFacts.

(** ** ConnectionPool: the invariant of the reachable states *)

Module PoolFacts.

Import ConnectionPool PoolSystem.

Lemma in_use_le_held max s :
  invariant max s -> size (_in_use (pool s)) <= length (held s).
Proof.
  intros I. rewrite <- (size_list_to_set (C := gset wref) (held s))
    by apply (inv_held_nodup _ _ I).
  apply subseteq_size. intros w Hw. apply elem_of_list_to_set.
  by apply (inv_in_use_held _ _ I).
Qed.

Lemma held_le_in_use max s :
  invariant max s -> _closed (pool s) = false ->
  length (held s) <= size (_in_use (pool s)).
Proof.
  intros I Hopen. rewrite <- (size_list_to_set (C := gset wref) (held s))
    by apply (inv_held_nodup _ _ I).
  apply subseteq_size. intros w Hw. apply elem_of_list_to_set in Hw.
  by apply (inv_held_in_use _ _ I).
Qed.

(** The two facts of the specification, from the invariant. *)
Lemma invariant_use max s :
  invariant max s ->
  (forall w, w ∈ _pool (pool s) -> w ∉ _in_use (pool s)) /\
  length (_pool (pool s)) + size (_in_use (pool s)) <= max.
Proof.
  intros I. split.
  - intros w Hw Hu. apply (inv_pool_free _ _ I w Hw).
    by apply (inv_in_use_held _ _ I).
  - pose proof (in_use_le_held _ _ I). pose proof (inv_bounded _ _ I). lia.
Qed.

Lemma update_inv max f w p h :
  invariant max (System p h) -> invariant max (System (update f w p) h).
Proof. intros [? ? ? ? ? ? ? ?]. by constructor. Qed.

Lemma alloc_inv max x p h :
  invariant max (System p h) -> invariant max (System (alloc x p).2 h).
Proof.
  intros [? ? ? ? ? ? ? Ha]. constructor; try done.
  cbn in *. intros w Hw. specialize (Ha w Hw). lia.
Qed.

(** A wrapper that nobody has goes to the end of the idle deque. *)
Lemma push_inv max w p h :
  invariant max (System p h) ->
  w ∉ _pool p -> w ∉ h -> w < next_ref p ->
  length (_pool p) + length h < max ->
  invariant max (System (set_pool (_pool p ++ [w]) p) h).
Proof.
  intros [Hm Hp Hh Hf Hu Hc Hb Ha] Hwp Hwh Hwn Hlt.
  constructor; cbn in *; try done.
  - apply NoDup_app. split; [done|]. split; [|apply NoDup_singleton].
    intros x Hx Hx'. apply list_elem_of_singleton in Hx'. by subst.
  - intros x Hx. apply elem_of_app in Hx as [Hx|Hx]; [by apply Hf|].
    apply list_elem_of_singleton in Hx. by subst.
  - rewrite length_app. cbn. lia.
  - intros x [Hx|Hx]; [|by apply Ha; right].
    apply elem_of_app in Hx as [Hx|Hx]; [by apply Ha; left|].
    apply list_elem_of_singleton in Hx. by subst.
Qed.

(** The first idle wrapper goes to a caller. *)
Lemma take_inv max w rest p h :
  invariant max (System p h) -> _pool p = w :: rest ->
  invariant max
    (System (set_in_use ({[w]} ∪ _in_use p) (set_pool rest p)) (w :: h)).
Proof.
  intros [Hm Hp Hh Hf Hu Hc Hb Ha] E. cbn in *. rewrite E in *.
  apply NoDup_cons in Hp as [Hw Hp].
  constructor; cbn; try done.
  - apply NoDup_cons. split; [|done]. apply Hf. by left.
  - intros x Hx Hx'. apply elem_of_cons in Hx' as [->|Hx']; [done|].
    revert Hx'. apply Hf. by right.
  - intros x Hx. apply elem_of_union in Hx as [Hx|Hx].
    + apply elem_of_singleton in Hx. subst. by left.
    + right. by apply Hu.
  - intros Hopen x Hx. apply elem_of_cons in Hx as [->|Hx].
    + apply elem_of_union_l. by apply elem_of_singleton.
    + apply elem_of_union_r. by apply Hc.
  - cbn in Hb. lia.
  - intros x [Hx|Hx].
    + apply Ha. left. by right.
    + apply elem_of_cons in Hx as [->|Hx]; apply Ha; [left; by left | by right].
Qed.

(** A new wrapper goes to a caller. *)
Lemma grow_inv max w p h :
  invariant max (System p h) ->
  w ∉ _pool p -> w ∉ h -> w < next_ref p ->
  length (_pool p) + length h < max ->
  invariant max (System (set_in_use ({[w]} ∪ _in_use p) p) (w :: h)).
Proof.
  intros [Hm Hp Hh Hf Hu Hc Hb Ha] Hwp Hwh Hwn Hlt.
  constructor; cbn in *; try done.
  - apply NoDup_cons. by split.
  - intros x Hx Hx'. apply elem_of_cons in Hx' as [->|Hx']; [done|].
    revert Hx'. by apply Hf.
  - intros x Hx. apply elem_of_union in Hx as [Hx|Hx].
    + apply elem_of_singleton in Hx. subst. by left.
    + right. by apply Hu.
  - intros Hopen x Hx. apply elem_of_cons in Hx as [->|Hx].
    + apply elem_of_union_l. by apply elem_of_singleton.
    + apply elem_of_union_r. by apply Hc.
  - lia.
  - intros x [Hx|Hx]; [by apply Ha; left|].
    apply elem_of_cons in Hx as [->|Hx]; [done|]. by apply Ha; right.
Qed.

Lemma remove_held_length w h :
  NoDup h -> w ∈ h -> S (length (remove_held w h)) = length h.
Proof.
  unfold remove_held. induction 1 as [|x h Hx Hh IH]; intros Hw.
  - by apply elem_of_nil in Hw.
  - apply elem_of_cons in Hw as [->|Hw].
    + rewrite filter_cons_False by (intros H; by apply H).
      cbn. f_equal.
      assert (E : filter (fun y => y ≠ x) h = h); [|by rewrite E].
      clear IH Hh. induction h as [|y h IH]; [done|].
      apply not_elem_of_cons in Hx as [Hxy Hx].
      rewrite filter_cons_True by done. f_equal. by apply IH.
    + rewrite filter_cons_True by (intros ->; done).
      cbn. f_equal. by apply IH.
Qed.

(** The caller that holds [w] gives it up. *)
Lemma drop_inv max w p h :
  invariant max (System p h) ->
  invariant max
    (System (set_in_use (_in_use p ∖ {[w]}) p) (remove_held w h)).
Proof.
  intros [Hm Hp Hh Hf Hu Hc Hb Ha]. unfold remove_held.
  constructor; cbn in *; try done.
  - by apply NoDup_filter.
  - intros x Hx Hx'. apply list_elem_of_filter in Hx' as [_ Hx'].
    revert Hx'. by apply Hf.
  - intros x Hx. apply elem_of_difference in Hx as [Hx Hne].
    apply list_elem_of_filter. split; [|by apply Hu].
    intros ->. apply Hne. by apply elem_of_singleton.
  - intros Hopen x Hx. apply list_elem_of_filter in Hx as [Hne Hx].
    apply elem_of_difference. split; [by apply Hc|].
    intros Hs. by apply elem_of_singleton in Hs.
  - pose proof (length_filter (fun y => y ≠ w) h). lia.
  - intros x [Hx|Hx]; [by apply Ha; left|].
    apply list_elem_of_filter in Hx as [_ Hx]. by apply Ha; right.
Qed.

(** Wrappers leave the idle deque. *)
Lemma shrink_inv max l p h :
  invariant max (System p h) -> sublist l (_pool p) ->
  invariant max (System (set_pool l p) h).
Proof.
  intros [Hm Hp Hh Hf Hu Hc Hb Ha] Hl.
  constructor; cbn in *; try done.
  - by apply (sublist_NoDup _ _ Hp).
  - intros x Hx. apply Hf. by apply (elem_of_sublist _ _ _ Hx).
  - pose proof (sublist_length _ _ Hl). lia.
  - intros x [Hx|Hx]; apply Ha; [left|by right].
    by apply (elem_of_sublist _ _ _ Hx).
Qed.

Lemma alloc_fresh max p h :
  invariant max (System p h) -> (next_ref p ∉ _pool p) /\ (next_ref p ∉ h).
Proof.
  intros I. split; intros Hw.
  - pose proof (inv_allocated _ _ I (next_ref p) (or_introl Hw)). cbn in *. lia.
  - pose proof (inv_allocated _ _ I (next_ref p) (or_intror Hw)). cbn in *. lia.
Qed.

Lemma fresh_inv min max idle age :
  invariant max (System (__init__ min max idle age) []).
Proof.
  constructor; cbn; try done.
  - apply NoDup_nil_2.
  - apply NoDup_nil_2.
  - intros w Hw. by apply elem_of_nil in Hw.
  - intros _ w Hw. by apply elem_of_nil in Hw.
  - lia.
  - intros w [Hw|Hw]; by apply elem_of_nil in Hw.
Qed.

Lemma initialize_loop_inv max n : forall k fail now p h,
  invariant max (System p h) ->
  length (_pool p) + n + length h <= max ->
  invariant max (System (initialize_loop n k fail now p).2 h).
Proof.
  induction n as [|n IH]; intros k fail now p h I Hn; [done|].
  cbn [initialize_loop].
  set (connect := match fail with
                  | Some (i, e) => if Nat.eqb i k then Raise e else Ok tt
                  | None => Ok tt
                  end).
  destruct connect; cbn [_create_connection]; [|done].
  destruct (alloc_fresh _ _ _ I) as [Hp Hh].
  apply IH.
  - apply push_inv; [by apply alloc_inv|done|done|cbn; lia|cbn; lia].
  - cbn. rewrite length_app. cbn. lia.
Qed.

Lemma start_inv min max idle age init :
  min <= max -> invariant max (start min max idle age init).
Proof.
  intros Hle. unfold start. destruct init as [[fail now]|].
  - apply initialize_loop_inv; [apply fresh_inv|cbn; lia].
  - apply fresh_inv.
Qed.

Lemma deque_remove_sublist w l r : deque_remove w l = Some r -> sublist r l.
Proof.
  revert r. induction l as [|x l IH]; intros r; cbn [deque_remove]; [done|].
  destruct (Nat.eqb x w).
  - intros [= <-]. by apply sublist_cons.
  - destruct (deque_remove w l) as [r'|]; [|done].
    intros [= <-]. apply sublist_skip. by apply IH.
Qed.

Lemma cleanup_loop_inv max to_remove : forall k fail p h,
  invariant max (System p h) ->
  invariant max (System (cleanup_loop to_remove k fail p).2 h).
Proof.
  induction to_remove as [|w to_remove IH]; intros k fail p h I; [done|].
  cbn [cleanup_loop].
  destruct (deque_remove w (_pool p)) as [l|] eqn:E; [|done].
  pose proof (shrink_inv _ _ _ _ I (deque_remove_sublist _ _ _ E)) as I'.
  destruct fail as [[i e]|]; [destruct (Nat.eqb i k); [done|]|]; by apply IH.
Qed.

Lemma acquire_inv max deadline now connect p h :
  invariant max (System p h) ->
  match _acquire_wrapper_step deadline now connect p with
  | (Acquired w, p') => invariant max (System p' (w :: h))
  | (_, p') => invariant max (System p' h)
  end.
Proof.
  intros I. unfold _acquire_wrapper_step.
  destruct (_closed p) eqn:Hopen; [done|].
  destruct (_pool p) as [|w rest] eqn:E.
  - destruct (Nat.ltb (size (_in_use p)) (_max_connections p)) eqn:Hroom.
    + destruct connect; cbn [_create_connection]; [|done].
      apply Nat.ltb_lt in Hroom.
      pose proof (held_le_in_use _ _ I Hopen) as Hle.
      pose proof (inv_max _ _ I) as Hmax. cbn in Hmax, Hle.
      rewrite Hmax in Hroom.
      destruct (alloc_fresh _ _ _ I) as [Hp Hh].
      apply (grow_inv max (next_ref p) _ h).
      * apply update_inv. by apply alloc_inv.
      * done.
      * done.
      * cbn. lia.
      * cbn. rewrite E. cbn. lia.
    + destruct (truthy deadline); [|done].
      by destruct (default 0 deadline - now <=? 0)%Z.
  - apply (update_inv max (ConnectionWrapper.mark_in_use now) w) in I.
    exact (take_inv max w rest _ h I E).
Qed.

Lemma release_inv max w now close connect p h :
  invariant max (System p h) -> w ∈ h ->
  invariant max
    (System (_release_wrapper w now close connect p).2 (remove_held w h)).
Proof.
  intros I Hw. unfold _release_wrapper.
  pose proof (remove_held_length w h (inv_held_nodup _ _ I) Hw) as Hlen.
  pose proof (inv_bounded _ _ I) as Hb. cbn in Hb.
  assert (Hnot : w ∉ remove_held w h).
  { unfold remove_held. intros Hx.
    by apply list_elem_of_filter in Hx as [Hne _]. }
  pose proof (inv_pool_free _ _ I) as Hfree.
  pose proof (inv_allocated _ _ I) as Halloc.
  apply (update_inv max (ConnectionWrapper.mark_available now) w) in I.
  apply (drop_inv max w) in I.
  set (p1 := set_in_use _ _) in *.
  destruct (age now w p1 <? _max_connection_age p1)%Z.
  - apply push_inv;
      [done|intros Hp; by apply (Hfree w Hp)|done|by apply Halloc; right
      |cbn; lia].
  - destruct close; [|done].
    destruct (Nat.ltb _ _); [|done].
    destruct connect; cbn [_create_connection]; [|done].
    destruct (alloc_fresh _ _ _ I) as [Hp Hh].
    apply push_inv; [by apply alloc_inv|done|done|cbn; lia|cbn; lia].
Qed.

Lemma close_locked_inv max fail p h :
  invariant max (System p h) -> _closed p = true ->
  invariant max (System (close_locked fail p).2 h).
Proof.
  intros I Hclosed.
  assert (invariant max (System (set_in_use ∅ (set_pool [] p)) h)) as I'.
  { destruct I as [Hm Hp Hh Hf Hu Hc Hb Ha].
    constructor; cbn in *; try done.
    - apply NoDup_nil_2.
    - intros w Hw. by apply elem_of_nil in Hw.
    - by rewrite Hclosed.
    - lia.
    - intros w [Hw|Hw]; [by apply elem_of_nil in Hw|by apply Ha; right]. }
  unfold close_locked. destruct fail; [|done].
  by destruct (Nat.eqb _ _).
Qed.

Lemma step_inv max ev s s' :
  invariant max s -> step ev s = Some s' -> invariant max s'.
Proof.
  destruct s as [p h]. intros I. destruct ev; cbn [step pool held apply].
  - pose proof (acquire_inv max deadline now connect p h I) as H.
    destruct (_acquire_wrapper_step deadline now connect p) as [[w|e|timed] p'];
      by intros [= <-].
  - case_bool_decide as Hw; [|done]. intros [= <-].
    by apply release_inv.
  - intros [= <-]. unfold _cleanup_idle_connections. by apply cleanup_loop_inv.
  - intros [= <-]. destruct I. by constructor.
  - destruct (_closed p) eqn:Hclosed; [|done]. intros [= <-].
    by apply close_locked_inv.
Qed.

Lemma steps_inv max evs : forall s s',
  invariant max s -> steps evs s = Some s' -> invariant max s'.
Proof.
  induction evs as [|ev evs IH]; intros s s' I; cbn [steps].
  - by intros [= <-].
  - destruct (step ev s) as [s1|] eqn:E; [|done].
    apply IH. by apply (step_inv max ev s).
Qed.

End PoolFacts.

(** ** QueryExecutor: results, not exceptions *)

Module ExecutorFacts.

Import QueryAnalyzer QueryExecutor ExecutorSpec.

Lemma bind_ok {A B} (m : Eff A) (k : A -> Eff B) b log :
  bind m k = (Ok b, log) ->
  exists a l1 l2, m = (Ok a, l1) /\ k a = (Ok b, l2) /\ log = l1 ++ l2.
Proof.
  destruct m as [[a|e] l1]; cbn [bind]; [|done].
  destruct (k a) as [r l2] eqn:E. intros [= -> <-]. by exists a, l1, l2.
Qed.

Lemma with_connection_ok request sc query_type warnings conn r log :
  with_connection request sc query_type warnings conn = (Ok r, log) ->
  QueryResult.status r = SUCCESS /\ QueryResult.error r = None.
Proof.
  unfold with_connection. destruct (is_set (cancel_at sc) 0); [done|].
  intros H. apply bind_ok in H as (_ & l1 & l2 & _ & H & _).
  apply bind_ok in H as (cursor & l3 & l4 & _ & H & _).
  destruct (bool_decide (query_type = SELECT)).
  - apply bind_ok in H as ([rows row_count] & l5 & l6 & _ & H & _).
    by injection H as <- _.
  - apply bind_ok in H as (_ & l5 & l6 & _ & H & _).
    by injection H as <- _.
Qed.

Lemma handler_ok request sc e :
  exists r, handler request sc e = Ok r /\ well_formed r.
Proof.
  destruct e; eexists; (split; [reflexivity|]);
    unfold well_formed, failure; cbn; eauto.
Qed.

Lemma handler_exhausted request sc msg :
  handler request sc (ConnectionPoolExhausted msg)
  = Ok (failure request sc ERROR msg).
Proof. reflexivity. Qed.

(** The shape of a run, by the way the [try] block ends. *)
Lemma execute_rejected self p request sc :
  rejected request = true ->
  execute self p request sc
  = {| outcome :=
         Some (Ok (QueryResult.mk (QueryRequest.query_id request) ERROR [] []
                     0 0 None (perf_result sc - perf_start sc)
                     (determine_type (QueryRequest.sql request))
                     (Some "Write operations not allowed in read-only mode")
                     (validate_security (QueryRequest.sql request) false)
                     (QueryRequest.metadata request)));
       executor := unregister (QueryRequest.query_id request)
                     (register (QueryRequest.query_id request) self);
       pool := p;
       effects := [] |}.
Proof.
  unfold rejected. intros H. unfold execute, try_block. by rewrite H.
Qed.

Lemma execute_not_acquired self p request sc e p1 :
  rejected request = false ->
  _acquire_wrapper (QueryRequest.timeout request) sc p = (Threw e, p1) ->
  execute self p request sc
  = {| outcome := Some (handler request sc e);
       executor := unregister (QueryRequest.query_id request)
                     (register (QueryRequest.query_id request) self);
       pool := p1;
       effects := [] |}.
Proof.
  unfold rejected. intros H E. unfold execute, try_block. by rewrite H, E.
Qed.

Lemma execute_blocked self p request sc p1 :
  rejected request = false ->
  _acquire_wrapper (QueryRequest.timeout request) sc p = (Blocked, p1) ->
  execute self p request sc
  = {| outcome := None;
       executor := register (QueryRequest.query_id request) self;
       pool := p1;
       effects := [] |}.
Proof.
  unfold rejected. intros H E. unfold execute, try_block. by rewrite H, E.
Qed.

Lemma execute_acquired self p request sc w p1 :
  rejected request = false ->
  _acquire_wrapper (QueryRequest.timeout request) sc p = (Got w, p1) ->
  let query_type := determine_type (QueryRequest.sql request) in
  let body :=
    with_connection request sc query_type
      (validate_security (QueryRequest.sql request) false) w in
  let released :=
    ConnectionPool._release_wrapper w (mono_release sc) (release_close sc)
      (release_connect sc) (PoolSystem.run (during sc) p1) in
  outcome (execute self p request sc)
  = Some match released.1, body.1 with
         | Ok _, Ok r => Ok r
         | Ok _, Raise e => handler request sc e
         | Raise e, _ => handler request sc e
         end
  /\ effects (execute self p request sc)
     = [PoolAcquire w] ++ body.2 ++ [PoolRelease w]
  /\ pool (execute self p request sc) = released.2.
Proof.
  unfold rejected. intros H E. unfold execute, try_block. rewrite H, E.
  cbv zeta.
  destruct (with_connection _ _ _ _ _) as [r log].
  destruct (ConnectionPool._release_wrapper _ _ _ _ _) as [[[]|e] p2];
    by destruct r.
Qed.

(** [execute] hands its caller a well-formed result whenever the call
    ends, and it ends unless it waits without a timer for a connection
    that nobody gives back. *)
Lemma execute_total self p request sc :
  match outcome (execute self p request sc) with
  | Some (Ok r) => well_formed r
  | Some (Raise e) => False
  | None =>
      rejected request = false /\
      (_acquire_wrapper (QueryRequest.timeout request) sc p).1 = Blocked
  end.
Proof.
  destruct (rejected request) eqn:Hrej.
  - rewrite execute_rejected by done. unfold well_formed. cbn. eauto.
  - destruct (_acquire_wrapper (QueryRequest.timeout request) sc p)
      as [[w|e|] p1] eqn:E.
    + destruct (execute_acquired self p request sc w p1 Hrej E) as (-> & _).
      destruct (ConnectionPool._release_wrapper _ _ _ _ _) as [[[]|e] p2].
      * destruct (with_connection _ _ _ _ _) as [[r|e] log] eqn:Eb; cbn [fst].
        -- apply with_connection_ok in Eb as [Hs He].
           unfold well_formed. by rewrite Hs.
        -- by destruct (handler_ok request sc e) as (r & -> & ?).
      * cbn [fst]. by destruct (handler_ok request sc e) as (r & -> & ?).
    + rewrite (execute_not_acquired self p request sc e p1) by done.
      cbn [outcome]. by destruct (handler_ok request sc e) as (r & -> & ?).
    + by rewrite (execute_blocked self p request sc p1).
Qed.

(** A closed pool turns every acquisition away at once. *)
Lemma acquire_closed timeout sc p :
  ConnectionPool._closed p = true ->
  _acquire_wrapper timeout sc p
  = (Threw (ConnectionPoolExhausted "Pool is closed"), p).
Proof.
  intros H. unfold _acquire_wrapper.
  destruct (wakes sc); cbn [_acquire_wrapper_loop];
    unfold ConnectionPool._acquire_wrapper_step; by rewrite H.
Qed.

Lemma wait_timed deadline now connect p timed p' :
  ConnectionPool._acquire_wrapper_step deadline now connect p
    = (ConnectionPool.Wait timed, p') ->
  timed = truthy deadline.
Proof.
  unfold ConnectionPool._acquire_wrapper_step.
  destruct (ConnectionPool._closed p); [done|].
  destruct (ConnectionPool._pool p); [|done].
  destruct (Nat.ltb _ _).
  - destruct connect; cbn [ConnectionPool._create_connection]; done.
  - destruct (truthy deadline); [|by intros [= <- _]].
    destruct (_ <=? 0)%Z; [done|by intros [= <- _]].
Qed.

(** With a deadline the wait for a connection comes to an end. *)
Lemma acquire_loop_ends deadline connect wakes : forall now p,
  truthy deadline = true ->
  (_acquire_wrapper_loop deadline now connect wakes p).1 <> Blocked.
Proof.
  induction wakes as [|wk wakes IH]; intros now p Hd;
    cbn [_acquire_wrapper_loop];
    destruct (ConnectionPool._acquire_wrapper_step deadline now connect p)
      as [[w|e|timed] p'] eqn:E; try done;
    apply wait_timed in E; rewrite Hd in E; subst timed; [done|].
  cbn [andb]. destruct (timer_fired wk); [done|]. by apply IH.
Qed.

Lemma execute_ends self p request sc :
  truthy (QueryRequest.timeout request) = true ->
  truthy (Some (mono_deadline sc + default 0 (QueryRequest.timeout request)))%Z
    = true ->
  is_Some (outcome (execute self p request sc)).
Proof.
  intros Ht Hd. pose proof (execute_total self p request sc) as H.
  destruct (outcome (execute self p request sc)); [eauto|].
  destruct H as [_ H]. exfalso. revert H.
  unfold _acquire_wrapper. rewrite Ht. by apply acquire_loop_ends.
Qed.

(** On an exhausted pool the timer of the first wait ends the acquisition. *)
Lemma acquire_timer p timeout sc :
  exhausted p -> timer_ends_wait timeout sc ->
  (_acquire_wrapper timeout sc p).1
  = Threw TimeoutError.
Proof.
  intros (Hopen & Hidle & Hfull) (Ht & Hd & Hlt & Hw).
  unfold _acquire_wrapper. rewrite Ht.
  assert (Hstep :
    ConnectionPool._acquire_wrapper_step
      (Some (mono_deadline sc + default 0 timeout)%Z) (mono_acquire sc)
      (acquire_connect sc) p = (ConnectionPool.Wait true, p)).
  { unfold ConnectionPool._acquire_wrapper_step. rewrite Hopen, Hidle, Hd.
    replace (Nat.ltb _ _) with false by (symmetry; apply Nat.ltb_ge; lia).
    cbn [default from_option id].
    replace (_ <=? 0)%Z with false by (symmetry; apply Z.leb_gt; lia).
    reflexivity. }
  destruct (wakes sc) as [|wk wks]; cbn [_acquire_wrapper_loop];
    rewrite Hstep; [done|]. by rewrite Hw.
Qed.

(** A caller that finds the flag set right after the acquisition gives
    the connection back untouched. *)
Lemma with_connection_cancelled request sc query_type warnings conn :
  is_set (cancel_at sc) 0 = true ->
  with_connection request sc query_type warnings conn
  = (Raise QueryCancelledException, []).
Proof. intros H. unfold with_connection. by rewrite H. Qed.

End ExecutorFacts.

(** ** QueryExecutor: the fetch loop *)

Module FetchFacts.

Import QueryExecutor.

Lemma limit_reached_mono row_limit rc rc' :
  limit_reached row_limit rc = true -> (rc <= rc')%Z ->
  limit_reached row_limit rc' = true.
Proof.
  unfold limit_reached. intros H Hle.
  apply andb_true_iff in H as [-> H]. cbn [andb].
  apply Z.leb_le in H. apply Z.leb_le. lia.
Qed.

Lemma limit_not_reached row_limit rc rc' :
  limit_reached row_limit rc' = false -> (rc <= rc')%Z ->
  limit_reached row_limit rc = false.
Proof.
  intros H Hle. destruct (limit_reached row_limit rc) eqn:E; [|done].
  by rewrite (limit_reached_mono _ _ _ E Hle) in H.
Qed.

Lemma limit_reached_some n rc :
  (0 < n)%Z -> limit_reached (Some n) rc = (n <=? rc)%Z.
Proof.
  intros Hn. unfold limit_reached. cbn.
  replace (n =? 0)%Z with false by (symmetry; apply Z.eqb_neq; lia).
  reflexivity.
Qed.

(** Below the limit the whole batch is kept. *)
Lemma collect_all row_limit batch : forall rows rc,
  limit_reached row_limit (rc + Z.of_nat (length batch)) = false ->
  collect row_limit batch rows rc
  = (rows ++ batch, (rc + Z.of_nat (length batch))%Z).
Proof.
  induction batch as [|r batch IH]; intros rows rc H; cbn [collect].
  - rewrite app_nil_r. cbn. by rewrite Z.add_0_r.
  - rewrite (limit_not_reached _ rc _ H) by (cbn [length]; lia).
    rewrite IH.
    + rewrite <- app_assoc. cbn [app length]. f_equal. lia.
    + rewrite <- H. f_equal. cbn [length]. lia.
Qed.

(** With a limit [n] the batch is kept up to the [n]-th row. *)
Lemma collect_limited n batch : forall rows rc,
  (0 < n)%Z -> (rc <= n)%Z ->
  collect (Some n) batch rows rc
  = (rows ++ take (Z.to_nat (n - rc)) batch,
     (rc + Z.min (n - rc) (Z.of_nat (length batch)))%Z).
Proof.
  induction batch as [|r batch IH]; intros rows rc Hn Hrc; cbn [collect].
  - rewrite take_nil, app_nil_r. cbn [length]. f_equal. lia.
  - rewrite limit_reached_some by done. destruct (n <=? rc)%Z eqn:E.
    + apply Z.leb_le in E. replace (n - rc)%Z with 0%Z by lia.
      cbn. rewrite app_nil_r. f_equal. lia.
    + apply Z.leb_gt in E. rewrite IH by lia.
      replace (Z.to_nat (n - rc)) with (S (Z.to_nat (n - (rc + 1)))) by lia.
      cbn [take length]. rewrite <- app_assoc. cbn [app]. f_equal. lia.
Qed.

Section Loop.

Variable request : QueryRequest.t.
Variable conn : wref.

(** No cancellation, every batch arrives and none is empty, and the row
    limit is a positive [n]: the loop gathers the first [n] rows of the
    result set. *)
Lemma fetch_loop_limited n batches : forall k rows rc,
  QueryRequest.row_limit request = Some n -> (0 < n)%Z -> (rc < n)%Z ->
  Forall (fun batch => batch ≠ []) batches ->
  (fetch_loop request None conn k (List.map Ok batches) rows rc).1
  = Ok (rows ++ take (Z.to_nat (n - rc)) (concat batches),
        (rc + Z.min (n - rc) (Z.of_nat (length (concat batches))))%Z).
Proof.
  induction batches as [|batch batches IH]; intros k rows rc Hl Hn Hrc Hne.
  - cbn. rewrite take_nil, app_nil_r. do 2 f_equal. lia.
  - apply Forall_cons in Hne as [Hb Hne].
    destruct batch as [|r batch]; [done|].
    cbn [List.map fetch_loop is_set call bind ret app].
    set (b := r :: batch) in *.
    rewrite Hl, collect_limited by lia.
    cbn [concat]. rewrite length_app.
    destruct (limit_reached (Some n) _) eqn:E.
    + cbn [ret fst]. rewrite limit_reached_some in E by done.
      apply Z.leb_le in E.
      rewrite take_app_le by lia. do 2 f_equal. lia.
    + rewrite limit_reached_some in E by done. apply Z.leb_gt in E.
      specialize (IH (S k) (rows ++ take (Z.to_nat (n - rc)) b)
                    (rc + Z.min (n - rc) (Z.of_nat (length b)))%Z Hl Hn).
      destruct (fetch_loop _ _ _ _ _ _ _) as [res log]. cbn [fst] in *.
      rewrite IH by (done || lia).
      rewrite take_ge by lia.
      rewrite take_app_ge by lia.
      rewrite <- app_assoc.
      replace (Z.to_nat (n - (rc + Z.min (n - rc) (Z.of_nat (length b)))))
        with (Z.to_nat (n - rc) - length b) by lia.
      do 2 f_equal. lia.
Qed.

(** The same without a limit ([None], or zero): the whole result set. *)
Lemma fetch_loop_unlimited batches : forall k rows rc,
  truthy (QueryRequest.row_limit request) = false ->
  Forall (fun batch => batch ≠ []) batches ->
  (fetch_loop request None conn k (List.map Ok batches) rows rc).1
  = Ok (rows ++ concat batches,
        (rc + Z.of_nat (length (concat batches)))%Z).
Proof.
  induction batches as [|batch batches IH]; intros k rows rc Hl Hne.
  - cbn. rewrite app_nil_r. do 2 f_equal. lia.
  - apply Forall_cons in Hne as [Hb Hne].
    destruct batch as [|r batch]; [done|].
    cbn [List.map fetch_loop is_set call bind ret app].
    set (b := r :: batch) in *.
    assert (Hnever : forall rc,
      limit_reached (QueryRequest.row_limit request) rc = false).
    { intros ?. unfold limit_reached. by rewrite Hl. }
    rewrite collect_all, Hnever by apply Hnever.
    specialize (IH (S k) (rows ++ b) (rc + Z.of_nat (length b))%Z Hl Hne).
    destruct (fetch_loop _ _ _ _ _ _ _) as [res log]. cbn [fst] in *.
    rewrite IH. cbn [concat]. rewrite length_app, <- app_assoc.
    do 2 f_equal. lia.
Qed.

(** The flag is looked at when a pass of the loop opens: set while the
    batches before are fetched, it ends the loop there, whatever the
    cursor still holds. *)
Lemma fetch_loop_cancelled batches later : forall k rows rc,
  Forall (fun batch => batch ≠ []) batches ->
  limit_reached (QueryRequest.row_limit request)
    (rc + Z.of_nat (length (concat batches))) = false ->
  (fetch_loop request (Some (k + length batches)) conn k
     (List.map Ok batches ++ later) rows rc).1
  = Raise QueryCancelledException.
Proof.
  induction batches as [|batch batches IH]; intros k rows rc Hne Hl.
  - cbn [length List.map app]. rewrite Nat.add_0_r.
    destruct later as [|[[|]|] ?]; cbn [fetch_loop is_set];
      by rewrite Nat.leb_refl.
  - apply Forall_cons in Hne as [Hb Hne].
    destruct batch as [|r batch]; [done|].
    cbn [List.map app fetch_loop is_set length].
    replace (Nat.leb (k + S (length batches)) k) with false
      by (symmetry; apply Nat.leb_gt; lia).
    cbn [call bind ret app].
    set (b := r :: batch) in *.
    cbn [concat] in Hl. rewrite length_app in Hl.
    rewrite collect_all by (apply (limit_not_reached _ _ _ Hl); lia).
    rewrite (limit_not_reached _ _ _ Hl) by lia.
    specialize (IH (S k) (rows ++ b) (rc + Z.of_nat (length b))%Z Hne).
    replace (k + S (length batches)) with (S k + length batches) by lia.
    destruct (fetch_loop _ _ _ _ _ _ _) as [res log]. cbn [fst] in *.
    apply IH. rewrite <- Hl. f_equal. lia.
Qed.

End Loop.

End FetchFacts.

(** ** QueryExecutor: what happens on the connection *)

Module ConnectionFacts.

Import QueryAnalyzer QueryExecutor.

Lemma bind_call {A B} (ef : effect) (out : result A) (k : A -> Eff B) :
  bind (call ef out) k
  = match out with
    | Ok a => ((k a).1, ef :: (k a).2)
    | Raise e => (Raise e, [ef])
    end.
Proof. destruct out as [a|e]; cbn; [by destruct (k a)|done]. Qed.

Lemma bind_fst {A B} (m : Eff A) (k : A -> Eff B) :
  (bind m k).1
  = match m.1 with
    | Ok a => (k a).1
    | Raise e => Raise e
    end.
Proof. destruct m as [[a|e] l]; cbn; [by destruct (k a)|done]. Qed.

(** A SELECT on a connection that answers: the result is made of what the
    fetch loop gathers. *)
Lemma with_connection_select request sc warnings conn cursor :
  is_set (cancel_at sc) 0 = false ->
  begin_outcome sc = Ok tt ->
  execute_outcome sc = Ok cursor ->
  (with_connection request sc SELECT warnings conn).1
  = match
      (fetch_loop request (cancel_at sc) conn 1 (fetches cursor) [] 0).1
    with
    | Ok (rows, row_count) =>
        Ok (QueryResult.mk (QueryRequest.query_id request) SUCCESS rows
              (default [] (description cursor)) row_count 0 None
              (perf_result sc - perf_start sc) SELECT None warnings
              (QueryRequest.metadata request))
    | Raise e => Raise e
    end.
Proof.
  intros Hc Hb He. unfold with_connection. rewrite Hc, Hb, He.
  rewrite bool_decide_eq_true_2 by done.
  destruct (IsolationLevel_value _); cbn [call ret bind];
    by destruct (fetch_loop _ _ _ _ _ _ _) as [[[rows rc]|e] log].
Qed.

(** With an isolation mode, the first call on the connection is the BEGIN
    of that mode; the statement follows when the BEGIN went through, and
    nothing follows when it did not. *)
Lemma with_connection_begin request sc query_type warnings conn v :
  is_set (cancel_at sc) 0 = false ->
  IsolationLevel_value (QueryRequest.isolation_level request) = Some v ->
  exists rest,
    (with_connection request sc query_type warnings conn).2
    = ConnExecute conn ("BEGIN " +:+ v) [] :: rest
    /\ match begin_outcome sc with
       | Ok _ =>
           exists rest',
             rest = ConnExecute conn (QueryRequest.sql request)
                      (QueryRequest.params request) :: rest'
       | Raise _ => rest = []
       end.
Proof.
  intros Hc Hv. unfold with_connection. rewrite Hc, Hv, bind_call.
  destruct (begin_outcome sc) as [[]|e]; cbn [snd]; [|by eexists].
  rewrite bind_call. eexists. split; [reflexivity|].
  destruct (execute_outcome sc); cbn [snd]; by eexists.
Qed.

End ConnectionFacts.

(** ** TransactionManager *)

Module TransactionFacts.

Import TransactionManager.

Lemma commit_rollback transaction_id self :
  commit transaction_id self = rollback transaction_id self.
Proof. reflexivity. Qed.

Lemma commit_missing transaction_id self :
  _active_transactions self !! transaction_id = None ->
  commit transaction_id self
  = ((Raise (ValueError ("Transaction " +:+ transaction_id +:+ " not found")),
      []), self).
Proof. intros H. unfold commit. by rewrite H. Qed.

Lemma commit_present transaction_id self log :
  _active_transactions self !! transaction_id = Some log ->
  commit transaction_id self
  = ((Ok tt, []), mk (delete transaction_id (_active_transactions self))).
Proof. intros H. unfold commit. by rewrite H. Qed.

End TransactionFacts.

(** ** QueryExecutor: the active queries *)

Module RegistryFacts.

Import QueryExecutor.

Lemma cancel_true query_id self :
  (cancel query_id self).1 = true
  <-> is_Some (_active_queries self !! query_id).
Proof.
  unfold cancel. destruct (_active_queries self !! query_id); cbn [fst].
  - split; eauto.
  - split; [done|by intros [? ?]].
Qed.

Lemma register_active query_id self :
  is_Some (_active_queries (register query_id self) !! query_id).
Proof. cbn. rewrite lookup_insert_eq. eauto. Qed.

(** A call that still waits for a connection has its id entered. *)
Lemma waiting_active self p request sc :
  outcome (execute self p request sc) = None ->
  is_Some (_active_queries (executor (execute self p request sc))
             !! QueryRequest.query_id request).
Proof.
  unfold execute.
  destruct (outcome (try_block _ p request sc)) as [r|] eqn:E; [done|].
  intros _. revert E. unfold try_block.
  destruct (_ && _); [done|].
  destruct (_acquire_wrapper _ sc p) as [[?|?|] ?];
    [|done|intros _; apply register_active].
  destruct (with_connection _ _ _ _ _).
  by destruct (ConnectionPool._release_wrapper _ _ _ _ _).
Qed.

(** A call that has returned has taken its id out. *)
Lemma returned_inactive self p request sc :
  is_Some (outcome (execute self p request sc)) ->
  _active_queries (executor (execute self p request sc))
    !! QueryRequest.query_id request = None.
Proof.
  unfold execute.
  destruct (outcome (try_block _ p request sc)) as [r|] eqn:E.
  - intros _. cbn. apply lookup_delete_eq.
  - rewrite E. by intros [? ?].
Qed.

(** What is done for other ids leaves an inactive id inactive. *)
Lemma others_keep_out own ex other :
  _active_queries ex !! own = None -> other <> own ->
  _active_queries (register other ex) !! own = None
  /\ _active_queries (unregister other ex) !! own = None
  /\ _active_queries (cancel other ex).2 !! own = None.
Proof.
  intros Hnone Hne. repeat split; cbn.
  - by rewrite lookup_insert_ne.
  - by rewrite lookup_delete_ne.
  - unfold cancel. destruct (_active_queries ex !! other); cbn; [|done].
    by rewrite lookup_insert_ne.
Qed.

End RegistryFacts.

(** * The claims of the specification *)

(** C1. On a pool with [min_connections <= max_connections], started
    fresh or by [initialize()], after any sequence of acquisitions,
    releases (each by a caller that holds the wrapper, the replacement of
    an aged wrapper included), maintenance sweeps and the steps of
    [close()], the idle deque has no repetition and shares no wrapper with
    the in-use set, and idle plus in-use wrappers number at most
    [max_connections]. *)
Theorem pool_idle_in_use_disjoint_bounded
  (min_connections max_connections : nat) (max_idle_time max_connection_age : Z)
  (init : option (option (nat * exn) * Z))
  (evs : list PoolSystem.event) (s : PoolSystem.system) :
  min_connections <= max_connections ->
  PoolSystem.steps evs
    (PoolSystem.start min_connections max_connections max_idle_time
       max_connection_age init) = Some s ->
  let p := PoolSystem.pool s in
  NoDup (ConnectionPool._pool p)
  /\ (forall w, w ∈ ConnectionPool._pool p -> w ∉ ConnectionPool._in_use p)
  /\ length (ConnectionPool._pool p) + size (ConnectionPool._in_use p)
     <= max_connections.
Proof.
  intros Hle Hrun p.
  pose proof (PoolFacts.steps_inv max_connections evs _ s
                (PoolFacts.start_inv _ _ _ _ init Hle) Hrun) as I.
  split; [apply (PoolSystem.inv_pool_nodup _ _ I)|].
  apply (PoolFacts.invariant_use _ _ I).
Qed.

Lemma pool_idle_in_use_disjoint_bounded_witness :
  exists s,
    PoolSystem.steps Scenario.trace
      (PoolSystem.start 1 2 300 3600 (Some (None, 0%Z))) = Some s
    /\ NoDup (ConnectionPool._pool (PoolSystem.pool s))
    /\ (forall w, w ∈ ConnectionPool._pool (PoolSystem.pool s) ->
                  w ∉ ConnectionPool._in_use (PoolSystem.pool s))
    /\ length (ConnectionPool._pool (PoolSystem.pool s))
       + size (ConnectionPool._in_use (PoolSystem.pool s)) <= 2.
Proof.
  eexists. split; [vm_compute; reflexivity|].
  apply (pool_idle_in_use_disjoint_bounded 1 2 300 3600 (Some (None, 0%Z))
           Scenario.trace); [lia | vm_compute; reflexivity].
Defined.

(** C2 as stated fails: on a closed pool the acquisition fails and the
    result has status ERROR, not TIMEOUT. *)
Lemma closed_pool_gives_error_not_timeout :
  ConnectionPool._closed Scenario.closed_pool = true
  /\ exists r,
       QueryExecutor.outcome
         (QueryExecutor.execute QueryExecutor.__init__ Scenario.closed_pool
            (Scenario.request "SELECT 1" false None)
            (Scenario.script None Scenario.no_rows)) = Some (Ok r)
       /\ QueryResult.status r = ERROR
       /\ QueryResult.error r = Some "Pool is closed"
       /\ QueryResult.status r <> TIMEOUT.
Proof.
  split; [reflexivity|].
  eexists. repeat split; vm_compute; (reflexivity || discriminate).
Qed.

(** C2 (amended). [execute] never raises: a call that ends returns a
    result whose status is SUCCESS with no error, or ERROR, CANCELLED or
    TIMEOUT with an error message, and a call only fails to end while it
    waits, without a deadline, for a connection.  When the acquisition fails
    because the pool is closed the result has status ERROR and the error
    "Pool is closed"; when the pool is exhausted and the timer of the wait
    fires, the result has status TIMEOUT and the error "Query timed out". *)
Theorem execute_returns_results
  (self : QueryExecutor.t) (p : ConnectionPool.t) (request : QueryRequest.t)
  (sc : Script) :
  let run := QueryExecutor.execute self p request sc in
  match QueryExecutor.outcome run with
  | Some (Ok r) => ExecutorSpec.well_formed r
  | Some (Raise e) => False
  | None =>
      ExecutorSpec.rejected request = false
      /\ (QueryExecutor._acquire_wrapper (QueryRequest.timeout request) sc p).1
         = QueryExecutor.Blocked
  end
  /\ (ExecutorSpec.rejected request = false ->
      ConnectionPool._closed p = true ->
      QueryExecutor.outcome run
      = Some (Ok (QueryExecutor.failure request sc ERROR "Pool is closed")))
  /\ (ExecutorSpec.rejected request = false ->
      ExecutorSpec.exhausted p ->
      ExecutorSpec.timer_ends_wait (QueryRequest.timeout request) sc ->
      QueryExecutor.outcome run
      = Some (Ok (QueryExecutor.failure request sc TIMEOUT "Query timed out")))
  /\ (truthy (QueryRequest.timeout request) = true ->
      truthy (Some (mono_deadline sc
                    + default 0 (QueryRequest.timeout request)))%Z = true ->
      is_Some (QueryExecutor.outcome run)).
Proof.
  intros run. split; [apply ExecutorFacts.execute_total|].
  split; [|split; [|apply ExecutorFacts.execute_ends]].
  - intros Hrej Hclosed. subst run.
    by rewrite (ExecutorFacts.execute_not_acquired self p request sc _ p Hrej
                  (ExecutorFacts.acquire_closed _ sc p Hclosed)).
  - intros Hrej Hex Ht. subst run.
    pose proof (ExecutorFacts.acquire_timer p _ sc Hex Ht) as E.
    destruct (QueryExecutor._acquire_wrapper _ sc p) as [a p1] eqn:Ea.
    cbn [fst] in E. subst a.
    by rewrite
      (ExecutorFacts.execute_not_acquired self p request sc _ p1 Hrej Ea).
Qed.

Lemma execute_returns_results_witness :
  (exists r,
     QueryExecutor.outcome
       (QueryExecutor.execute QueryExecutor.__init__ Scenario.closed_pool
          (Scenario.request "SELECT 1" false None)
          (Scenario.script None Scenario.no_rows)) = Some (Ok r)
     /\ ExecutorSpec.well_formed r)
  /\ QueryExecutor.outcome
       (QueryExecutor.execute QueryExecutor.__init__ Scenario.closed_pool
          (Scenario.request "SELECT 1" false None)
          (Scenario.script None Scenario.no_rows))
     = Some (Ok (QueryExecutor.failure (Scenario.request "SELECT 1" false None)
                   (Scenario.script None Scenario.no_rows) ERROR
                   "Pool is closed")).
Proof.
  pose proof (execute_returns_results QueryExecutor.__init__
                Scenario.closed_pool (Scenario.request "SELECT 1" false None)
                (Scenario.script None Scenario.no_rows))
    as (H & Hclosed & _ & _).
  split.
  - eexists. split; [vm_compute; reflexivity|]. vm_compute. eauto.
  - apply Hclosed; reflexivity.
Defined.

(** C3 as stated fails on the message: the error of the rejected DELETE is
    not the string the claim gives. *)
Lemma read_only_error_message_differs :
  exists r,
    QueryExecutor.outcome
      (QueryExecutor.execute QueryExecutor.__init__ Scenario.fresh_pool
         (Scenario.request "DELETE FROM t" true None)
         (Scenario.script None Scenario.no_rows)) = Some (Ok r)
    /\ QueryResult.status r = ERROR
    /\ QueryResult.error r
       = Some "Write operations not allowed in read-only mode"
    /\ QueryResult.error r
       <> Some "write operation not allowed in read-only mode".
Proof. eexists. repeat split; vm_compute; (reflexivity || discriminate). Qed.

(** C3 (amended). A request with [read_only] set whose SQL classifies as
    none of SELECT, PRAGMA, EXPLAIN is answered at once with status ERROR,
    no rows, [affected_rows = 0] and the error
    "Write operations not allowed in read-only mode"; no call is made on
    the pool or on a connection and the pool is left as it was. *)
Theorem read_only_rejects_without_connection
  (self : QueryExecutor.t) (p : ConnectionPool.t) (request : QueryRequest.t)
  (sc : Script) :
  QueryRequest.read_only request = true ->
  QueryAnalyzer.determine_type (QueryRequest.sql request)
    ∉ [SELECT; PRAGMA; EXPLAIN] ->
  let run := QueryExecutor.execute self p request sc in
  exists r,
    QueryExecutor.outcome run = Some (Ok r)
    /\ QueryResult.status r = ERROR
    /\ QueryResult.rows r = []
    /\ QueryResult.affected_rows r = 0%Z
    /\ QueryResult.error r
       = Some "Write operations not allowed in read-only mode"
    /\ QueryExecutor.effects run = []
    /\ QueryExecutor.pool run = p.
Proof.
  intros Hro Hty run.
  assert (Hrej : ExecutorSpec.rejected request = true).
  { unfold ExecutorSpec.rejected. rewrite Hro. cbn [andb].
    destruct (QueryAnalyzer.determine_type (QueryRequest.sql request));
      try reflexivity; exfalso; apply Hty; set_solver. }
  subst run. rewrite (ExecutorFacts.execute_rejected self p request sc Hrej).
  eexists. repeat split.
Qed.

Lemma read_only_rejects_without_connection_witness :
  exists r,
    QueryExecutor.outcome
      (QueryExecutor.execute QueryExecutor.__init__ Scenario.fresh_pool
         (Scenario.request "DELETE FROM t" true None)
         (Scenario.script None Scenario.no_rows)) = Some (Ok r)
    /\ QueryResult.status r = ERROR
    /\ QueryResult.rows r = []
    /\ QueryResult.affected_rows r = 0%Z
    /\ QueryResult.error r
       = Some "Write operations not allowed in read-only mode"
    /\ QueryExecutor.effects
         (QueryExecutor.execute QueryExecutor.__init__ Scenario.fresh_pool
            (Scenario.request "DELETE FROM t" true None)
            (Scenario.script None Scenario.no_rows)) = []
    /\ QueryExecutor.pool
         (QueryExecutor.execute QueryExecutor.__init__ Scenario.fresh_pool
            (Scenario.request "DELETE FROM t" true None)
            (Scenario.script None Scenario.no_rows)) = Scenario.fresh_pool.
Proof.
  apply (read_only_rejects_without_connection QueryExecutor.__init__
           Scenario.fresh_pool (Scenario.request "DELETE FROM t" true None)
           (Scenario.script None Scenario.no_rows)).
  - reflexivity.
  - vm_compute. intros H.
    repeat (apply elem_of_cons in H as [H|H]; [discriminate|]).
    by apply elem_of_nil in H.
Defined.

(** C4 as stated fails at [n = 0]: with [row_limit = 0] and three rows in
    the result set, all three come back, not [min(0, 3) = 0]. *)
Lemma row_limit_zero_returns_all :
  exists r,
    QueryExecutor.outcome
      (QueryExecutor.execute QueryExecutor.__init__ Scenario.fresh_pool
         (Scenario.request "SELECT * FROM t" false (Some 0%Z))
         (Scenario.script None (Scenario.select_cursor [Scenario.table 3])))
    = Some (Ok r)
    /\ QueryResult.status r = SUCCESS
    /\ QueryResult.row_count r = 3%Z
    /\ length (QueryResult.rows r) = 3
    /\ QueryResult.row_count r <> Z.min 0 3.
Proof. eexists. repeat split; vm_compute; (reflexivity || discriminate). Qed.

(** C4 (amended). A SELECT with a positive [row_limit = n], run to its end
    on a connection (acquired and released without error, not cancelled,
    the driver answering every call) whose cursor delivers a result set of
    [m] rows in non-empty batches, returns status SUCCESS, the first
    [min(n, m)] rows of the result set, and [row_count = len(rows)
    = min(n, m)]. *)
Theorem select_row_limit
  (self : QueryExecutor.t) (p p1 : ConnectionPool.t)
  (request : QueryRequest.t) (sc : Script) (w : wref) (cursor : Cursor)
  (batches : list (list row)) (n : Z) :
  QueryAnalyzer.determine_type (QueryRequest.sql request) = SELECT ->
  QueryRequest.row_limit request = Some n -> (0 < n)%Z ->
  QueryExecutor._acquire_wrapper (QueryRequest.timeout request) sc p
    = (QueryExecutor.Got w, p1) ->
  cancel_at sc = None ->
  begin_outcome sc = Ok tt ->
  execute_outcome sc = Ok cursor ->
  fetches cursor = List.map Ok batches ->
  Forall (fun batch => batch ≠ []) batches ->
  (ConnectionPool._release_wrapper w (mono_release sc) (release_close sc)
     (release_connect sc) (PoolSystem.run (during sc) p1)).1 = Ok tt ->
  let m := Z.of_nat (length (concat batches)) in
  exists r,
    QueryExecutor.outcome (QueryExecutor.execute self p request sc)
      = Some (Ok r)
    /\ QueryResult.status r = SUCCESS
    /\ QueryResult.rows r = take (Z.to_nat n) (concat batches)
    /\ QueryResult.row_count r = Z.min n m
    /\ Z.of_nat (length (QueryResult.rows r)) = Z.min n m.
Proof.
  intros Hty Hl Hn Hacq Hc Hb He Hf Hne Hrel m.
  assert (Hrej : ExecutorSpec.rejected request = false).
  { unfold ExecutorSpec.rejected. rewrite Hty. cbn. apply andb_false_r. }
  destruct (ExecutorFacts.execute_acquired self p request sc w p1 Hrej Hacq)
    as (-> & _).
  rewrite Hrel, Hty.
  rewrite (ConnectionFacts.with_connection_select request sc _ w cursor)
    by (by rewrite ?Hc).
  rewrite Hc, Hf.
  rewrite (FetchFacts.fetch_loop_limited request w n batches 1 [] 0 Hl Hn)
    by (done || lia).
  eexists. split; [reflexivity|]. cbn [QueryResult.status QueryResult.rows
    QueryResult.row_count app]. rewrite Z.sub_0_r, Z.add_0_l.
  repeat split. rewrite length_take. subst m. lia.
Qed.

Lemma select_row_limit_witness :
  exists r,
    QueryExecutor.outcome
      (QueryExecutor.execute QueryExecutor.__init__ Scenario.fresh_pool
         (Scenario.request "SELECT * FROM t" false (Some 5%Z))
         (Scenario.script None (Scenario.select_cursor [Scenario.table 100])))
    = Some (Ok r)
    /\ QueryResult.status r = SUCCESS
    /\ QueryResult.rows r = take 5 (Scenario.table 100)
    /\ QueryResult.row_count r = 5%Z
    /\ Z.of_nat (length (QueryResult.rows r)) = 5%Z.
Proof.
  edestruct (select_row_limit QueryExecutor.__init__ Scenario.fresh_pool
               (QueryExecutor._acquire_wrapper None
                  (Scenario.script None
                     (Scenario.select_cursor [Scenario.table 100]))
                  Scenario.fresh_pool).2
               (Scenario.request "SELECT * FROM t" false (Some 5%Z))
               (Scenario.script None
                  (Scenario.select_cursor [Scenario.table 100]))
               0 (Scenario.select_cursor [Scenario.table 100])
               [Scenario.table 100] 5)
    as (r & H1 & H2 & H3 & H4 & H5).
  - vm_compute. reflexivity.
  - reflexivity.
  - lia.
  - vm_compute. reflexivity.
  - reflexivity.
  - reflexivity.
  - reflexivity.
  - reflexivity.
  - repeat constructor. discriminate.
  - vm_compute. reflexivity.
  - exists r. repeat split; [exact H1|exact H2| | |].
    + rewrite H3. vm_compute. reflexivity.
    + rewrite H4. vm_compute. reflexivity.
    + rewrite H5. vm_compute. reflexivity.
Defined.

(** C5 as stated fails: a SELECT cancelled after its first batch of two
    rows returns status CANCELLED with no row at all. *)
Lemma cancelled_select_keeps_no_rows :
  exists r,
    QueryExecutor.outcome
      (QueryExecutor.execute QueryExecutor.__init__ Scenario.fresh_pool
         (Scenario.request "SELECT * FROM t" false None)
         (Scenario.script (Some 2)
            (Scenario.select_cursor
               [take 2 (Scenario.table 6); drop 2 (Scenario.table 6)])))
    = Some (Ok r)
    /\ QueryResult.status r = CANCELLED
    /\ QueryResult.rows r = []
    /\ ~ (QueryResult.rows r <> []).
Proof.
  eexists. repeat split; [vm_compute; reflexivity ..|].
  intros H. apply H. vm_compute. reflexivity.
Qed.

(** C5 (amended). The cancellation flag is read when a pass of the fetch
    loop opens.  A SELECT whose flag is set while it fetches (after
    [length batches] batches, the row limit not yet reached) ends at the
    next such point with status CANCELLED, and its result keeps nothing of
    what was fetched: no rows, [row_count = 0], the error
    "Query was cancelled". *)
Theorem select_cancelled_between_batches
  (self : QueryExecutor.t) (p p1 : ConnectionPool.t)
  (request : QueryRequest.t) (sc : Script) (w : wref) (cursor : Cursor)
  (batches : list (list row)) (later : list (result (list row))) :
  QueryAnalyzer.determine_type (QueryRequest.sql request) = SELECT ->
  QueryExecutor._acquire_wrapper (QueryRequest.timeout request) sc p
    = (QueryExecutor.Got w, p1) ->
  begin_outcome sc = Ok tt ->
  execute_outcome sc = Ok cursor ->
  fetches cursor = List.map Ok batches ++ later ->
  Forall (fun batch => batch ≠ []) batches ->
  QueryExecutor.limit_reached (QueryRequest.row_limit request)
    (Z.of_nat (length (concat batches))) = false ->
  cancel_at sc = Some (S (length batches)) ->
  (ConnectionPool._release_wrapper w (mono_release sc) (release_close sc)
     (release_connect sc) (PoolSystem.run (during sc) p1)).1 = Ok tt ->
  exists r,
    QueryExecutor.outcome (QueryExecutor.execute self p request sc)
      = Some (Ok r)
    /\ QueryResult.status r = CANCELLED
    /\ QueryResult.rows r = []
    /\ QueryResult.row_count r = 0%Z
    /\ QueryResult.error r = Some "Query was cancelled".
Proof.
  intros Hty Hacq Hb He Hf Hne Hl Hc Hrel.
  assert (Hrej : ExecutorSpec.rejected request = false).
  { unfold ExecutorSpec.rejected. rewrite Hty. cbn. apply andb_false_r. }
  destruct (ExecutorFacts.execute_acquired self p request sc w p1 Hrej Hacq)
    as (-> & _).
  rewrite Hrel, Hty.
  rewrite (ConnectionFacts.with_connection_select request sc _ w cursor)
    by (by rewrite ?Hc).
  rewrite Hc, Hf. change (S (length batches)) with (1 + length batches).
  rewrite (FetchFacts.fetch_loop_cancelled request w batches later 1 [] 0 Hne)
    by (by rewrite Z.add_0_l).
  eexists. split; [reflexivity|]. by repeat split.
Qed.

Lemma select_cancelled_between_batches_witness :
  exists r,
    QueryExecutor.outcome
      (QueryExecutor.execute QueryExecutor.__init__ Scenario.fresh_pool
         (Scenario.request "SELECT * FROM t" false None)
         (Scenario.script (Some 2)
            (Scenario.select_cursor
               [take 2 (Scenario.table 6); drop 2 (Scenario.table 6)])))
    = Some (Ok r)
    /\ QueryResult.status r = CANCELLED
    /\ QueryResult.rows r = []
    /\ QueryResult.row_count r = 0%Z
    /\ QueryResult.error r = Some "Query was cancelled".
Proof.
  apply (select_cancelled_between_batches QueryExecutor.__init__
           Scenario.fresh_pool
           (QueryExecutor._acquire_wrapper None
              (Scenario.script (Some 2) Scenario.no_rows)
              Scenario.fresh_pool).2
           (Scenario.request "SELECT * FROM t" false None)
           (Scenario.script (Some 2)
              (Scenario.select_cursor
                 [take 2 (Scenario.table 6); drop 2 (Scenario.table 6)]))
           0
           (Scenario.select_cursor
              [take 2 (Scenario.table 6); drop 2 (Scenario.table 6)])
           [take 2 (Scenario.table 6)]
           [Ok (drop 2 (Scenario.table 6))]).
  - vm_compute. reflexivity.
  - vm_compute. reflexivity.
  - reflexivity.
  - reflexivity.
  - reflexivity.
  - repeat constructor. discriminate.
  - reflexivity.
  - reflexivity.
  - vm_compute. reflexivity.
Defined.

(** C6. [determine_type] classifies by the leading keyword: it skips the
    leading whitespace, takes the leading word, compares it without regard
    to case with the sixteen keywords in the order of the table, and
    answers UNKNOWN when none is that word. *)
Theorem determine_type_leading_keyword :
  (forall sql,
     QueryAnalyzer.determine_type sql
     = AnalyzerSpec.first_entry AnalyzerSpec.keyword_table
         (AnalyzerSpec.leading_keyword sql))
  /\ QueryAnalyzer.determine_type "  select * from t" = SELECT
  /\ QueryAnalyzer.determine_type "INSERT INTO t VALUES (1)" = INSERT
  /\ QueryAnalyzer.determine_type "foo" = UNKNOWN.
Proof.
  split; [exact AnalyzerFacts.determine_type_classify|].
  repeat split; vm_compute; reflexivity.
Qed.

(** C7 as stated fails: a text with two comment tokens has two
    occurrences of a dangerous pattern and gets one warning. *)
Lemma validate_security_not_per_occurrence :
  let sql := "SELECT 1 -- a -- b" in
  Re.occurrences (Re.Compile "--" (Re.lits "--")) sql = [9; 14]
  /\ AnalyzerSpec.dangerous_occurrences sql = 2
  /\ QueryAnalyzer.validate_security sql false
     = ["Potentially dangerous pattern detected: --"]
  /\ length (QueryAnalyzer.validate_security sql false)
     <> AnalyzerSpec.dangerous_occurrences sql.
Proof. repeat split; vm_compute; (reflexivity || discriminate). Qed.

(** C7 (amended). [validate_security(sql, allow_dangerous=false)] returns,
    in the order of the table, one warning for each of the eleven
    dangerous patterns that occurs in [sql], however often it occurs,
    then one warning when [len(sql) > 100000]; it returns the empty list
    exactly when no pattern occurs and the text is not longer than that. *)
Theorem validate_security_one_warning_per_pattern :
  (forall sql,
     QueryAnalyzer.validate_security sql false
     = List.map QueryAnalyzer.dangerous_warning
         (List.filter (fun p => Re.occurs p sql)
            QueryAnalyzer._DANGEROUS_PATTERNS)
       ++ (if (100000 <? Z.of_nat (String.length sql))%Z
           then ["Query exceeds recommended length"] else []))
  /\ (forall sql,
        QueryAnalyzer.validate_security sql false = [] <->
        List.forallb (fun p => negb (Re.occurs p sql))
          QueryAnalyzer._DANGEROUS_PATTERNS = true
        /\ (Z.of_nat (String.length sql) <= 100000)%Z)
  /\ QueryAnalyzer.validate_security "SELECT 1; DROP TABLE t" false <> []
  /\ QueryAnalyzer.validate_security "SELECT 1" false = [].
Proof.
  split; [exact SecurityFacts.validate_security_filter|].
  split; [|split; vm_compute; (reflexivity || discriminate)].
  intros sql. rewrite SecurityFacts.validate_security_filter.
  unfold AnalyzerSpec.length_warning.
  generalize QueryAnalyzer._DANGEROUS_PATTERNS as pats. intros pats.
  destruct (100000 <? Z.of_nat (String.length sql))%Z eqn:E.
  - apply Z.ltb_lt in E. split.
    + intros H. apply app_eq_nil in H as [_ H]. discriminate.
    + intros [_ H]. lia.
  - apply Z.ltb_ge in E. rewrite app_nil_r. split.
    + intros H. split; [|done].
      induction pats as [|p pats IH]; [done|].
      cbn [List.filter forallb] in *.
      destruct (Re.occurs p sql); [discriminate|by apply IH].
    + intros [H _].
      induction pats as [|p pats IH]; [done|].
      cbn [List.filter forallb] in *.
      destruct (Re.occurs p sql); [discriminate|by apply IH].
Qed.

(** C8. [commit] and [rollback] are the same operation: each fails with
    the "Transaction ... not found" error and leaves the manager as it is
    when the transaction has no entry, each deletes the entry otherwise,
    and neither makes any call on the pool or on a connection. *)
Theorem commit_rollback_discard_entry
  (transaction_id : string) (self : TransactionManager.t) :
  TransactionManager.commit transaction_id self
  = TransactionManager.rollback transaction_id self
  /\ TransactionManager.commit transaction_id self
     = match TransactionManager._active_transactions self !! transaction_id with
       | None =>
           ((Raise (ValueError
                      ("Transaction " +:+ transaction_id +:+ " not found")),
             []), self)
       | Some _ =>
           ((Ok tt, []),
            TransactionManager.mk
              (delete transaction_id
                 (TransactionManager._active_transactions self)))
       end
  /\ (TransactionManager.commit transaction_id self).1.2 = []
  /\ (TransactionManager.rollback transaction_id self).1.2 = []
  /\ TransactionManager._active_transactions
       (TransactionManager.commit transaction_id self).2 !! transaction_id
     = None.
Proof.
  split; [apply TransactionFacts.commit_rollback|].
  unfold TransactionManager.commit, TransactionManager.rollback.
  destruct (TransactionManager._active_transactions self !! transaction_id)
    eqn:E; repeat split; try done.
  cbn. apply lookup_delete_eq.
Qed.

(** C9. A request built without [isolation_level] has the level DEFERRED,
    not NONE.  Whatever its SQL, a plain SELECT included: when it is turned
    away by the read-only check or gets no connection, nothing is run;
    when it gets a connection, the first call on that connection is
    [BEGIN DEFERRED], the statement of the request comes right after it
    when the BEGIN went through and is not run when it did not; only a
    caller that finds the cancellation flag set right after the
    acquisition gives the connection back without any call. *)
Theorem default_isolation_begins_deferred
  (sql : string) (params : option (list value)) (query_id : option string)
  (timeout : option Z) (read_only : option bool) (row_limit : option Z)
  (fetch_size : option Z) (metadata : option (gmap string value))
  (uuid : string)
  (self : QueryExecutor.t) (p : ConnectionPool.t) (sc : Script) :
  let request :=
    QueryRequest.__init__ sql params query_id timeout None read_only
      row_limit fetch_size metadata uuid in
  let run := QueryExecutor.execute self p request sc in
  QueryRequest.isolation_level request = DEFERRED
  /\ IsolationLevel_value (QueryRequest.isolation_level request)
     = Some "DEFERRED"
  /\ if ExecutorSpec.rejected request then QueryExecutor.effects run = []
     else
       match (QueryExecutor._acquire_wrapper timeout sc p).1 with
       | QueryExecutor.Got w =>
           if QueryExecutor.is_set (cancel_at sc) 0
           then QueryExecutor.effects run = [PoolAcquire w; PoolRelease w]
           else
             exists rest,
               QueryExecutor.effects run
               = PoolAcquire w :: ConnExecute w "BEGIN DEFERRED" [] :: rest
               /\ match begin_outcome sc with
                  | Ok _ =>
                      exists rest',
                        rest = ConnExecute w sql (default [] params) :: rest'
                  | Raise _ => rest = [PoolRelease w]
                  end
       | _ => QueryExecutor.effects run = []
       end.
Proof.
  intros request run. split; [reflexivity|]. split; [reflexivity|].
  destruct (ExecutorSpec.rejected request) eqn:Hrej.
  { subst run. by rewrite ExecutorFacts.execute_rejected. }
  change timeout with (QueryRequest.timeout request).
  destruct (QueryExecutor._acquire_wrapper (QueryRequest.timeout request) sc p)
    as [[w|e|] p1] eqn:Hacq; cbn [fst].
  - destruct (ExecutorFacts.execute_acquired self p request sc w p1 Hrej Hacq)
      as (_ & Heff & _). subst run. rewrite Heff.
    destruct (QueryExecutor.is_set (cancel_at sc) 0) eqn:Hc.
    + by rewrite ExecutorFacts.with_connection_cancelled.
    + destruct (ConnectionFacts.with_connection_begin request sc
                  (QueryAnalyzer.determine_type (QueryRequest.sql request))
                  (QueryAnalyzer.validate_security (QueryRequest.sql request)
                     false)
                  w "DEFERRED" Hc eq_refl) as (rest & -> & Hrest).
      exists (rest ++ [PoolRelease w]). split; [reflexivity|].
      destruct (begin_outcome sc).
      * destruct Hrest as (rest' & ->). by exists (rest' ++ [PoolRelease w]).
      * by subst rest.
  - subst run. by rewrite (ExecutorFacts.execute_not_acquired _ _ _ _ e p1).
  - subst run. by rewrite (ExecutorFacts.execute_blocked _ _ _ _ p1).
Qed.

(** A plain SELECT with every default, on a fresh pool: the calls made. *)
Example select_one_calls :
  QueryExecutor.effects
    (QueryExecutor.execute QueryExecutor.__init__ Scenario.fresh_pool
       (QueryRequest.__init__ "SELECT 1" None None None None None None None
          None "0f8fad5bd9cb469fa16570867728950e")
       (Scenario.script None Scenario.no_rows))
  = [ PoolAcquire 0; ConnExecute 0 "BEGIN DEFERRED" [];
      ConnExecute 0 "SELECT 1" []; CursorFetchmany 0 1000; PoolRelease 0 ].
Proof. vm_compute. reflexivity. Qed.

(** C10. [cancel(query_id)] returns true exactly when [query_id] is among
    the active queries.  [execute] enters the query id there before
    anything else, so that it is there while the call waits, and takes it
    out on every way out: once the call has returned, whatever the
    result, the id is not active and [cancel] on it returns false, and
    this stays so while other ids are entered, cancelled and taken out. *)
Theorem cancel_only_while_active
  (self : QueryExecutor.t) (p : ConnectionPool.t) (request : QueryRequest.t)
  (sc : Script) (query_id : string) :
  let run := QueryExecutor.execute self p request sc in
  let own := QueryRequest.query_id request in
  ((QueryExecutor.cancel query_id self).1 = true
   <-> is_Some (QueryExecutor._active_queries self !! query_id))
  /\ is_Some (QueryExecutor._active_queries
                (QueryExecutor.register own self) !! own)
  /\ (QueryExecutor.outcome run = None ->
      (QueryExecutor.cancel own (QueryExecutor.executor run)).1 = true)
  /\ (is_Some (QueryExecutor.outcome run) ->
      QueryExecutor._active_queries (QueryExecutor.executor run) !! own = None
      /\ (QueryExecutor.cancel own (QueryExecutor.executor run)).1 = false)
  /\ (forall ex other,
        QueryExecutor._active_queries ex !! own = None -> other <> own ->
        QueryExecutor._active_queries
          (QueryExecutor.register other ex) !! own = None
        /\ QueryExecutor._active_queries
             (QueryExecutor.unregister other ex) !! own = None
        /\ QueryExecutor._active_queries
             (QueryExecutor.cancel other ex).2 !! own = None).
Proof.
  intros run own.
  split; [apply RegistryFacts.cancel_true|].
  split; [apply RegistryFacts.register_active|].
  split; [|split; [|by apply RegistryFacts.others_keep_out]].
  - intros Hwait. apply RegistryFacts.cancel_true.
    by apply RegistryFacts.waiting_active.
  - intros Hdone.
    pose proof (RegistryFacts.returned_inactive self p request sc Hdone) as H.
    split; [exact H|].
    destruct (QueryExecutor.cancel own (QueryExecutor.executor run)).1 eqn:E;
      [|done].
    apply RegistryFacts.cancel_true in E. fold run own in H.
    rewrite H in E. by destruct E.
Qed.

Lemma cancel_only_while_active_witness :
  QueryExecutor._active_queries
    (QueryExecutor.executor
       (QueryExecutor.execute QueryExecutor.__init__ Scenario.fresh_pool
          (Scenario.request "SELECT 1" false None)
          (Scenario.script None Scenario.no_rows))) !! "q1" = None
  /\ (QueryExecutor.cancel "q1"
        (QueryExecutor.executor
           (QueryExecutor.execute QueryExecutor.__init__ Scenario.fresh_pool
              (Scenario.request "SELECT 1" false None)
              (Scenario.script None Scenario.no_rows)))).1 = false.
Proof.
  pose proof (cancel_only_while_active QueryExecutor.__init__
                Scenario.fresh_pool (Scenario.request "SELECT 1" false None)
                (Scenario.script None Scenario.no_rows) "q1")
    as (_ & _ & _ & H & _).
  apply H. vm_compute. eauto.
Defined.

(** * Further properties of the code *)

(** ** LRUCache *)

Module CacheFacts.

Import LRUCache.

Section Items.

Context {T : Type}.

Implicit Types (d : list (string * T)) (self : LRUCache.t T).

Lemma getitem_None key d : getitem key d = None <-> key ∉ List.map fst d.
Proof.
  induction d as [|[k v] d IH]; cbn [getitem List.map fst].
  - split; [intros _ H; by apply elem_of_nil in H|done].
  - destruct (String.eqb_spec k key) as [->|Hne].
    + split; [done|]. intros H. exfalso. apply H. by left.
    + rewrite IH, not_elem_of_cons.
      split; [intros H; split; [congruence|done]|by intros [_ H]].
Qed.

Lemma getitem_app key d1 d2 :
  getitem key (d1 ++ d2)
  = match getitem key d1 with
    | Some v => Some v
    | None => getitem key d2
    end.
Proof.
  induction d1 as [|[k v] d1 IH]; cbn [getitem app]; [done|].
  by destruct (String.eqb k key).
Qed.

Lemma getitem_delitem_ne key key' d :
  key' <> key -> getitem key' (delitem key d) = getitem key' d.
Proof.
  intros Hne. induction d as [|[k v] d IH]; cbn [getitem delitem]; [done|].
  destruct (String.eqb_spec k key) as [->|Hk].
  - destruct (String.eqb_spec key key'); [congruence|done].
  - cbn [getitem]. by rewrite IH.
Qed.

Lemma keys_delitem key d :
  sublist (List.map fst (delitem key d)) (List.map fst d).
Proof.
  induction d as [|[k v] d IH]; cbn [delitem List.map fst]; [done|].
  destruct (String.eqb k key).
  - by apply sublist_cons.
  - cbn [List.map fst]. by apply sublist_skip.
Qed.

Lemma getitem_delitem key d :
  NoDup (List.map fst d) -> getitem key (delitem key d) = None.
Proof.
  induction d as [|[k v] d IH]; cbn [getitem delitem List.map fst]; [done|].
  intros Hnd. apply NoDup_cons in Hnd as [Hk Hnd].
  destruct (String.eqb_spec k key) as [->|Hne].
  - by apply getitem_None.
  - cbn [getitem]. destruct (String.eqb_spec k key); [done|]. by apply IH.
Qed.

Lemma length_delitem key d v :
  getitem key d = Some v -> S (length (delitem key d)) = length d.
Proof.
  induction d as [|[k w] d IH]; cbn [getitem delitem length]; [done|].
  destruct (String.eqb k key); [done|]. intros H. cbn [length]. by rewrite IH.
Qed.

Lemma setitem_new key value d :
  getitem key d = None -> setitem key value d = d ++ [(key, value)].
Proof.
  induction d as [|[k w] d IH]; cbn [getitem setitem app]; [done|].
  destruct (String.eqb k key); [done|]. intros H. by rewrite IH.
Qed.

Lemma setitem_last key value v d :
  getitem key d = None ->
  setitem key value (d ++ [(key, v)]) = d ++ [(key, value)].
Proof.
  induction d as [|[k w] d IH]; cbn [getitem setitem app].
  - by rewrite String.eqb_refl.
  - destruct (String.eqb k key); [done|]. intros H. by rewrite IH.
Qed.

Lemma keys_moved key v d :
  NoDup (List.map fst d) ->
  NoDup (List.map fst (delitem key d ++ [(key, v)])).
Proof.
  intros Hnd. rewrite List.map_app. cbn [List.map fst].
  apply NoDup_app. split; [|split].
  - by apply (sublist_NoDup _ _ Hnd), keys_delitem.
  - intros k Hk Hk'. apply list_elem_of_singleton in Hk'. subst k.
    revert Hk. apply getitem_None. by apply getitem_delitem.
  - apply NoDup_singleton.
Qed.

(** What [put] leaves in a well-formed cache: an old key moves to the end
    with its new value; a new key goes to the end, and the oldest item
    goes when that makes one item too many. *)
Lemma put_cache key value self :
  CacheSpec.wf self ->
  _cache (put key value self)
  = match getitem key (_cache self) with
    | Some _ => delitem key (_cache self) ++ [(key, value)]
    | None =>
        if (_capacity self <? Z.of_nat (length (_cache self)) + 1)%Z
        then popitem_first (_cache self ++ [(key, value)])
        else _cache self ++ [(key, value)]
    end.
Proof.
  intros [Hnd Hlen]. unfold put, keys in *. cbn [_cache _capacity].
  destruct (getitem key (_cache self)) as [v|] eqn:E.
  - unfold move_to_end. rewrite E.
    rewrite setitem_last by (by apply getitem_delitem).
    rewrite length_app. cbn [length].
    pose proof (length_delitem _ _ _ E) as Hl.
    replace (_ <? _)%Z with false; [done|].
    symmetry. apply Z.ltb_ge. lia.
  - rewrite setitem_new by done. rewrite length_app. cbn [length].
    replace (Z.of_nat (length (_cache self) + 1))
      with (Z.of_nat (length (_cache self)) + 1)%Z by lia.
    done.
Qed.

Lemma put_wf key value self : CacheSpec.wf self -> CacheSpec.wf (put key value self).
Proof.
  intros Hwf. pose proof (put_cache key value self Hwf) as E.
  destruct Hwf as [Hnd Hlen]. unfold CacheSpec.wf, keys in *.
  rewrite E. replace (_capacity (put key value self)) with (_capacity self)
    by done.
  destruct (getitem key (_cache self)) as [v|] eqn:Eg.
  - split; [by apply keys_moved|].
    rewrite length_app. cbn [length].
    pose proof (length_delitem _ _ _ Eg). lia.
  - assert (Hnew : NoDup (List.map fst (_cache self ++ [(key, value)]))).
    { rewrite List.map_app. cbn [List.map fst]. apply NoDup_app.
      split; [done|]. split; [|apply NoDup_singleton].
      intros k Hk Hk'. apply list_elem_of_singleton in Hk'. subst k.
      revert Hk. by apply getitem_None. }
    destruct (_ <? _)%Z eqn:Ec.
    + apply Z.ltb_lt in Ec.
      destruct (_cache self) as [|x d]; cbn [app popitem_first] in *.
      * split; [apply NoDup_nil_2|cbn; lia].
      * cbn [List.map] in Hnew. apply NoDup_cons in Hnew as [_ Hnew].
        split; [done|]. rewrite length_app. cbn [length] in *. lia.
    + apply Z.ltb_ge in Ec. split; [done|].
      rewrite length_app. cbn [length]. lia.
Qed.

Lemma get_cache key self :
  _cache (get key self).2
  = match getitem key (_cache self) with
    | Some v => delitem key (_cache self) ++ [(key, v)]
    | None => _cache self
    end.
Proof.
  unfold get, move_to_end. by destruct (getitem key (_cache self)).
Qed.

Lemma get_wf key self : CacheSpec.wf self -> CacheSpec.wf (get key self).2.
Proof.
  intros [Hnd Hlen]. unfold CacheSpec.wf, keys in *. rewrite get_cache.
  replace (_capacity (get key self).2) with (_capacity self)
    by (unfold get; by destruct (getitem key (_cache self))).
  destruct (getitem key (_cache self)) as [v|] eqn:E; [|done].
  split; [by apply keys_moved|].
  rewrite length_app. cbn [length]. pose proof (length_delitem _ _ _ E). lia.
Qed.

Lemma invalidate_cache key self :
  _cache (invalidate key self).2 = delitem key (_cache self).
Proof.
  unfold invalidate. destruct (getitem key (_cache self)) eqn:E; [done|].
  cbn [snd]. clear -E. induction (_cache self) as [|[k v] d IH]; [done|].
  cbn [getitem delitem] in *. destruct (String.eqb k key); [done|].
  by rewrite <- IH.
Qed.

Lemma invalidate_wf key self :
  CacheSpec.wf self -> CacheSpec.wf (invalidate key self).2.
Proof.
  intros [Hnd Hlen]. unfold CacheSpec.wf, keys in *.
  rewrite invalidate_cache.
  replace (_capacity (invalidate key self).2) with (_capacity self)
    by (unfold invalidate; by destruct (getitem key (_cache self))).
  split.
  - by apply (sublist_NoDup _ _ Hnd), keys_delitem.
  - pose proof (sublist_length _ _ (keys_delitem key (_cache self))) as H.
    rewrite !length_map in H. lia.
Qed.

Lemma apply_wf o self : CacheSpec.wf self -> CacheSpec.wf (apply o self).
Proof.
  destruct o; cbn [apply].
  - apply get_wf.
  - apply put_wf.
  - apply invalidate_wf.
  - intros _. split; [apply NoDup_nil_2|cbn; lia].
Qed.

Lemma run_wf ops : forall self, CacheSpec.wf self -> CacheSpec.wf (run ops self).
Proof.
  induction ops as [|o ops IH]; intros self Hwf; [done|].
  cbn [run fold_left]. apply IH. by apply apply_wf.
Qed.

Lemma init_wf capacity : CacheSpec.wf (__init__ (T := T) capacity).
Proof. split; [apply NoDup_nil_2|cbn; lia]. Qed.

Lemma run_capacity ops : forall self, _capacity (run ops self) = _capacity self.
Proof.
  induction ops as [|o ops IH]; intros self; [done|].
  cbn [run fold_left]. fold (run ops (apply o self)). rewrite IH.
  destruct o; cbn [apply]; try done.
  - unfold get. by destruct (getitem key (_cache self)).
  - unfold invalidate. by destruct (getitem key (_cache self)).
Qed.

(** On a well-formed cache [get] answers with the stored value. *)
Lemma get_value key self :
  CacheSpec.wf self -> (get key self).1 = getitem key (_cache self).
Proof.
  intros [Hnd _]. unfold get, move_to_end, keys in *.
  destruct (getitem key (_cache self)) as [v|] eqn:E; [|done].
  cbn [fst]. rewrite getitem_app, getitem_delitem by done.
  cbn [getitem]. by rewrite String.eqb_refl.
Qed.

Lemma put_get key value self :
  CacheSpec.wf self -> (1 <= _capacity self)%Z ->
  (get key (put key value self)).1 = Some value.
Proof.
  intros Hwf Hcap.
  rewrite get_value by (by apply put_wf).
  rewrite put_cache by done.
  destruct Hwf as [Hnd Hlen]. unfold keys in Hnd.
  destruct (getitem key (_cache self)) as [v|] eqn:E.
  - rewrite getitem_app, getitem_delitem by done.
    cbn. by rewrite String.eqb_refl.
  - destruct (_ <? _)%Z eqn:Ec.
    + apply Z.ltb_lt in Ec.
      destruct (_cache self) as [|[k w] d]; [cbn in Ec; lia|].
      cbn [app popitem_first].
      cbn [getitem] in E. destruct (String.eqb k key); [done|].
      rewrite getitem_app, E. cbn. by rewrite String.eqb_refl.
    + rewrite getitem_app, E. cbn. by rewrite String.eqb_refl.
Qed.

End Items.

End CacheFacts.

(** X1. Whatever is done to a cache after its creation, it holds no key
    twice and never more items than its capacity (none at all for a
    capacity of zero or less). *)
Theorem lru_cache_bounded_distinct {T : Type}
  (capacity : Z) (ops : list (LRUCache.op (T := T))) :
  let self := LRUCache.run ops (LRUCache.__init__ capacity) in
  NoDup (LRUCache.keys self)
  /\ (Z.of_nat (length (LRUCache._cache self)) <= Z.max 0 capacity)%Z.
Proof.
  intros self.
  pose proof (CacheFacts.run_wf ops _ (CacheFacts.init_wf capacity)) as H.
  unfold CacheSpec.wf in H. by rewrite CacheFacts.run_capacity in H.
Qed.

(** X2. In a cache of capacity one or more, a [get] right after
    [put(key, value)] returns [value], whatever the cache held before. *)
Theorem lru_cache_put_get {T : Type}
  (capacity : Z) (ops : list (LRUCache.op (T := T)))
  (key : string) (value : T) :
  (1 <= capacity)%Z ->
  let self := LRUCache.run ops (LRUCache.__init__ capacity) in
  (LRUCache.get key (LRUCache.put key value self)).1 = Some value.
Proof.
  intros Hcap self. apply CacheFacts.put_get.
  - apply CacheFacts.run_wf, CacheFacts.init_wf.
  - subst self. by rewrite CacheFacts.run_capacity.
Qed.

Lemma lru_cache_put_get_witness :
  (LRUCache.get "c"
     (LRUCache.put "c" 3
        (LRUCache.run [LRUCache.Put "a" 1; LRUCache.Put "b" 2]
           (LRUCache.__init__ 2)))).1 = Some 3.
Proof.
  apply (lru_cache_put_get 2 [LRUCache.Put "a" 1; LRUCache.Put "b" 2] "c" 3).
  lia.
Defined.

(** X3. Eviction takes the least recently used item and only a full cache
    evicts: [put] of a new key into a cache of capacity one or more drops
    the oldest item exactly when the cache holds [capacity] items, keeps
    all the others in their order, and puts the new item last. *)
Theorem lru_cache_evicts_oldest {T : Type}
  (capacity : Z) (ops : list (LRUCache.op (T := T)))
  (key : string) (value : T) :
  (1 <= capacity)%Z ->
  let self := LRUCache.run ops (LRUCache.__init__ capacity) in
  LRUCache.getitem key (LRUCache._cache self) = None ->
  LRUCache._cache (LRUCache.put key value self)
  = (if (Z.of_nat (length (LRUCache._cache self)) =? capacity)%Z
     then LRUCache.popitem_first (LRUCache._cache self)
     else LRUCache._cache self) ++ [(key, value)].
Proof.
  intros Hcap self Hnew.
  pose proof (CacheFacts.run_wf ops _ (CacheFacts.init_wf capacity)) as Hwf.
  fold self in Hwf.
  assert (Hc : LRUCache._capacity self = capacity)
    by apply CacheFacts.run_capacity.
  rewrite CacheFacts.put_cache, Hnew, Hc by done.
  destruct Hwf as [_ Hlen]. rewrite Hc in Hlen.
  destruct (_ =? _)%Z eqn:Ee.
  - apply Z.eqb_eq in Ee.
    replace (_ <? _)%Z with true by (symmetry; apply Z.ltb_lt; lia).
    destruct (LRUCache._cache self); [cbn in Ee; lia|done].
  - apply Z.eqb_neq in Ee.
    replace (_ <? _)%Z with false by (symmetry; apply Z.ltb_ge; cbn; lia).
    done.
Qed.

Lemma lru_cache_evicts_oldest_witness :
  LRUCache._cache
    (LRUCache.put "c" 3
       (LRUCache.run [LRUCache.Put "a" 1; LRUCache.Put "b" 2]
          (LRUCache.__init__ 2)))
  = [("b", 2); ("c", 3)].
Proof.
  rewrite (lru_cache_evicts_oldest 2 [LRUCache.Put "a" 1; LRUCache.Put "b" 2]
             "c" 3); [reflexivity|lia|reflexivity].
Defined.

(** X4. Reading refreshes: in a cache of capacity two or more, a key that
    has just been read with [get] is still there, with its value, after
    the next [put] of any other key. *)
Theorem lru_cache_get_protects {T : Type}
  (capacity : Z) (ops : list (LRUCache.op (T := T)))
  (key key' : string) (v value' : T) :
  (2 <= capacity)%Z -> key' <> key ->
  let self := LRUCache.run ops (LRUCache.__init__ capacity) in
  (LRUCache.get key self).1 = Some v ->
  (LRUCache.get key
     (LRUCache.put key' value' (LRUCache.get key self).2)).1 = Some v.
Proof.
  intros Hcap Hne self Hget.
  pose proof (CacheFacts.run_wf ops _ (CacheFacts.init_wf capacity)) as Hwf.
  fold self in Hwf.
  assert (Hc : LRUCache._capacity self = capacity)
    by apply CacheFacts.run_capacity.
  rewrite CacheFacts.get_value in Hget by done.
  pose proof (CacheFacts.get_wf key self Hwf) as Hwf1.
  pose proof (CacheFacts.get_cache key self) as E1. rewrite Hget in E1.
  assert (Hc1 : LRUCache._capacity (LRUCache.get key self).2 = capacity).
  { unfold LRUCache.get. by rewrite Hget. }
  destruct Hwf as [Hnd Hlen]. unfold LRUCache.keys in Hnd.
  assert (Hgone : LRUCache.getitem key
                    (LRUCache.delitem key (LRUCache._cache self)) = None)
    by (by apply CacheFacts.getitem_delitem).
  rewrite CacheFacts.get_value by (by apply CacheFacts.put_wf).
  rewrite CacheFacts.put_cache, E1, Hc1 by done.
  set (d := LRUCache.delitem key (LRUCache._cache self)) in *.
  destruct (LRUCache.getitem key' (d ++ [(key, v)])) eqn:E'.
  - rewrite CacheFacts.getitem_app, CacheFacts.getitem_delitem_ne by done.
    rewrite CacheFacts.getitem_app, Hgone. cbn. by rewrite String.eqb_refl.
  - destruct (_ <? _)%Z eqn:Ec.
    + apply Z.ltb_lt in Ec. rewrite length_app in Ec. cbn [length] in Ec.
      destruct d as [|[k w] d']; [cbn in Ec; lia|].
      cbn [app LRUCache.popitem_first].
      cbn [LRUCache.getitem] in Hgone.
      destruct (String.eqb k key); [done|].
      rewrite <- app_assoc, CacheFacts.getitem_app, Hgone.
      cbn. by rewrite String.eqb_refl.
    + rewrite <- app_assoc, CacheFacts.getitem_app, Hgone.
      cbn. by rewrite String.eqb_refl.
Qed.

Lemma lru_cache_get_protects_witness :
  (LRUCache.get "a"
     (LRUCache.put "c" 3
        (LRUCache.get "a"
           (LRUCache.run [LRUCache.Put "a" 1; LRUCache.Put "b" 2]
              (LRUCache.__init__ 2))).2)).1 = Some 1.
Proof.
  apply (lru_cache_get_protects 2 [LRUCache.Put "a" 1; LRUCache.Put "b" 2]
           "a" "c" 1 3); [lia|discriminate|reflexivity].
Defined.

(** X5. [invalidate(key)] returns true exactly when the key was cached;
    afterwards [get(key)] misses and every other key reads as before. *)
Theorem lru_cache_invalidate {T : Type}
  (capacity : Z) (ops : list (LRUCache.op (T := T))) (key : string) :
  let self := LRUCache.run ops (LRUCache.__init__ capacity) in
  let after := (LRUCache.invalidate key self).2 in
  ((LRUCache.invalidate key self).1 = true
   <-> is_Some ((LRUCache.get key self).1))
  /\ (LRUCache.get key after).1 = None
  /\ (forall key', key' <> key ->
        (LRUCache.get key' after).1 = (LRUCache.get key' self).1).
Proof.
  intros self after.
  pose proof (CacheFacts.run_wf ops _ (CacheFacts.init_wf capacity)) as Hwf.
  fold self in Hwf.
  pose proof (CacheFacts.invalidate_wf key self Hwf) as Hwf'.
  fold after in Hwf'.
  rewrite !CacheFacts.get_value by done.
  split; [|split].
  - unfold LRUCache.invalidate.
    destruct (LRUCache.getitem key (LRUCache._cache self)); cbn [fst].
    + split; eauto.
    + split; [done|by intros [? ?]].
  - subst after. rewrite CacheFacts.invalidate_cache.
    apply CacheFacts.getitem_delitem. by destruct Hwf.
  - intros key' Hne. rewrite !CacheFacts.get_value by done.
    subst after. rewrite CacheFacts.invalidate_cache.
    by apply CacheFacts.getitem_delitem_ne.
Qed.

(** X6. [put] on a key that is cached, or into a cache with room left,
    evicts nothing: every other key reads as before. *)
Theorem lru_cache_put_keeps_others {T : Type}
  (capacity : Z) (ops : list (LRUCache.op (T := T)))
  (key key' : string) (value : T) :
  let self := LRUCache.run ops (LRUCache.__init__ capacity) in
  is_Some ((LRUCache.get key self).1)
  \/ (Z.of_nat (length (LRUCache._cache self)) < capacity)%Z ->
  key' <> key ->
  (LRUCache.get key' (LRUCache.put key value self)).1
  = (LRUCache.get key' self).1.
Proof.
  intros self Hroom Hne.
  pose proof (CacheFacts.run_wf ops _ (CacheFacts.init_wf capacity)) as Hwf.
  fold self in Hwf.
  assert (Hc : LRUCache._capacity self = capacity)
    by apply CacheFacts.run_capacity.
  rewrite !CacheFacts.get_value in * by (done || by apply CacheFacts.put_wf).
  rewrite CacheFacts.put_cache, Hc by done.
  assert (Hlast : forall d,
    LRUCache.getitem key' (d ++ [(key, value)]) = LRUCache.getitem key' d).
  { intros d. rewrite CacheFacts.getitem_app.
    destruct (LRUCache.getitem key' d); [done|].
    cbn. destruct (String.eqb_spec key key'); [congruence|done]. }
  destruct (LRUCache.getitem key (LRUCache._cache self)) as [v|] eqn:E.
  - rewrite Hlast. by apply CacheFacts.getitem_delitem_ne.
  - destruct Hroom as [[? ?]|Hroom]; [done|].
    replace (_ <? _)%Z with false by (symmetry; apply Z.ltb_ge; cbn; lia).
    apply Hlast.
Qed.

Lemma lru_cache_put_keeps_others_witness :
  (LRUCache.get "b"
     (LRUCache.put "a" 7
        (LRUCache.run [LRUCache.Put "a" 1; LRUCache.Put "b" 2]
           (LRUCache.__init__ 2)))).1
  = (LRUCache.get "b"
       (LRUCache.run [LRUCache.Put "a" 1; LRUCache.Put "b" 2]
          (LRUCache.__init__ 2))).1.
Proof.
  apply (lru_cache_put_keeps_others 2
           [LRUCache.Put "a" 1; LRUCache.Put "b" 2] "a" "b" 7);
    [left; vm_compute; eauto|discriminate].
Defined.

(** ** QueryPlanCache *)

Module PlanCacheFacts.

Import QueryPlanCache.

Section Fingerprint.

Variable _normalize_query : string -> string.

Lemma plan_apply_wf o self :
  CacheSpec.wf (_cache self) ->
  CacheSpec.wf (_cache (apply _normalize_query o self)).
Proof.
  intros Hwf. destruct o as [sql|sql parsed query_type]; cbn [apply].
  - unfold get.
    pose proof (CacheFacts.get_wf (_normalize_query sql) (_cache self) Hwf).
    destruct (LRUCache.get _ _) as [[r|] c]; done.
  - by apply CacheFacts.put_wf.
Qed.

Lemma plan_run_wf ops : forall self,
  CacheSpec.wf (_cache self) ->
  CacheSpec.wf (_cache (run _normalize_query ops self)).
Proof.
  induction ops as [|o ops IH]; intros self Hwf; [done|].
  cbn [run fold_left]. apply IH. by apply plan_apply_wf.
Qed.

Lemma plan_run_capacity ops : forall self,
  LRUCache._capacity (_cache (run _normalize_query ops self))
  = LRUCache._capacity (_cache self).
Proof.
  unfold run. induction ops as [|o ops IH]; intros self; [done|].
  cbn [fold_left]. rewrite (IH (apply _normalize_query o self)).
  destruct o as [sql|sql parsed query_type]; cbn [apply]; [|done].
  unfold get, LRUCache.get.
  by destruct (LRUCache.getitem _ _) as [?|]; cbn;
    [destruct (LRUCache.getitem _ _)|].
Qed.

(** One of the two counters per [get], none per [put]. *)
Lemma run_counts ops : forall self,
  let after := run _normalize_query ops self in
  (_hit_count self <= _hit_count after)%Z
  /\ (_miss_count self <= _miss_count after)%Z
  /\ (_hit_count after + _miss_count after
      = _hit_count self + _miss_count self + CacheSpec.gets ops)%Z.
Proof.
  induction ops as [|o ops IH]; intros self after.
  - subst after. cbn. unfold CacheSpec.gets. cbn. lia.
  - subst after. unfold run in *. cbn [fold_left].
    specialize (IH (apply _normalize_query o self)). cbv zeta in IH.
    destruct IH as (Hh & Hm & Hsum).
    assert (Hstep :
      (_hit_count self <= _hit_count (apply _normalize_query o self))%Z
      /\ (_miss_count self <= _miss_count (apply _normalize_query o self))%Z
      /\ (_hit_count (apply _normalize_query o self)
          + _miss_count (apply _normalize_query o self)
          = _hit_count self + _miss_count self
            + (if is_get o then 1 else 0))%Z).
    { destruct o as [sql|sql parsed query_type]; cbn [apply is_get].
      - unfold get. destruct (LRUCache.get _ _) as [[r|] c]; cbn; lia.
      - cbn. lia. }
    destruct Hstep as (Hh' & Hm' & Hsum').
    unfold CacheSpec.gets in *. cbn [List.filter].
    destruct (is_get o); cbn [length]; lia.
Qed.

End Fingerprint.

End PlanCacheFacts.

(** X7. The plan cache counts every [get] once, as a hit when the
    fingerprint of the query is cached and as a miss when it is not, and
    [put] counts nothing: after any sequence of calls the two counters
    add up to the number of [get] calls, and the hit ratio lies between
    0 and 1. *)
Theorem plan_cache_counts_gets
  (_normalize_query : string -> string) (max_size : Z)
  (ops : list QueryPlanCache.op) (sql : string) :
  let self :=
    QueryPlanCache.run _normalize_query ops (QueryPlanCache.__init__ max_size) in
  let looked := QueryPlanCache.get _normalize_query sql self in
  (QueryPlanCache._hit_count self + QueryPlanCache._miss_count self
   = CacheSpec.gets ops)%Z
  /\ (0 <= QueryPlanCache._hit_count self)%Z
  /\ (0 <= QueryPlanCache._miss_count self)%Z
  /\ (0 <= QueryPlanCache.hit_ratio self <= 1)%Q
  /\ looked.1
     = LRUCache.getitem (_normalize_query sql)
         (LRUCache._cache (QueryPlanCache._cache self))
  /\ (QueryPlanCache._hit_count looked.2, QueryPlanCache._miss_count looked.2)
     = match looked.1 with
       | Some _ =>
           ((QueryPlanCache._hit_count self + 1)%Z,
            QueryPlanCache._miss_count self)
       | None =>
           (QueryPlanCache._hit_count self,
            (QueryPlanCache._miss_count self + 1)%Z)
       end.
Proof.
  intros self looked.
  destruct (PlanCacheFacts.run_counts _normalize_query ops
              (QueryPlanCache.__init__ max_size)) as (Hh & Hm & Hsum).
  fold self in Hh, Hm, Hsum. cbn in Hh, Hm, Hsum.
  split; [lia|]. split; [done|]. split; [done|]. split; [|split].
  - unfold QueryPlanCache.hit_ratio.
    destruct (0 <? _)%Z eqn:E; [|done].
    apply Z.ltb_lt in E. unfold Qle. cbn. split; [lia|].
    rewrite Z2Pos.id by done. lia.
  - subst looked. unfold QueryPlanCache.get.
    pose proof (CacheFacts.get_value (_normalize_query sql)
                  (QueryPlanCache._cache self)
                  (PlanCacheFacts.plan_run_wf _normalize_query ops
                     (QueryPlanCache.__init__ max_size)
                     (CacheFacts.init_wf max_size))) as Hv.
    destruct (LRUCache.get _ _) as [[r|] c]; by rewrite <- Hv.
  - subst looked. unfold QueryPlanCache.get.
    by destruct (LRUCache.get _ _) as [[r|] c].
Qed.

(** X8. In a plan cache of size one or more, a plan stored for a query is
    found by the next [get] of any query with the same fingerprint, and
    that [get] counts as a hit. *)
Theorem plan_cache_put_get
  (_normalize_query : string -> string) (max_size : Z)
  (ops : list QueryPlanCache.op) (sql sql' parsed : string)
  (query_type : QueryType) :
  (1 <= max_size)%Z ->
  _normalize_query sql' = _normalize_query sql ->
  let self :=
    QueryPlanCache.run _normalize_query ops (QueryPlanCache.__init__ max_size) in
  let stored := QueryPlanCache.put _normalize_query sql parsed query_type self in
  let looked := QueryPlanCache.get _normalize_query sql' stored in
  looked.1 = Some (parsed, query_type)
  /\ QueryPlanCache._hit_count looked.2
     = (QueryPlanCache._hit_count self + 1)%Z
  /\ QueryPlanCache._miss_count looked.2 = QueryPlanCache._miss_count self.
Proof.
  intros Hsize Hkey self stored looked.
  assert (Hwf : CacheSpec.wf (QueryPlanCache._cache self))
    by apply (PlanCacheFacts.plan_run_wf _normalize_query ops
                (QueryPlanCache.__init__ max_size)
                (CacheFacts.init_wf max_size)).
  assert (Hc : LRUCache._capacity (QueryPlanCache._cache self) = max_size)
    by apply (PlanCacheFacts.plan_run_capacity _normalize_query ops
                (QueryPlanCache.__init__ max_size)).
  assert (Hget :
    (LRUCache.get (_normalize_query sql')
       (QueryPlanCache._cache stored)).1 = Some (parsed, query_type)).
  { subst stored. cbn [QueryPlanCache.put QueryPlanCache._cache].
    rewrite Hkey. apply CacheFacts.put_get; [done|lia]. }
  subst looked. unfold QueryPlanCache.get.
  destruct (LRUCache.get _ _) as [r c]. cbn [fst] in Hget. subst r. done.
Qed.

Lemma plan_cache_put_get_witness :
  (QueryPlanCache.get (Str.map Str.upper) "select 1"
     (QueryPlanCache.put (Str.map Str.upper) "SELECT 1" "plan" SELECT
        (QueryPlanCache.run (Str.map Str.upper) []
           (QueryPlanCache.__init__ 1000)))).1 = Some ("plan", SELECT).
Proof.
  apply (plan_cache_put_get (Str.map Str.upper) 1000 [] "SELECT 1" "select 1"
           "plan" SELECT); [lia|reflexivity].
Defined.

(** ** get_metrics *)

Module MetricsFacts.

Import ExecutorMetrics.

Lemma fold_min_le time times :
  (fold_right Z.min time times <= time)%Z
  /\ Forall (fun t => (fold_right Z.min time times <= t)%Z) times.
Proof.
  induction times as [|t times [IH1 IH2]]; cbn [fold_right].
  - split; [lia|constructor].
  - split; [lia|]. constructor; [lia|].
    eapply Forall_impl; [exact IH2|]. cbn. intros. lia.
Qed.

Lemma fold_max_ge time times :
  (time <= fold_right Z.max time times)%Z
  /\ Forall (fun t => (t <= fold_right Z.max time times)%Z) times.
Proof.
  induction times as [|t times [IH1 IH2]]; cbn [fold_right].
  - split; [lia|constructor].
  - split; [lia|]. constructor; [lia|].
    eapply Forall_impl; [exact IH2|]. cbn. intros. lia.
Qed.

(** The minimum and the maximum are among the times. *)
Lemma fold_min_in time times : In (fold_right Z.min time times) (time :: times).
Proof.
  induction times as [|t times IH]; cbn [fold_right]; [by left|].
  destruct (Z.min_spec t (fold_right Z.min time times)) as [[_ ->]|[_ ->]].
  - right. by left.
  - destruct IH as [IH|IH]; [by left|right; by right].
Qed.

Lemma fold_max_in time times : In (fold_right Z.max time times) (time :: times).
Proof.
  induction times as [|t times IH]; cbn [fold_right]; [by left|].
  destruct (Z.max_spec t (fold_right Z.max time times)) as [[_ ->]|[_ ->]].
  - destruct IH as [IH|IH]; [by left|right; by right].
  - right. by left.
Qed.

Lemma summary_bounds times m :
  summary times = Some m ->
  times <> []
  /\ count m = Z.of_nat (length times)
  /\ total_time m = fold_left Z.add times 0%Z
  /\ avg_time m = Qmake (total_time m) (Z.to_pos (count m))
  /\ In (min_time m) times
  /\ In (max_time m) times
  /\ Forall (fun t => (min_time m <= t <= max_time m)%Z) times.
Proof.
  destruct times as [|time times]; [done|]. intros [= <-].
  cbn [count total_time avg_time min_time max_time].
  destruct (fold_min_le time times) as [Hmin Hmins].
  destruct (fold_max_ge time times) as [Hmax Hmaxs].
  repeat split; try done.
  - apply fold_min_in.
  - apply fold_max_in.
  - constructor; [lia|].
    rewrite Forall_forall in *. intros t Ht.
    specialize (Hmins t Ht). specialize (Hmaxs t Ht). cbn in *. lia.
Qed.

End MetricsFacts.

(** X9. [get_metrics] has an entry for a query type exactly when at least
    one time is recorded for it.  In an entry, [count] is the number of
    recorded times, [total_time] their sum, [avg_time] the quotient of
    the two, and [min_time] and [max_time] are recorded times between
    which every recorded time lies. *)
Theorem get_metrics_entry (self : QueryExecutor.t) (name : string) :
  let times := default [] (QueryExecutor._query_metrics self !! name) in
  match ExecutorMetrics.get_metrics self !! name with
  | Some m =>
      times <> []
      /\ ExecutorMetrics.count m = Z.of_nat (length times)
      /\ ExecutorMetrics.total_time m = fold_left Z.add times 0%Z
      /\ ExecutorMetrics.avg_time m
         = Qmake (ExecutorMetrics.total_time m)
             (Z.to_pos (ExecutorMetrics.count m))
      /\ In (ExecutorMetrics.min_time m) times
      /\ In (ExecutorMetrics.max_time m) times
      /\ Forall (fun t => (ExecutorMetrics.min_time m <= t
                           <= ExecutorMetrics.max_time m)%Z) times
  | None => times = []
  end.
Proof.
  intros times. subst times.
  unfold ExecutorMetrics.get_metrics. rewrite lookup_omap.
  destruct (QueryExecutor._query_metrics self !! name) as [times|];
    cbn [mbind option_bind default from_option id]; [|done].
  destruct (ExecutorMetrics.summary times) as [m|] eqn:E.
  - by apply MetricsFacts.summary_bounds.
  - by destruct times.
Qed.

(** ** ConnectionPool *)

Module PoolExtraFacts.

Import ConnectionPool PoolSystem PoolSpec.

Lemma flag_update_eq f w p :
  flag (update f w p) w = ConnectionWrapper._in_use <$> (f <$> heap p !! w).
Proof. unfold flag, update. cbn. by rewrite lookup_alter_eq. Qed.

Lemma flag_update_ne f w w' p : w <> w' -> flag (update f w p) w' = flag p w'.
Proof. intros H. unfold flag, update. cbn. by rewrite lookup_alter_ne. Qed.

Lemma flag_alloc_eq x p :
  flag (alloc x p).2 (next_ref p) = Some (ConnectionWrapper._in_use x).
Proof. unfold flag. cbn. by rewrite lookup_insert_eq. Qed.

Lemma flag_alloc_ne x p w :
  w <> next_ref p -> flag (alloc x p).2 w = flag p w.
Proof. intros H. unfold flag. cbn. by rewrite lookup_insert_ne. Qed.

(** The loop of [initialize], from any pool. *)
Lemma initialize_loop_creates n : forall k fail now p,
  let c :=
    match fail with
    | Some (i, _) => if Nat.ltb i k then n else Nat.min (i - k) n
    | None => n
    end in
  (initialize_loop n k fail now p).1
  = match fail with
    | Some (i, e) =>
        if Nat.leb k i && Nat.ltb i (k + n) then Raise e else Ok tt
    | None => Ok tt
    end
  /\ _pool (initialize_loop n k fail now p).2 = _pool p ++ seq (next_ref p) c
  /\ _in_use (initialize_loop n k fail now p).2 = _in_use p.
Proof.
  induction n as [|n IH]; intros k fail now p c.
  - subst c. cbn [initialize_loop fst snd].
    replace (match fail with
             | Some (i, _) => if Nat.ltb i k then 0 else Nat.min (i - k) 0
             | None => 0
             end) with 0
      by (destruct fail as [[i e]|]; [destruct (Nat.ltb i k)|]; lia).
    cbn [seq]. rewrite app_nil_r. split; [|done].
    destruct fail as [[i e]|]; [|done].
    replace (Nat.ltb i (k + 0)) with (Nat.ltb i k) by (f_equal; lia).
    destruct (Nat.leb_spec k i), (Nat.ltb_spec i k); (done || lia).
  - cbn [initialize_loop].
    destruct fail as [[i e]|].
    + destruct (Nat.eqb_spec i k) as [->|Hne].
      * cbn [_create_connection fst snd]. subst c.
        rewrite Nat.ltb_irrefl, Nat.sub_diag. cbn [Nat.min seq].
        rewrite app_nil_r, Nat.leb_refl.
        replace (Nat.ltb k (k + S n)) with true
          by (symmetry; apply Nat.ltb_lt; lia).
        done.
      * cbn [_create_connection alloc _pool].
        specialize (IH (S k) (Some (i, e)) now
          (set_pool (_pool p ++ [next_ref p])
             (alloc (ConnectionWrapper.__init__ now) p).2)).
        cbv zeta in IH. destruct IH as (IH1 & IH2 & IH3).
        cbn [alloc snd] in IH1, IH2, IH3.
        rewrite IH1, IH2, IH3. cbn [set_pool _pool _in_use next_ref].
        subst c. split; [|split; [|done]].
        -- destruct (Nat.leb_spec k i), (Nat.leb_spec (S k) i),
             (Nat.ltb_spec i (k + S n)), (Nat.ltb_spec i (S k + n));
             (done || lia).
        -- rewrite <- app_assoc. f_equal.
           destruct (Nat.ltb_spec i k), (Nat.ltb_spec i (S k)); try lia.
           ++ done.
           ++ replace (Nat.min (i - k) (S n)) with (S (Nat.min (i - S k) n))
                by lia.
              done.
    + cbn [_create_connection alloc _pool].
      specialize (IH (S k) None now
        (set_pool (_pool p ++ [next_ref p])
           (alloc (ConnectionWrapper.__init__ now) p).2)).
      cbv zeta in IH. destruct IH as (IH1 & IH2 & IH3).
      cbn [alloc snd] in IH1, IH2, IH3.
      rewrite IH1, IH2, IH3. cbn [set_pool _pool _in_use next_ref].
      subst c. rewrite <- app_assoc. done.
Qed.

End PoolExtraFacts.

(** X10. [initialize()] on a fresh pool leaves exactly the wrappers it
    created, in the order of creation, all idle and none in use:
    [min_connections] of them when every connection opens, and those
    before the failing one, with that exception raised, otherwise. *)
Theorem initialize_creates_min_idle
  (min_connections max_connections : nat) (max_idle_time max_connection_age : Z)
  (fail : option (nat * exn)) (now : Z) :
  let p0 := ConnectionPool.__init__ min_connections max_connections
              max_idle_time max_connection_age in
  let done := ConnectionPool.initialize fail now p0 in
  done.1
  = match fail with
    | Some (i, e) => if Nat.ltb i min_connections then Raise e else Ok tt
    | None => Ok tt
    end
  /\ ConnectionPool._pool done.2
     = seq 0 (PoolSpec.created min_connections fail)
  /\ ConnectionPool._in_use done.2 = ∅
  /\ ConnectionPool.stats done.2
     = (PoolSpec.created min_connections fail, 0,
        PoolSpec.created min_connections fail, max_connections).
Proof.
  intros p0 done. subst done. unfold ConnectionPool.initialize.
  change (ConnectionPool._min_connections p0) with min_connections.
  destruct (PoolExtraFacts.initialize_loop_creates min_connections 0 fail now p0)
    as (H1 & H2 & H3).
  cbn [ConnectionPool._pool ConnectionPool._in_use ConnectionPool.next_ref
       ConnectionPool.__init__ p0 app] in H2, H3.
  assert (Hc : match fail with
               | Some (i, _) =>
                   if Nat.ltb i 0 then min_connections
                   else Nat.min (i - 0) min_connections
               | None => min_connections
               end = PoolSpec.created min_connections fail).
  { destruct fail as [[i e]|]; [|done]. cbn. by rewrite Nat.sub_0_r. }
  rewrite Hc in H2.
  assert (Hmax : forall n k f t p,
    ConnectionPool._max_connections (ConnectionPool.initialize_loop n k f t p).2
    = ConnectionPool._max_connections p).
  { induction n as [|n IH]; intros k f t p; [done|].
    cbn [ConnectionPool.initialize_loop].
    destruct (match f with
              | Some (i, e) => if Nat.eqb i k then Raise e else Ok tt
              | None => Ok tt
              end); cbn [ConnectionPool._create_connection]; [|done].
    cbn [ConnectionPool.alloc]. by rewrite IH. }
  split; [|split; [done|split; [done|]]].
  - rewrite H1. destruct fail as [[i e]|]; [|done]. by cbn.
  - unfold ConnectionPool.stats. rewrite H2, H3, length_seq, size_empty, Hmax.
    cbn. by rewrite Nat.add_0_r.
Qed.

Module FlagFacts.

Import ConnectionPool PoolSystem PoolSpec PoolExtraFacts.

Lemma push_flags w p h :
  flags_invariant (System p h) -> flag p w = Some false ->
  flags_invariant (System (set_pool (_pool p ++ [w]) p) h).
Proof.
  intros [[Hp Hu] Hh] Hw. split; [split|]; cbn in *; try done.
  intros x Hx. apply elem_of_app in Hx as [Hx|Hx]; [by apply Hp|].
  apply list_elem_of_singleton in Hx. by subst.
Qed.

(** A new wrapper object leaves the flags of the others alone. *)
Lemma alloc_flags max x p h :
  invariant max (System p h) -> flags_invariant (System p h) ->
  flags_invariant (System (alloc x p).2 h).
Proof.
  intros I [[Hp Hu] Hh].
  assert (Hold : forall w, w ∈ _pool p \/ w ∈ h ->
                           flag (alloc x p).2 w = flag p w).
  { intros w Hw. apply flag_alloc_ne.
    pose proof (inv_allocated _ _ I w Hw). cbn in *. lia. }
  split; [split|]; cbn [pool held] in *.
  - intros w Hw. rewrite Hold by (by left). by apply Hp.
  - intros w Hw. rewrite Hold by (right; by apply (inv_in_use_held _ _ I)).
    by apply Hu.
  - intros w Hw. rewrite Hold by (by right). by apply Hh.
Qed.

Lemma fresh_flags min max idle age :
  flags_invariant (System (__init__ min max idle age) []).
Proof.
  split; [split|]; cbn; intros w Hw;
    (by apply elem_of_nil in Hw) || (by apply not_elem_of_empty in Hw).
Qed.

Lemma initialize_loop_flags max n : forall k fail now p h,
  invariant max (System p h) -> flags_invariant (System p h) ->
  length (_pool p) + n + length h <= max ->
  flags_invariant (System (initialize_loop n k fail now p).2 h).
Proof.
  induction n as [|n IH]; intros k fail now p h I J Hn; [done|].
  cbn [initialize_loop].
  set (connect := match fail with
                  | Some (i, e) => if Nat.eqb i k then Raise e else Ok tt
                  | None => Ok tt
                  end).
  destruct connect; cbn [_create_connection]; [|done].
  destruct (PoolFacts.alloc_fresh _ _ _ I) as [Hp Hh].
  apply IH.
  - apply PoolFacts.push_inv;
      [by apply PoolFacts.alloc_inv|done|done|cbn; lia|cbn; lia].
  - apply push_flags; [by apply (alloc_flags max)|].
    apply flag_alloc_eq.
  - cbn. rewrite length_app. cbn. lia.
Qed.

Lemma start_flags min max idle age init :
  min <= max -> flags_invariant (start min max idle age init).
Proof.
  intros Hle. unfold start. destruct init as [[fail now]|].
  - apply (initialize_loop_flags max);
      [apply PoolFacts.fresh_inv|apply fresh_flags|cbn; lia].
  - apply fresh_flags.
Qed.

Lemma acquire_flags max deadline now connect p h :
  invariant max (System p h) -> flags_invariant (System p h) ->
  match _acquire_wrapper_step deadline now connect p with
  | (Acquired w, p') => flags_invariant (System p' (w :: h))
  | (_, p') => flags_invariant (System p' h)
  end.
Proof.
  intros I J. unfold _acquire_wrapper_step.
  destruct (_closed p) eqn:Hopen; [done|].
  destruct (_pool p) as [|w rest] eqn:E.
  - destruct (Nat.ltb (size (_in_use p)) (_max_connections p)).
    + destruct connect; cbn [_create_connection]; [|done].
      pose proof (alloc_flags max (ConnectionWrapper.__init__ now) p h I J)
        as [[Hp Hu] Hh].
      pose proof (flag_alloc_eq (ConnectionWrapper.__init__ now) p) as Hn.
      destruct (PoolFacts.alloc_fresh _ _ _ I) as [_ Hfresh].
      cbn [alloc snd fst pool held] in *.
      set (p1 := mk _ _ _ _ _ _ _ _ _) in *.
      assert (Hown : flag (update (ConnectionWrapper.mark_in_use now)
                             (next_ref p) p1) (next_ref p) = Some true).
      { rewrite flag_update_eq. unfold flag in Hn.
        destruct (heap p1 !! next_ref p); [done|discriminate]. }
      assert (Hother : forall x, x <> next_ref p ->
        flag (update (ConnectionWrapper.mark_in_use now) (next_ref p) p1) x
        = flag p1 x).
      { intros x Hx. by apply flag_update_ne. }
      split; [split|]; cbn [pool held _pool _in_use set_in_use update
                            set_heap].
      * subst p1. cbn [_pool]. rewrite E. intros x Hx.
        by apply elem_of_nil in Hx.
      * intros x Hx. apply elem_of_union in Hx as [Hx|Hx].
        -- apply elem_of_singleton in Hx. subst x. exact Hown.
        -- destruct (decide (x = next_ref p)) as [->|Hne]; [exact Hown|].
           rewrite <- (Hu x Hx). by apply Hother.
      * intros x Hx. apply elem_of_cons in Hx as [->|Hx].
        -- change (is_Some (flag (update (ConnectionWrapper.mark_in_use now)
                                   (next_ref p) p1) (next_ref p))).
           rewrite Hown. eauto.
        -- assert (x <> next_ref p) by (intros ->; done).
           change (is_Some (flag (update (ConnectionWrapper.mark_in_use now)
                                   (next_ref p) p1) x)).
           rewrite Hother by done. by apply Hh.
    + destruct (truthy deadline); [|done].
      by destruct (default 0 deadline - now <=? 0)%Z.
  - destruct J as [[Hp Hu] Hh]. cbn [pool held] in *.
    pose proof (inv_pool_nodup _ _ I) as Hnd. cbn in Hnd. rewrite E in Hnd, Hp.
    apply NoDup_cons in Hnd as [Hw _].
    set (p1 := set_pool rest p).
    assert (Hown : flag (update (ConnectionWrapper.mark_in_use now) w p1) w
                   = Some true).
    { rewrite flag_update_eq.
      pose proof (Hp w ltac:(by left)) as Hf. unfold flag in Hf.
      change (heap p1) with (heap p).
      destruct (heap p !! w); [done|discriminate]. }
    assert (Hother : forall x, x <> w ->
      flag (update (ConnectionWrapper.mark_in_use now) w p1) x = flag p x).
    { intros x Hx. by rewrite flag_update_ne. }
    split; [split|]; cbn [pool held].
    + intros x Hx.
      change (flag (update (ConnectionWrapper.mark_in_use now) w p1) x
              = Some false).
      change (x ∈ rest) in Hx.
      rewrite Hother by (intros ->; done). apply Hp. by right.
    + intros x Hx.
      change (flag (update (ConnectionWrapper.mark_in_use now) w p1) x
              = Some true).
      change (x ∈ {[w]} ∪ _in_use p) in Hx.
      destruct (decide (x = w)) as [->|Hne]; [exact Hown|].
      rewrite Hother by done. apply Hu.
      apply elem_of_union in Hx as [Hx|Hx]; [|done].
      by apply elem_of_singleton in Hx.
    + intros x Hx.
      change (is_Some (flag (update (ConnectionWrapper.mark_in_use now) w p1) x)).
      destruct (decide (x = w)) as [->|Hne]; [rewrite Hown; eauto|].
      rewrite Hother by done. apply Hh.
      apply elem_of_cons in Hx as [Hx|Hx]; done.
Qed.

Lemma release_flags max w now close connect p h :
  invariant max (System p h) -> flags_invariant (System p h) ->
  w ∈ h ->
  flags_invariant
    (System (_release_wrapper w now close connect p).2 (remove_held w h)).
Proof.
  intros I J Hw.
  pose proof (inv_pool_free _ _ I) as Hfree. cbn in Hfree.
  set (p1 := set_in_use
               (_in_use (update (ConnectionWrapper.mark_available now) w p)
                ∖ {[w]})
               (update (ConnectionWrapper.mark_available now) w p)).
  pose proof (PoolFacts.drop_inv max w _ h
                (PoolFacts.update_inv max
                   (ConnectionWrapper.mark_available now) w p h I)) as I1.
  change (invariant max (System p1 (remove_held w h))) in I1.
  assert (Hown : flag p1 w = Some false).
  { change (flag (update (ConnectionWrapper.mark_available now) w p) w
            = Some false).
    rewrite flag_update_eq. destruct J as [_ Hh].
    destruct (Hh w Hw) as [b Hb]. unfold flag in Hb. cbn in Hb.
    destruct (heap p !! w); [done|discriminate]. }
  assert (Hother : forall x, x <> w -> flag p1 x = flag p x).
  { intros x Hx.
    change (flag (update (ConnectionWrapper.mark_available now) w p) x
            = flag p x).
    by apply flag_update_ne. }
  assert (J1 : flags_invariant (System p1 (remove_held w h))).
  { destruct J as [[Hp Hu] Hh]. cbn [pool held] in *.
    split; [split|]; cbn [pool held].
    - intros x Hx. change (x ∈ _pool p) in Hx.
      rewrite Hother; [by apply Hp|]. intros ->. by apply (Hfree w).
    - intros x Hx. change (x ∈ _in_use p ∖ {[w]}) in Hx.
      apply elem_of_difference in Hx as [Hx Hne].
      rewrite Hother; [by apply Hu|].
      intros ->. apply Hne. by apply elem_of_singleton.
    - intros x Hx. unfold remove_held in Hx.
      apply list_elem_of_filter in Hx as [Hne Hx].
      rewrite Hother by done. by apply Hh. }
  unfold _release_wrapper. cbv zeta. fold p1.
  destruct (age now w p1 <? _max_connection_age p1)%Z.
  - by apply push_flags.
  - destruct close; [|done].
    destruct (Nat.ltb _ _); [|done].
    destruct connect; cbn [_create_connection]; [|done].
    apply push_flags; [by apply (alloc_flags max)|].
    apply flag_alloc_eq.
Qed.

(** The sweep only takes wrappers out of the idle deque. *)
Lemma cleanup_loop_shape to_remove : forall k fail p,
  exists l,
    (cleanup_loop to_remove k fail p).2 = set_pool l p
    /\ sublist l (_pool p).
Proof.
  induction to_remove as [|w to_remove IH]; intros k fail p.
  - exists (_pool p). split; [by destruct p|done].
  - cbn [cleanup_loop].
    destruct (deque_remove w (_pool p)) as [l|] eqn:E.
    + pose proof (PoolFacts.deque_remove_sublist _ _ _ E) as Hl.
      assert (Hrec : exists l',
        (cleanup_loop to_remove (S k) fail (set_pool l p)).2 = set_pool l' p
        /\ sublist l' (_pool p)).
      { destruct (IH (S k) fail (set_pool l p)) as (l' & -> & Hl').
        exists l'. split; [done|]. by etrans. }
      destruct fail as [[i e]|]; [|done].
      destruct (Nat.eqb i k); [|done]. by exists l.
    + exists (_pool p). split; [by destruct p|done].
Qed.

Lemma shrink_flags l p h :
  flags_invariant (System p h) -> sublist l (_pool p) ->
  flags_invariant (System (set_pool l p) h).
Proof.
  intros [[Hp Hu] Hh] Hl. split; [split|]; cbn in *; try done.
  intros x Hx. apply Hp. by apply (elem_of_sublist _ _ _ Hx).
Qed.

Lemma step_flags max ev s s' :
  invariant max s -> flags_invariant s -> step ev s = Some s' ->
  flags_invariant s'.
Proof.
  destruct s as [p h]. intros I J. destruct ev; cbn [step pool held apply].
  - pose proof (acquire_flags max deadline now connect p h I J) as H.
    destruct (_acquire_wrapper_step deadline now connect p) as [[w|e|timed] p'];
      by intros [= <-].
  - case_bool_decide as Hw; [|done]. intros [= <-].
    by apply (release_flags max).
  - intros [= <-]. unfold _cleanup_idle_connections.
    destruct (cleanup_loop_shape
                (List.filter
                   (fun wrapper =>
                      ((_max_idle_time p <? idle_time now wrapper p)%Z
                       || (_max_connection_age p <? age now wrapper p)%Z)
                      && Nat.ltb (_min_connections p) (length (_pool p)))
                   (_pool p)) 0 fail p) as (l & -> & Hl).
    by apply shrink_flags.
  - intros [= <-]. destruct J as [[Hp Hu] Hh]. by split; [split|].
  - destruct (_closed p) eqn:Hclosed; [|done]. intros [= <-].
    assert (flags_invariant (System (set_in_use ∅ (set_pool [] p)) h)).
    { destruct J as [[Hp Hu] Hh]. split; [split|]; cbn in *; try done.
      all: intros w Hw;
        first [by apply elem_of_nil in Hw|by apply not_elem_of_empty in Hw]. }
    unfold close_locked. destruct fail; [|done].
    by destruct (Nat.eqb _ _).
Qed.

Lemma steps_flags max evs : forall s s',
  invariant max s -> flags_invariant s -> steps evs s = Some s' ->
  flags_invariant s'.
Proof.
  induction evs as [|ev evs IH]; intros s s' I J; cbn [steps].
  - by intros [= <-].
  - destruct (step ev s) as [s1|] eqn:E; [|done].
    apply IH.
    + by apply (PoolFacts.step_inv max ev s).
    + by apply (step_flags max ev s).
Qed.

End FlagFacts.

(** X11. In every state the pool reaches (as in C1), the [_in_use] flag
    of a wrapper tells where the wrapper is: it is down on every idle
    wrapper and up on every wrapper of the in-use set. *)
Theorem pool_flags_agree
  (min_connections max_connections : nat) (max_idle_time max_connection_age : Z)
  (init : option (option (nat * exn) * Z))
  (evs : list PoolSystem.event) (s : PoolSystem.system) :
  min_connections <= max_connections ->
  PoolSystem.steps evs
    (PoolSystem.start min_connections max_connections max_idle_time
       max_connection_age init) = Some s ->
  let p := PoolSystem.pool s in
  (forall w, w ∈ ConnectionPool._pool p ->
     exists x, ConnectionPool.heap p !! w = Some x
               /\ ConnectionWrapper._in_use x = false)
  /\ (forall w, w ∈ ConnectionPool._in_use p ->
        exists x, ConnectionPool.heap p !! w = Some x
                  /\ ConnectionWrapper._in_use x = true).
Proof.
  intros Hle Hrun p.
  pose proof (FlagFacts.steps_flags max_connections evs _ s
                (PoolFacts.start_inv _ _ _ _ init Hle)
                (FlagFacts.start_flags _ _ _ _ init Hle) Hrun) as [[Hp Hu] _].
  fold p in Hp, Hu. unfold PoolSpec.flag in *.
  split; intros w Hw; [specialize (Hp w Hw)|specialize (Hu w Hw)];
    destruct (ConnectionPool.heap p !! w) as [x|]; try discriminate;
    exists x; split; [done| |done|]; by injection Hp || by injection Hu.
Qed.

Lemma pool_flags_agree_witness :
  exists s,
    PoolSystem.steps (take 5 Scenario.trace)
      (PoolSystem.start 1 2 300 3600 (Some (None, 0%Z))) = Some s
    /\ (forall w, w ∈ ConnectionPool._in_use (PoolSystem.pool s) ->
          exists x, ConnectionPool.heap (PoolSystem.pool s) !! w = Some x
                    /\ ConnectionWrapper._in_use x = true).
Proof.
  eexists. split; [vm_compute; reflexivity|].
  apply (pool_flags_agree 1 2 300 3600 (Some (None, 0%Z))
           (take 5 Scenario.trace)); [lia | vm_compute; reflexivity].
Defined.

Module SweepFacts.

Import ConnectionPool PoolSpec.

Lemma deque_remove_middle w kept l :
  w ∉ kept -> deque_remove w (kept ++ w :: l) = Some (kept ++ l).
Proof.
  induction kept as [|x kept IH]; intros Hw; cbn [app deque_remove].
  - by rewrite Nat.eqb_refl.
  - apply not_elem_of_cons in Hw as [Hne Hw].
    destruct (Nat.eqb_spec x w); [congruence|]. by rewrite IH.
Qed.

(** Removing, one by one, the wrappers of [l] that pass the test [f]
    leaves those that do not, in their order. *)
Lemma cleanup_loop_filter f l : forall kept k p,
  _pool p = kept ++ l -> NoDup (kept ++ l) ->
  cleanup_loop (List.filter f l) k None p
  = (Ok tt, set_pool (kept ++ List.filter (fun w => negb (f w)) l) p).
Proof.
  induction l as [|x l IH]; intros kept k p Hp Hnd; cbn [List.filter].
  - cbn [cleanup_loop]. rewrite <- Hp. by destruct p.
  - destruct (f x) eqn:Hf; cbn [negb].
    + cbn [cleanup_loop]. rewrite Hp.
      apply NoDup_app in Hnd as (Hk & Hdis & Hl).
      rewrite deque_remove_middle
        by (intros Hx; apply (Hdis x Hx); by left).
      rewrite (IH kept (S k) (set_pool (kept ++ l) p)); [done|done|].
      apply NoDup_app. apply NoDup_cons in Hl as [_ Hl].
      split; [done|]. split; [|done].
      intros y Hy Hy'. apply (Hdis y Hy). by right.
    + rewrite (IH (kept ++ [x]) k p).
      * by rewrite <- app_assoc.
      * by rewrite <- app_assoc.
      * by rewrite <- app_assoc.
Qed.

End SweepFacts.

(** X12. The maintenance sweep (no [close] failing) takes nothing out of
    an idle deque of at most [min_connections] wrappers; out of a longer
    one it takes every wrapper that is idle for too long or too old, and
    leaves the others in their order.  The test on the length is made
    before anything is removed, so the sweep can leave fewer than
    [min_connections] wrappers.  The in-use set is not touched. *)
Theorem sweep_removes_expired
  (p : ConnectionPool.t) (now : Z) :
  NoDup (ConnectionPool._pool p) ->
  let swept := ConnectionPool._cleanup_idle_connections None now p in
  swept.1 = Ok tt
  /\ ConnectionPool._pool swept.2
     = (if Nat.ltb (ConnectionPool._min_connections p)
             (length (ConnectionPool._pool p))
        then List.filter (fun w => negb (PoolSpec.expired now p w))
               (ConnectionPool._pool p)
        else ConnectionPool._pool p)
  /\ ConnectionPool._in_use swept.2 = ConnectionPool._in_use p.
Proof.
  intros Hnd swept. subst swept. unfold ConnectionPool._cleanup_idle_connections.
  fold (PoolSpec.expired now p).
  change (fun wrapper =>
            ((ConnectionPool._max_idle_time p
              <? ConnectionPool.idle_time now wrapper p)%Z
             || (ConnectionPool._max_connection_age p
                 <? ConnectionPool.age now wrapper p)%Z)
            && Nat.ltb (ConnectionPool._min_connections p)
                 (length (ConnectionPool._pool p)))
    with (fun wrapper =>
            PoolSpec.expired now p wrapper
            && Nat.ltb (ConnectionPool._min_connections p)
                 (length (ConnectionPool._pool p))).
  rewrite (SweepFacts.cleanup_loop_filter _ (ConnectionPool._pool p) [] 0 p)
    by done.
  cbn [fst snd app ConnectionPool.set_pool ConnectionPool._pool
       ConnectionPool._in_use].
  split; [done|]. split; [|done].
  destruct (Nat.ltb _ _).
  - apply List.filter_ext. intros w. by rewrite andb_true_r.
  - rewrite <- (List.filter_true (ConnectionPool._pool p)) at 2.
    apply List.filter_ext. intros w. by rewrite andb_false_r.
Qed.

Lemma sweep_removes_expired_witness :
  let p :=
    PoolSystem.run
      [ PoolSystem.EvAcquire None 1 (Ok tt);
        PoolSystem.EvAcquire None 1 (Ok tt);
        PoolSystem.EvRelease 0 2 (Ok tt) (Ok tt);
        PoolSystem.EvRelease 1 2 (Ok tt) (Ok tt) ]
      (ConnectionPool.initialize None 0
         (ConnectionPool.__init__ 1 10 300 3600)).2 in
  ConnectionPool._min_connections p = 1
  /\ ConnectionPool._pool p = [0; 1]
  /\ ConnectionPool._pool
       (ConnectionPool._cleanup_idle_connections None 1000 p).2 = [].
Proof.
  cbv zeta. split; [reflexivity|]. split; [vm_compute; reflexivity|].
  destruct (sweep_removes_expired
              (PoolSystem.run
                 [ PoolSystem.EvAcquire None 1 (Ok tt);
                   PoolSystem.EvAcquire None 1 (Ok tt);
                   PoolSystem.EvRelease 0 2 (Ok tt) (Ok tt);
                   PoolSystem.EvRelease 1 2 (Ok tt) (Ok tt) ]
                 (ConnectionPool.initialize None 0
                    (ConnectionPool.__init__ 1 10 300 3600)).2)
              1000) as (_ & H & _).
  - vm_compute. repeat constructor; intros Hin; inversion Hin; subst;
      match goal with Hx : _ ∈ [] |- _ => inversion Hx end.
  - rewrite H. vm_compute. reflexivity.
Defined.

(** ** ConnectionPool: a wrapper on its way through the pool *)

Module ReleaseFacts.

Import ConnectionPool.

Lemma age_update f w w' now p :
  (forall x, ConnectionWrapper._created_at (f x) = ConnectionWrapper._created_at x) ->
  age now w (update f w' p) = age now w p.
Proof.
  intros Hf. unfold age, update. cbn [heap set_heap].
  destruct (decide (w' = w)) as [->|Hne].
  - rewrite lookup_alter_eq. destruct (heap p !! w) as [x|]; cbn; [|done].
    unfold ConnectionWrapper.age. by rewrite Hf.
  - by rewrite lookup_alter_ne.
Qed.

Lemma age_lookup now w p cw :
  heap p !! w = Some cw ->
  age now w p = (now - ConnectionWrapper._created_at cw)%Z.
Proof. intros H. unfold age. by rewrite H. Qed.

(** The age that [_release_wrapper] tests, after its first two
    statements. *)
Lemma release_age wrapper now p cw s :
  heap p !! wrapper = Some cw ->
  age now wrapper
    (set_in_use s (update (ConnectionWrapper.mark_available now) wrapper p))
  = (now - ConnectionWrapper._created_at cw)%Z.
Proof.
  intros H.
  change (age now wrapper (set_in_use ?s ?q)) with (age now wrapper q).
  rewrite age_update by done. by apply age_lookup.
Qed.

Lemma alter_alter_lookup (f g : ConnectionWrapper.t -> ConnectionWrapper.t)
  (w : wref) (h : gmap wref ConnectionWrapper.t) cw :
  h !! w = Some cw -> alter f w (alter g w h) = <[w := f (g cw)]> h.
Proof.
  intros H. apply map_eq. intros i. destruct (decide (w = i)) as [->|Hne].
  - by rewrite lookup_insert_eq, !lookup_alter_eq, H.
  - by rewrite lookup_insert_ne, !lookup_alter_ne.
Qed.

End ReleaseFacts.

(** X13. An open pool hands out the wrapper at the head of the idle deque
    without opening a connection, and the release of that wrapper, while
    it is younger than [max_connection_age], puts it at the tail: the
    other idle wrappers keep their order, the set in use is as before,
    and the wrapper has one more query counted and the time of the
    release as its last use. *)
Theorem acquire_release_cycles_idle
  (p : ConnectionPool.t) (w : wref) (rest : list wref)
  (cw : ConnectionWrapper.t) (deadline : option Z) (now1 now2 : Z)
  (connect close connect' : result unit) :
  ConnectionPool._closed p = false ->
  ConnectionPool._pool p = w :: rest ->
  ConnectionPool.heap p !! w = Some cw ->
  (now2 - ConnectionWrapper._created_at cw
   < ConnectionPool._max_connection_age p)%Z ->
  let taken := ConnectionPool._acquire_wrapper_step deadline now1 connect p in
  let back := ConnectionPool._release_wrapper w now2 close connect' taken.2 in
  taken.1 = ConnectionPool.Acquired w
  /\ ConnectionPool._pool taken.2 = rest
  /\ ConnectionPool._in_use taken.2 = {[w]} ∪ ConnectionPool._in_use p
  /\ back.1 = Ok tt
  /\ ConnectionPool._pool back.2 = rest ++ [w]
  /\ ConnectionPool._in_use back.2 = ConnectionPool._in_use p ∖ {[w]}
  /\ ConnectionPool.heap back.2
     = <[w := ConnectionWrapper.mk false (ConnectionWrapper._created_at cw)
               now2 (ConnectionWrapper._query_count cw + 1)]>
         (ConnectionPool.heap p)
  /\ ConnectionPool.next_ref back.2 = ConnectionPool.next_ref p.
Proof.
  intros Hopen Hpool Hw Hage taken back.
  assert (Ht : taken
    = (ConnectionPool.Acquired w,
       ConnectionPool.set_in_use ({[w]} ∪ ConnectionPool._in_use p)
         (ConnectionPool.update (ConnectionWrapper.mark_in_use now1) w
            (ConnectionPool.set_pool rest p)))).
  { subst taken. unfold ConnectionPool._acquire_wrapper_step.
    by rewrite Hopen, Hpool. }
  subst back. rewrite Ht. cbn [fst snd].
  split; [done|]. split; [done|]. split; [done|].
  unfold ConnectionPool._release_wrapper. cbv zeta.
  rewrite (ReleaseFacts.release_age w now2 _
             (ConnectionWrapper.mark_in_use now1 cw)).
  2:{ cbn. by rewrite lookup_alter_eq, Hw. }
  cbn [ConnectionWrapper.mark_in_use ConnectionWrapper._created_at].
  replace (_ <? _)%Z with true by (symmetry; apply Z.ltb_lt; cbn; lia).
  cbn. split; [done|]. split; [done|]. split; [|split; [|done]].
  - apply set_eq. intros x.
    rewrite !elem_of_difference, elem_of_union. tauto.
  - by rewrite (ReleaseFacts.alter_alter_lookup _ _ w _ cw).
Qed.

Lemma acquire_release_cycles_idle_witness :
  let p := (ConnectionPool.initialize None 0 Scenario.fresh_pool).2 in
  ConnectionPool._pool p = [0; 1]
  /\ ConnectionPool._pool
       (ConnectionPool._release_wrapper 0 7 (Ok tt) (Ok tt)
          (ConnectionPool._acquire_wrapper_step None 5 (Ok tt) p).2).2
     = [1; 0].
Proof.
  split; [reflexivity|].
  apply (acquire_release_cycles_idle
           (ConnectionPool.initialize None 0 Scenario.fresh_pool).2
           0 [1] (ConnectionWrapper.__init__ 0) None 5 7 (Ok tt) (Ok tt)
           (Ok tt)); [reflexivity|reflexivity|reflexivity|vm_compute; reflexivity].
Defined.

(** X14. After [close()] the pool reports no wrapper at all and turns
    every acquisition away with the message of a closed pool, whatever
    the deadline; [_release_wrapper] does not look at the closed flag: a
    caller that gives back a wrapper younger than [max_connection_age]
    after the close puts it into the idle deque of the closed pool, from
    where no acquisition takes it. *)
Theorem closed_pool_refuses_and_takes_back
  (p : ConnectionPool.t) (w : wref) (cw : ConnectionWrapper.t) (now : Z)
  (close connect : result unit) :
  ConnectionPool.heap p !! w = Some cw ->
  (now - ConnectionWrapper._created_at cw
   < ConnectionPool._max_connection_age p)%Z ->
  let closed :=
    (ConnectionPool.close_locked None (ConnectionPool.close_mark p)).2 in
  let back := ConnectionPool._release_wrapper w now close connect closed in
  let refused (q : ConnectionPool.t) :=
    forall deadline t con,
      ConnectionPool._acquire_wrapper_step deadline t con q
      = (ConnectionPool.Failed (ConnectionPoolExhausted "Pool is closed"), q) in
  ConnectionPool.stats closed = (0, 0, 0, ConnectionPool._max_connections p)
  /\ refused closed
  /\ back.1 = Ok tt
  /\ ConnectionPool._pool back.2 = [w]
  /\ ConnectionPool._in_use back.2 = ∅
  /\ refused back.2.
Proof.
  intros Hw Hage closed back refused.
  assert (Hback : back
    = (Ok tt,
       ConnectionPool.set_pool [w]
         (ConnectionPool.set_in_use (∅ ∖ {[w]})
            (ConnectionPool.update (ConnectionWrapper.mark_available now) w
               closed)))).
  { subst back. unfold ConnectionPool._release_wrapper. cbv zeta.
    rewrite (ReleaseFacts.release_age w now closed cw) by done.
    replace (_ <? _)%Z with true by (symmetry; apply Z.ltb_lt; cbn; lia).
    done. }
  rewrite Hback. cbn [fst snd].
  split; [|split; [|split; [|split; [|split]]]]; try done.
  cbn. apply set_eq. intros x. rewrite elem_of_difference.
  split; [by intros [? _]|done].
Qed.

Lemma closed_pool_refuses_and_takes_back_witness :
  let p :=
    (ConnectionPool._acquire_wrapper_step None 1 (Ok tt)
       (ConnectionPool.initialize None 0 Scenario.fresh_pool).2).2 in
  ConnectionPool.stats p = (1, 1, 2, 10)
  /\ ConnectionPool._pool
       (ConnectionPool._release_wrapper 0 9 (Ok tt) (Ok tt)
          (ConnectionPool.close_locked None (ConnectionPool.close_mark p)).2).2
     = [0].
Proof.
  split; [vm_compute; reflexivity|].
  apply (closed_pool_refuses_and_takes_back
           (ConnectionPool._acquire_wrapper_step None 1 (Ok tt)
              (ConnectionPool.initialize None 0 Scenario.fresh_pool).2).2
           0 (ConnectionWrapper.mk true 0 1 1) 9 (Ok tt) (Ok tt));
    vm_compute; reflexivity.
Defined.

(** X15. A wrapper that has reached [max_connection_age] when it is given
    back does not return to the idle deque, whatever becomes of closing
    its connection; when the close goes through, one new wrapper takes
    its place exactly if the pool would otherwise hold fewer than
    [min_connections] wrappers. *)
Theorem aged_release_retires
  (p : ConnectionPool.t) (w : wref) (cw : ConnectionWrapper.t) (now : Z)
  (close connect : result unit) :
  ConnectionPool.heap p !! w = Some cw ->
  (ConnectionPool._max_connection_age p
   <= now - ConnectionWrapper._created_at cw)%Z ->
  (w ∉ ConnectionPool._pool p) ->
  w < ConnectionPool.next_ref p ->
  let back := ConnectionPool._release_wrapper w now close connect p in
  let fewer :=
    Nat.ltb (length (ConnectionPool._pool p)
             + size (ConnectionPool._in_use p ∖ {[w]}))
      (ConnectionPool._min_connections p) in
  (w ∉ ConnectionPool._pool back.2)
  /\ ConnectionPool._in_use back.2 = ConnectionPool._in_use p ∖ {[w]}
  /\ (close = Ok tt -> connect = Ok tt ->
      back.1 = Ok tt
      /\ ConnectionPool._pool back.2
         = (if fewer
            then ConnectionPool._pool p ++ [ConnectionPool.next_ref p]
            else ConnectionPool._pool p))
  /\ (forall e, close = Raise e ->
      back.1 = Raise e
      /\ ConnectionPool._pool back.2 = ConnectionPool._pool p).
Proof.
  intros Hw Hage Hidle Hfresh back fewer. subst back fewer.
  unfold ConnectionPool._release_wrapper. cbv zeta.
  rewrite (ReleaseFacts.release_age w now p cw) by done.
  replace (_ <? _)%Z with false by (symmetry; apply Z.ltb_ge; cbn; lia).
  cbn [ConnectionPool._pool ConnectionPool._in_use ConnectionPool.set_in_use
       ConnectionPool.update ConnectionPool.set_heap
       ConnectionPool._min_connections].
  destruct close as [[]|e].
  - destruct (Nat.ltb _ _).
    + destruct connect as [[]|e'];
        cbn [ConnectionPool._create_connection ConnectionPool.alloc fst snd
             ConnectionPool._pool ConnectionPool._in_use
             ConnectionPool.set_pool ConnectionPool.next_ref].
      * split; [|split; [done|split; [done|done]]].
        rewrite elem_of_app, list_elem_of_singleton.
        intros [?|Heq]; [done|]. cbn in Heq. lia.
      * split; [done|]. split; [done|]. split; [done|done].
    + cbn. split; [done|]. split; [done|]. split; [done|done].
  - cbn. split; [done|]. split; [done|]. split; [done|].
    intros e' [= ->]. done.
Qed.

Lemma aged_release_retires_witness :
  let p :=
    (ConnectionPool._acquire_wrapper_step None 1 (Ok tt)
       (ConnectionPool._acquire_wrapper_step None 1 (Ok tt)
          (ConnectionPool.initialize None 0 Scenario.fresh_pool).2).2).2 in
  ConnectionPool.stats p = (0, 2, 2, 10)
  /\ ConnectionPool._pool
       (ConnectionPool._release_wrapper 0 3600 (Ok tt) (Ok tt) p).2 = [2].
Proof.
  split; [vm_compute; reflexivity|].
  destruct (aged_release_retires
              (ConnectionPool._acquire_wrapper_step None 1 (Ok tt)
                 (ConnectionPool._acquire_wrapper_step None 1 (Ok tt)
                    (ConnectionPool.initialize None 0 Scenario.fresh_pool).2).2).2
              0 (ConnectionWrapper.mk true 0 1 1) 3600 (Ok tt) (Ok tt))
    as (_ & _ & H & _).
  - vm_compute. reflexivity.
  - vm_compute. discriminate.
  - vm_compute. intros Hin. inversion Hin.
  - vm_compute. lia.
  - destruct (H eq_refl eq_refl) as [_ ->]. vm_compute. reflexivity.
Defined.

(** ** QueryExecutor: the calls of a run, and what it records *)

Module RunFacts.

Import QueryAnalyzer QueryExecutor ExecutorSpec RunSpec.

Lemma fetch_loop_on_connection request cancel_at conn fetches :
  forall k rows row_count,
    Forall (fun ef => on_connection conn ef = true)
      (fetch_loop request cancel_at conn k fetches rows row_count).2.
Proof.
  assert (Hone : forall size,
    Forall (fun ef => on_connection conn ef = true)
      [CursorFetchmany conn size]).
  { intros size. constructor; [|constructor]. cbn. apply Nat.eqb_refl. }
  induction fetches as [|f fetches IH]; intros k rows row_count;
    cbn [fetch_loop]; destruct (is_set cancel_at k); try by constructor.
  - cbn. apply Hone.
  - destruct f as [[|r batch]|e]; [cbn; apply Hone| |cbn; apply Hone].
    rewrite ConnectionFacts.bind_call.
    destruct (collect _ _ _ _) as [rows' row_count'].
    destruct (limit_reached _ _); cbn [snd ret]; [apply Hone|].
    constructor; [cbn; apply Nat.eqb_refl|apply IH].
Qed.

Lemma with_connection_on_connection request sc query_type warnings conn :
  Forall (fun ef => on_connection conn ef = true)
    (with_connection request sc query_type warnings conn).2.
Proof.
  unfold with_connection. destruct (is_set (cancel_at sc) 0); [constructor|].
  assert (Hrest : Forall (fun ef => on_connection conn ef = true)
    (let* cursor :=
       call (ConnExecute conn (QueryRequest.sql request)
               (QueryRequest.params request)) (execute_outcome sc) in
     if bool_decide (query_type = SELECT) then
       let columns := default [] (description cursor) in
       let* (rows, row_count) :=
          fetch_loop request (cancel_at sc) conn 1 (fetches cursor) [] 0 in
       ret (QueryResult.mk (QueryRequest.query_id request) SUCCESS rows columns
              row_count 0 None (perf_result sc - perf_start sc) query_type
              None warnings (QueryRequest.metadata request))
     else
       let* _ := call (ConnCommit conn) (commit_outcome sc) in
       ret (QueryResult.mk (QueryRequest.query_id request) SUCCESS [] []
              0 (rowcount cursor) (lastrowid cursor)
              (perf_result sc - perf_start sc) query_type
              None warnings (QueryRequest.metadata request))).2).
  { rewrite ConnectionFacts.bind_call.
    destruct (execute_outcome sc) as [cursor|e]; cbn [snd];
      (constructor; [cbn; apply Nat.eqb_refl|]); [|constructor].
    destruct (bool_decide (query_type = SELECT)).
    - pose proof (fetch_loop_on_connection request (cancel_at sc) conn
                    (fetches cursor) 1 [] 0%Z) as H.
      destruct (fetch_loop _ _ _ _ _ _ _) as [[[rows rc]|e] log];
        cbn [bind ret snd] in *; by rewrite ?app_nil_r.
    - rewrite ConnectionFacts.bind_call.
      destruct (commit_outcome sc); cbn [snd ret];
        (constructor; [cbn; apply Nat.eqb_refl|constructor]). }
  destruct (IsolationLevel_value _) as [v|].
  - rewrite ConnectionFacts.bind_call.
    destruct (begin_outcome sc) as [[]|e]; cbn [snd];
      (constructor; [cbn; apply Nat.eqb_refl|]); [exact Hrest|constructor].
  - cbn [bind ret] in *.
    destruct (let* cursor := _ in _) as [r log]. by cbn in *.
Qed.

(** The executor after a run that got a wrapper. *)
Lemma execute_acquired_executor self p request sc w p1 :
  rejected request = false ->
  _acquire_wrapper (QueryRequest.timeout request) sc p = (Got w, p1) ->
  executor (execute self p request sc)
  = unregister (QueryRequest.query_id request)
      match (with_connection request sc
               (determine_type (QueryRequest.sql request))
               (validate_security (QueryRequest.sql request) false) w).1 with
      | Ok _ =>
          record_metric
            (QueryType_name (determine_type (QueryRequest.sql request)))
            (perf_metrics sc - perf_start sc)
            (register (QueryRequest.query_id request) self)
      | Raise _ => register (QueryRequest.query_id request) self
      end.
Proof.
  unfold rejected. intros H E. unfold execute, try_block. rewrite H, E.
  cbv zeta.
  destruct (with_connection _ _ _ _ _) as [r log].
  by destruct (ConnectionPool._release_wrapper _ _ _ _ _) as [[[]|e] p2].
Qed.

Lemma handler_not_success request sc e r :
  handler request sc e = Ok r -> QueryResult.status r <> SUCCESS.
Proof. destruct e; intros [= <-]; done. Qed.

(** What a result of the body carries over from the request. *)
Lemma with_connection_fields request sc query_type warnings conn r log :
  with_connection request sc query_type warnings conn = (Ok r, log) ->
  QueryResult.query_id r = QueryRequest.query_id request
  /\ QueryResult.query_type r = query_type
  /\ QueryResult.warnings r = warnings
  /\ QueryResult.metadata r = QueryRequest.metadata request.
Proof.
  unfold with_connection. destruct (is_set (cancel_at sc) 0); [done|].
  intros H. apply ExecutorFacts.bind_ok in H as (_ & l1 & l2 & _ & H & _).
  apply ExecutorFacts.bind_ok in H as (cursor & l3 & l4 & _ & H & _).
  destruct (bool_decide (query_type = SELECT)).
  - apply ExecutorFacts.bind_ok in H as ([rows row_count] & l5 & l6 & _ & H & _).
    by injection H as <- _.
  - apply ExecutorFacts.bind_ok in H as (_ & l5 & l6 & _ & H & _).
    by injection H as <- _.
Qed.

(** The body up to the statement, when nobody cancelled and the BEGIN
    went through. *)
Lemma with_connection_statement request sc query_type warnings conn :
  is_set (cancel_at sc) 0 = false ->
  begin_outcome sc = Ok tt ->
  with_connection request sc query_type warnings conn
  = let rest :=
      match execute_outcome sc with
      | Raise e => (Raise e, [])
      | Ok cursor =>
          if bool_decide (query_type = SELECT) then
            let* (rows, row_count) :=
               fetch_loop request (cancel_at sc) conn 1 (fetches cursor) [] 0 in
            ret (QueryResult.mk (QueryRequest.query_id request) SUCCESS rows
                   (default [] (description cursor))
                   row_count 0 None (perf_result sc - perf_start sc) query_type
                   None warnings (QueryRequest.metadata request))
          else
            let* _ := call (ConnCommit conn) (commit_outcome sc) in
            ret (QueryResult.mk (QueryRequest.query_id request) SUCCESS [] []
                   0 (rowcount cursor) (lastrowid cursor)
                   (perf_result sc - perf_start sc) query_type
                   None warnings (QueryRequest.metadata request))
      end in
    (rest.1,
     begin_calls request conn
     ++ ConnExecute conn (QueryRequest.sql request)
          (QueryRequest.params request) :: rest.2).
Proof.
  intros Hc Hb. unfold with_connection, begin_calls. rewrite Hc, Hb.
  destruct (IsolationLevel_value _) as [v|]; cbn [call ret bind app];
    (destruct (execute_outcome sc) as [cursor|e]; [|done]);
    by destruct (if bool_decide _ then _ else _) as [r log].
Qed.

Lemma release_not_in_use w now close connect p :
  w ∉ ConnectionPool._in_use
        (ConnectionPool._release_wrapper w now close connect p).2.
Proof.
  unfold ConnectionPool._release_wrapper. cbv zeta.
  assert (Hout : forall s : gset wref, w ∉ s ∖ {[w]}).
  { intros s. rewrite elem_of_difference, elem_of_singleton. tauto. }
  destruct (_ <? _)%Z; [apply Hout|].
  destruct close as [[]|e]; [|apply Hout].
  destruct (Nat.ltb _ _); [|apply Hout].
  destruct connect as [[]|e]; apply Hout.
Qed.

End RunFacts.

(** X16. Every call of a run of [execute] on the pool or on a connection
    lies between one acquisition and the release of the wrapper that the
    acquisition gave, and is made on the connection of that wrapper; a
    run that got no wrapper makes no call at all.  After the release the
    wrapper is not in the set in use. *)
Theorem execute_calls_bracketed
  (self : QueryExecutor.t) (p : ConnectionPool.t) (request : QueryRequest.t)
  (sc : Script) :
  let run := QueryExecutor.execute self p request sc in
  QueryExecutor.effects run = []
  \/ exists w log,
       QueryExecutor.effects run = PoolAcquire w :: log ++ [PoolRelease w]
       /\ Forall (fun ef => RunSpec.on_connection w ef = true) log
       /\ (w ∉ ConnectionPool._in_use (QueryExecutor.pool run))
       /\ is_Some (QueryExecutor.outcome run).
Proof.
  intros run. subst run.
  destruct (ExecutorSpec.rejected request) eqn:Hrej.
  { left. by rewrite ExecutorFacts.execute_rejected. }
  destruct (QueryExecutor._acquire_wrapper (QueryRequest.timeout request) sc p)
    as [[w|e|] p1] eqn:E.
  - right.
    destruct (ExecutorFacts.execute_acquired self p request sc w p1 Hrej E)
      as (Ho & He & Hp).
    eexists w, _. split; [exact He|]. split; [|split].
    + apply RunFacts.with_connection_on_connection.
    + rewrite Hp. apply RunFacts.release_not_in_use.
    + rewrite Ho. eauto.
  - left. by rewrite (ExecutorFacts.execute_not_acquired self p request sc e p1).
  - left. by rewrite (ExecutorFacts.execute_blocked self p request sc p1).
Qed.

(** X17. A statement that is not a SELECT, run on a wrapper the pool gave
    while nothing fails and nobody cancels: the calls are the acquisition,
    the BEGIN of the isolation mode if the level has one, the statement,
    a commit, the release; the result is a SUCCESS without rows whose
    [affected_rows] and [last_row_id] are [rowcount] and [lastrowid] of
    the cursor, with the warnings of [validate_security]; and the time is
    recorded under the name of the type. *)
Theorem execute_write_commits
  (self : QueryExecutor.t) (p : ConnectionPool.t) (request : QueryRequest.t)
  (sc : Script) (w : wref) (p1 : ConnectionPool.t) (cursor : Cursor) :
  let query_type := QueryAnalyzer.determine_type (QueryRequest.sql request) in
  ExecutorSpec.rejected request = false ->
  query_type <> SELECT ->
  QueryExecutor._acquire_wrapper (QueryRequest.timeout request) sc p
  = (QueryExecutor.Got w, p1) ->
  QueryExecutor.is_set (cancel_at sc) 0 = false ->
  begin_outcome sc = Ok tt ->
  execute_outcome sc = Ok cursor ->
  commit_outcome sc = Ok tt ->
  (ConnectionPool._release_wrapper w (mono_release sc) (release_close sc)
     (release_connect sc) (PoolSystem.run (during sc) p1)).1 = Ok tt ->
  let run := QueryExecutor.execute self p request sc in
  QueryExecutor.outcome run
  = Some (Ok (QueryResult.mk (QueryRequest.query_id request) SUCCESS [] [] 0
                (rowcount cursor) (lastrowid cursor)
                (perf_result sc - perf_start sc) query_type None
                (QueryAnalyzer.validate_security (QueryRequest.sql request)
                   false)
                (QueryRequest.metadata request)))
  /\ QueryExecutor.effects run
     = [PoolAcquire w] ++ RunSpec.begin_calls request w
       ++ [ConnExecute w (QueryRequest.sql request)
             (QueryRequest.params request);
           ConnCommit w; PoolRelease w]
  /\ QueryExecutor._query_metrics (QueryExecutor.executor run)
       !! QueryType_name query_type
     = Some (RunSpec.recorded self request sc).
Proof.
  intros query_type Hrej Hq Ea Hc Hb He Hcm Hrel run. subst run.
  destruct (ExecutorFacts.execute_acquired self p request sc w p1 Hrej Ea)
    as (Ho & Hef & _).
  pose proof (RunFacts.execute_acquired_executor self p request sc w p1
                Hrej Ea) as Hex.
  fold query_type in Ho, Hef, Hex.
  rewrite (RunFacts.with_connection_statement request sc query_type _ w Hc Hb)
    in Ho, Hef, Hex.
  rewrite He, bool_decide_eq_false_2, Hcm in Ho, Hef, Hex by done.
  cbn [call ret bind fst snd app] in Ho, Hef, Hex.
  destruct (ConnectionPool._release_wrapper _ _ _ _ _) as [[[]|e] p2];
    [|done].
  cbn [fst] in Ho. split; [exact Ho|]. split.
  - rewrite Hef. cbn [app]. by rewrite <- app_assoc.
  - rewrite Hex. cbn. by rewrite lookup_insert_eq.
Qed.

Lemma execute_write_commits_witness :
  let run :=
    QueryExecutor.execute QueryExecutor.__init__ Scenario.fresh_pool
      (Scenario.request "INSERT INTO t VALUES (7)" false None)
      (Scenario.script None
         {| description := None; fetches := []; rowcount := 1;
            lastrowid := Some 7%Z |}) in
  QueryExecutor.effects run
  = [ PoolAcquire 0;
      ConnExecute 0 "BEGIN DEFERRED" [];
      ConnExecute 0 "INSERT INTO t VALUES (7)" [];
      ConnCommit 0;
      PoolRelease 0 ].
Proof.
  destruct (execute_write_commits QueryExecutor.__init__ Scenario.fresh_pool
              (Scenario.request "INSERT INTO t VALUES (7)" false None)
              (Scenario.script None
                 {| description := None; fetches := []; rowcount := 1;
                    lastrowid := Some 7%Z |})
              0
              (ConnectionPool._acquire_wrapper_step None 0 (Ok tt)
                 Scenario.fresh_pool).2
              {| description := None; fetches := []; rowcount := 1;
                 lastrowid := Some 7%Z |})
    as (_ & H & _); [vm_compute; reflexivity|vm_compute; discriminate|..|exact H];
    vm_compute; reflexivity.
Defined.

(** X18. When the statement itself raises, on a wrapper the pool gave and
    after a BEGIN that went through, nothing more is called on the
    connection: no fetch, no commit, no rollback; the wrapper is given
    back, the caller gets the result the [except] clauses make of the
    exception, and no time is recorded. *)
Theorem execute_statement_error
  (self : QueryExecutor.t) (p : ConnectionPool.t) (request : QueryRequest.t)
  (sc : Script) (w : wref) (p1 : ConnectionPool.t) (e : exn) :
  ExecutorSpec.rejected request = false ->
  QueryExecutor._acquire_wrapper (QueryRequest.timeout request) sc p
  = (QueryExecutor.Got w, p1) ->
  QueryExecutor.is_set (cancel_at sc) 0 = false ->
  begin_outcome sc = Ok tt ->
  execute_outcome sc = Raise e ->
  (ConnectionPool._release_wrapper w (mono_release sc) (release_close sc)
     (release_connect sc) (PoolSystem.run (during sc) p1)).1 = Ok tt ->
  let run := QueryExecutor.execute self p request sc in
  QueryExecutor.outcome run = Some (QueryExecutor.handler request sc e)
  /\ (forall msg, e = DriverError msg ->
      QueryExecutor.outcome run
      = Some (Ok (QueryExecutor.failure request sc ERROR msg)))
  /\ QueryExecutor.effects run
     = [PoolAcquire w] ++ RunSpec.begin_calls request w
       ++ [ConnExecute w (QueryRequest.sql request)
             (QueryRequest.params request);
           PoolRelease w]
  /\ QueryExecutor._query_metrics (QueryExecutor.executor run)
     = QueryExecutor._query_metrics self.
Proof.
  intros Hrej Ea Hc Hb He Hrel run. subst run.
  destruct (ExecutorFacts.execute_acquired self p request sc w p1 Hrej Ea)
    as (Ho & Hef & _).
  pose proof (RunFacts.execute_acquired_executor self p request sc w p1
                Hrej Ea) as Hex.
  rewrite (RunFacts.with_connection_statement request sc _ _ w Hc Hb)
    in Ho, Hef, Hex.
  rewrite He in Ho, Hef, Hex.
  cbn [fst snd app] in Ho, Hef, Hex.
  destruct (ConnectionPool._release_wrapper _ _ _ _ _) as [[[]|e'] p2];
    [|done].
  cbn [fst] in Ho. split; [exact Ho|]. split; [|split].
  - intros msg ->. exact Ho.
  - rewrite Hef. cbn [app]. by rewrite <- app_assoc.
  - by rewrite Hex.
Qed.

Lemma execute_statement_error_witness :
  let run :=
    QueryExecutor.execute QueryExecutor.__init__ Scenario.fresh_pool
      (Scenario.request "SELECT * FROM missing" false None)
      {| perf_start := 0; perf_result := 3; perf_metrics := 4;
         mono_deadline := 0; mono_acquire := 0;
         acquire_connect := Ok tt; wakes := []; cancel_at := None;
         begin_outcome := Ok tt;
         execute_outcome := Raise (DriverError "no such table: missing");
         commit_outcome := Ok tt; during := []; mono_release := 5;
         release_close := Ok tt; release_connect := Ok tt |} in
  exists r,
    QueryExecutor.outcome run = Some (Ok r)
    /\ QueryResult.status r = ERROR
    /\ QueryResult.error r = Some "no such table: missing".
Proof.
  destruct (execute_statement_error QueryExecutor.__init__ Scenario.fresh_pool
              (Scenario.request "SELECT * FROM missing" false None)
              {| perf_start := 0; perf_result := 3; perf_metrics := 4;
                 mono_deadline := 0; mono_acquire := 0;
                 acquire_connect := Ok tt; wakes := []; cancel_at := None;
                 begin_outcome := Ok tt;
                 execute_outcome := Raise (DriverError "no such table: missing");
                 commit_outcome := Ok tt; during := []; mono_release := 5;
                 release_close := Ok tt; release_connect := Ok tt |}
              0
              (ConnectionPool._acquire_wrapper_step None 0 (Ok tt)
                 Scenario.fresh_pool).2
              (DriverError "no such table: missing"))
    as (_ & H & _);
    [..|eexists; split; [apply (H _ eq_refl)|]; split; reflexivity];
    vm_compute; reflexivity.
Defined.

(** X19. A SUCCESS comes only out of the body of the [async with]: the
    result carries the id and the metadata of the request, the type and
    the warnings the analyzer gave, and no error, and the run has added
    its time to the list under the name of the type, so that
    [get_metrics] counts one more. *)
Theorem success_is_recorded
  (self : QueryExecutor.t) (p : ConnectionPool.t) (request : QueryRequest.t)
  (sc : Script) (r : QueryResult.t) :
  let run := QueryExecutor.execute self p request sc in
  let name :=
    QueryType_name (QueryAnalyzer.determine_type (QueryRequest.sql request)) in
  QueryExecutor.outcome run = Some (Ok r) ->
  QueryResult.status r = SUCCESS ->
  QueryExecutor._query_metrics (QueryExecutor.executor run)
  = <[name := RunSpec.recorded self request sc]>
      (QueryExecutor._query_metrics self)
  /\ ExecutorMetrics.count
       <$> ExecutorMetrics.get_metrics (QueryExecutor.executor run) !! name
     = Some (1 + Z.of_nat
                   (length (default []
                              (QueryExecutor._query_metrics self !! name))))%Z
  /\ QueryResult.query_id r = QueryRequest.query_id request
  /\ QueryResult.query_type r
     = QueryAnalyzer.determine_type (QueryRequest.sql request)
  /\ QueryResult.warnings r
     = QueryAnalyzer.validate_security (QueryRequest.sql request) false
  /\ QueryResult.error r = None
  /\ QueryResult.metadata r = QueryRequest.metadata request.
Proof.
  intros run name Hout Hs. subst run.
  destruct (ExecutorSpec.rejected request) eqn:Hrej.
  { rewrite ExecutorFacts.execute_rejected in Hout by done.
    injection Hout as <-. done. }
  destruct (QueryExecutor._acquire_wrapper (QueryRequest.timeout request) sc p)
    as [[w|e|] p1] eqn:E.
  - destruct (ExecutorFacts.execute_acquired self p request sc w p1 Hrej E)
      as (Ho & _ & _).
    pose proof (RunFacts.execute_acquired_executor self p request sc w p1
                  Hrej E) as Hex.
    rewrite Ho in Hout.
    destruct (ConnectionPool._release_wrapper _ _ _ _ _) as [[[]|e] p2];
      cbn [fst] in Hout.
    2:{ injection Hout as Hout.
        by apply RunFacts.handler_not_success in Hout. }
    destruct (QueryExecutor.with_connection _ _ _ _ _) as [[r'|e] log] eqn:Eb;
      cbn [fst] in Hout, Hex.
    2:{ injection Hout as Hout.
        by apply RunFacts.handler_not_success in Hout. }
    injection Hout as ->.
    destruct (RunFacts.with_connection_fields _ _ _ _ _ _ _ Eb)
      as (Hid & Hty & Hwarn & Hmeta).
    destruct (ExecutorFacts.with_connection_ok _ _ _ _ _ _ _ Eb) as [_ Herr].
    rewrite Hex. cbn [QueryExecutor.unregister QueryExecutor.record_metric
                      QueryExecutor.register QueryExecutor._query_metrics].
    fold name. split; [done|]. split; [|done].
    unfold ExecutorMetrics.get_metrics.
    cbn [QueryExecutor.unregister QueryExecutor.record_metric
         QueryExecutor.register QueryExecutor._query_metrics].
    rewrite lookup_omap, lookup_insert_eq. cbn [mbind option_bind].
    destruct (default [] (QueryExecutor._query_metrics self !! name))
      as [|t ts]; cbn [app ExecutorMetrics.summary fmap option_fmap option_map
                       ExecutorMetrics.count]; f_equal.
    all: cbn [length]; rewrite ?length_app; cbn [length]; lia.
  - rewrite (ExecutorFacts.execute_not_acquired self p request sc e p1)
      in Hout by done.
    injection Hout as Hout. by apply RunFacts.handler_not_success in Hout.
  - by rewrite (ExecutorFacts.execute_blocked self p request sc p1) in Hout.
Qed.

Lemma success_is_recorded_witness :
  let run :=
    QueryExecutor.execute
      (QueryExecutor.record_metric "SELECT" 9 QueryExecutor.__init__)
      Scenario.fresh_pool
      (Scenario.request "SELECT id FROM t" false None)
      (Scenario.script None (Scenario.select_cursor [Scenario.table 2])) in
  QueryExecutor._query_metrics (QueryExecutor.executor run) !! "SELECT"
  = Some [9%Z; 4%Z].
Proof.
  destruct (success_is_recorded
              (QueryExecutor.record_metric "SELECT" 9 QueryExecutor.__init__)
              Scenario.fresh_pool
              (Scenario.request "SELECT id FROM t" false None)
              (Scenario.script None (Scenario.select_cursor [Scenario.table 2]))
              (QueryResult.mk "q1" SUCCESS (Scenario.table 2) ["id"] 2 0 None
                 3 SELECT None [] ∅))
    as (H & _); [vm_compute; reflexivity|reflexivity|].
  cbv zeta. rewrite H. vm_compute. reflexivity.
Defined.

(** X20. A run of [execute] never drops or changes a recorded time: the
    list under every name stays as it is, except that the list under the
    name of the request's type may have the time of this run added at
    the end; and that happens exactly when a wrapper was acquired and the
    body returned, also if the release fails afterwards and the caller
    gets an ERROR. *)
Theorem execute_metrics_only_grow
  (self : QueryExecutor.t) (p : ConnectionPool.t) (request : QueryRequest.t)
  (sc : Script) (name : string) :
  let run := QueryExecutor.execute self p request sc in
  let query_type := QueryAnalyzer.determine_type (QueryRequest.sql request) in
  let body_returned :=
    negb (ExecutorSpec.rejected request)
    && match QueryExecutor._acquire_wrapper (QueryRequest.timeout request)
               sc p with
       | (QueryExecutor.Got w, _) =>
           match (QueryExecutor.with_connection request sc query_type
                    (QueryAnalyzer.validate_security (QueryRequest.sql request)
                       false) w).1 with
           | Ok _ => true
           | Raise _ => false
           end
       | _ => false
       end in
  QueryExecutor._query_metrics (QueryExecutor.executor run) !! name
  = if body_returned && String.eqb name (QueryType_name query_type)
    then Some (RunSpec.recorded self request sc)
    else QueryExecutor._query_metrics self !! name.
Proof.
  intros run query_type body_returned. subst run body_returned.
  destruct (ExecutorSpec.rejected request) eqn:Hrej; cbn [negb andb].
  { by rewrite ExecutorFacts.execute_rejected. }
  destruct (QueryExecutor._acquire_wrapper (QueryRequest.timeout request) sc p)
    as [[w|e|] p1] eqn:E.
  - rewrite (RunFacts.execute_acquired_executor self p request sc w p1 Hrej E).
    fold query_type.
    destruct (QueryExecutor.with_connection _ _ _ _ _).1; cbn [andb]; [|done].
    cbn [QueryExecutor.unregister QueryExecutor.record_metric
         QueryExecutor.register QueryExecutor._query_metrics].
    destruct (String.eqb_spec name (QueryType_name query_type)) as [->|Hne].
    + by rewrite lookup_insert_eq.
    + by rewrite lookup_insert_ne.
  - by rewrite (ExecutorFacts.execute_not_acquired self p request sc e p1).
  - by rewrite (ExecutorFacts.execute_blocked self p request sc p1).
Qed.

(** X21. [execute] enters its id with a fresh flag, whatever was entered
    under that id before, and takes the id out when it returns: after a
    call that has returned the active queries are those from before the
    call without that id, which also removes the entry of another call
    that runs under the same id; during the wait for a connection they
    are those from before with the id entered, flag not set.  Entries
    under other ids are never touched. *)
Theorem execute_resets_own_entry
  (self : QueryExecutor.t) (p : ConnectionPool.t) (request : QueryRequest.t)
  (sc : Script) :
  let run := QueryExecutor.execute self p request sc in
  QueryExecutor._active_queries (QueryExecutor.executor run)
  = match QueryExecutor.outcome run with
    | Some _ =>
        delete (QueryRequest.query_id request)
          (QueryExecutor._active_queries self)
    | None =>
        <[QueryRequest.query_id request := false]>
          (QueryExecutor._active_queries self)
    end.
Proof.
  intros run. subst run.
  destruct (ExecutorSpec.rejected request) eqn:Hrej.
  { rewrite ExecutorFacts.execute_rejected by done. cbn.
    apply delete_insert_eq. }
  destruct (QueryExecutor._acquire_wrapper (QueryRequest.timeout request) sc p)
    as [[w|e|] p1] eqn:E.
  - destruct (ExecutorFacts.execute_acquired self p request sc w p1 Hrej E)
      as (-> & _ & _).
    rewrite (RunFacts.execute_acquired_executor self p request sc w p1 Hrej E).
    destruct (QueryExecutor.with_connection _ _ _ _ _).1; cbn;
      apply delete_insert_eq.
  - rewrite (ExecutorFacts.execute_not_acquired self p request sc e p1)
      by done.
    cbn. apply delete_insert_eq.
  - by rewrite (ExecutorFacts.execute_blocked self p request sc p1).
Qed.

(** X22. Without a timeout ([None], or zero, which Python takes as false
    too) there is no deadline: on an open pool with no idle wrapper and
    [max_connections] wrappers in use, a call that nobody wakes goes on
    waiting; it returns nothing and its id stays entered. *)
Theorem no_timeout_waits
  (self : QueryExecutor.t) (p : ConnectionPool.t) (request : QueryRequest.t)
  (sc : Script) :
  ExecutorSpec.rejected request = false ->
  truthy (QueryRequest.timeout request) = false ->
  ExecutorSpec.exhausted p ->
  wakes sc = [] ->
  let run := QueryExecutor.execute self p request sc in
  QueryExecutor.outcome run = None
  /\ QueryExecutor.pool run = p
  /\ QueryExecutor.effects run = []
  /\ QueryExecutor._active_queries (QueryExecutor.executor run)
       !! QueryRequest.query_id request = Some false.
Proof.
  intros Hrej Ht (Hopen & Hidle & Hfull) Hw run. subst run.
  assert (E : QueryExecutor._acquire_wrapper (QueryRequest.timeout request)
                sc p = (QueryExecutor.Blocked, p)).
  { unfold QueryExecutor._acquire_wrapper. rewrite Ht, Hw.
    cbn [QueryExecutor._acquire_wrapper_loop].
    unfold ConnectionPool._acquire_wrapper_step. rewrite Hopen, Hidle.
    replace (Nat.ltb _ _) with false by (symmetry; apply Nat.ltb_ge; lia).
    done. }
  rewrite (ExecutorFacts.execute_blocked self p request sc p Hrej E).
  cbn. by rewrite lookup_insert_eq.
Qed.

Lemma no_timeout_waits_witness :
  let p :=
    (ConnectionPool._acquire_wrapper_step None 0 (Ok tt)
       (ConnectionPool.__init__ 0 1 300 3600)).2 in
  QueryExecutor.outcome
    (QueryExecutor.execute QueryExecutor.__init__ p
       (QueryRequest.__init__ "SELECT 1" None (Some "q1") (Some 0%Z) None
          None None None None "0f8fad5bd9cb469fa16570867728950e")
       (Scenario.script None Scenario.no_rows)) = None.
Proof.
  apply (no_timeout_waits QueryExecutor.__init__
           (ConnectionPool._acquire_wrapper_step None 0 (Ok tt)
              (ConnectionPool.__init__ 0 1 300 3600)).2
           (QueryRequest.__init__ "SELECT 1" None (Some "q1") (Some 0%Z) None
              None None None None "0f8fad5bd9cb469fa16570867728950e")
           (Scenario.script None Scenario.no_rows));
    [vm_compute; reflexivity|reflexivity| |reflexivity].
  split; [reflexivity|]. split; [reflexivity|]. vm_compute. lia.
Defined.

(** ** TransactionManager: the log of a transaction *)

Module TransactionLogFacts.

Import TransactionManager RunSpec.

Lemma execute_in_transaction_log transaction_id request self ex p sc log :
  _active_transactions self !! transaction_id = Some log ->
  let after :=
    (execute_in_transaction transaction_id request self ex p sc).1 in
  _active_transactions after !! transaction_id = Some (log ++ [request])
  /\ forall other, other <> transaction_id ->
       _active_transactions after !! other
       = _active_transactions self !! other.
Proof.
  intros H after. subst after. unfold execute_in_transaction. rewrite H.
  cbn. rewrite lookup_insert_eq. split; [done|].
  intros other Hne. by rewrite lookup_insert_ne.
Qed.

Lemma execute_all_log transaction_id calls : forall self ex p log,
  _active_transactions self !! transaction_id = Some log ->
  let after := (execute_all transaction_id calls self ex p).1.1 in
  _active_transactions after !! transaction_id
  = Some (log ++ List.map fst calls)
  /\ forall other, other <> transaction_id ->
       _active_transactions after !! other
       = _active_transactions self !! other.
Proof.
  induction calls as [|[request sc] calls IH]; intros self ex p log H after;
    subst after; cbn [execute_all List.map fst].
  - by rewrite app_nil_r.
  - destruct (execute_in_transaction_log transaction_id request self ex p sc
                log H) as [Hlog Hframe].
    destruct (execute_in_transaction transaction_id request self ex p sc)
      as [self' run]. cbn [fst] in Hlog, Hframe.
    destruct (IH self' (QueryExecutor.executor run) (QueryExecutor.pool run)
                (log ++ [request]) Hlog) as [IHlog IHframe].
    split.
    + rewrite IHlog, <- app_assoc. done.
    + intros other Hne. by rewrite IHframe, Hframe.
Qed.

Lemma execute_all_missing transaction_id calls : forall self ex p,
  _active_transactions self !! transaction_id = None ->
  execute_all transaction_id calls self ex p = (self, ex, p).
Proof.
  induction calls as [|[request sc] calls IH]; intros self ex p H;
    cbn [execute_all]; [done|].
  unfold execute_in_transaction. rewrite H. cbn. by apply IH.
Qed.

End TransactionLogFacts.

(** X23. [begin] enters its id with an empty log, also when the id is
    that of a transaction under way, whose log is lost, and touches no
    other transaction; a [commit] right after it succeeds, calls nothing
    on any connection and leaves the transactions from before [begin]
    without that id; a second [commit] raises the ValueError of a
    transaction that is not found. *)
Theorem begin_then_commit
  (transaction_id : option string) (uuid : string)
  (self : TransactionManager.t) :
  let started := TransactionManager.begin transaction_id uuid self in
  let committed := TransactionManager.commit started.1 started.2 in
  TransactionManager._active_transactions started.2 !! started.1 = Some []
  /\ (forall other, other <> started.1 ->
      TransactionManager._active_transactions started.2 !! other
      = TransactionManager._active_transactions self !! other)
  /\ committed.1 = (Ok tt, [])
  /\ TransactionManager._active_transactions committed.2
     = delete started.1 (TransactionManager._active_transactions self)
  /\ TransactionManager.commit started.1 committed.2
     = ((Raise (TransactionManager.not_found started.1), []), committed.2).
Proof.
  intros started committed. subst committed started.
  unfold TransactionManager.begin. cbn [fst snd].
  set (tx_id := match transaction_id with
                | Some s => if String.eqb s "" then uuid else s
                | None => uuid
                end).
  cbn [TransactionManager._active_transactions].
  split; [apply lookup_insert_eq|].
  split; [intros other Hne; by rewrite lookup_insert_ne|].
  pose proof (TransactionFacts.commit_present tx_id
                (TransactionManager.mk
                   (<[tx_id := []]>
                      (TransactionManager._active_transactions self)))
                [] (lookup_insert_eq _ _ _)) as Hc.
  cbn [TransactionManager._active_transactions] in Hc.
  rewrite Hc. cbn [fst snd TransactionManager._active_transactions].
  split; [done|]. split; [apply delete_insert_eq|].
  rewrite TransactionFacts.commit_missing; [done|].
  cbn. apply lookup_delete_eq.
Qed.

(** X24. The log of a transaction is the list of the requests that were
    handed to [execute_in_transaction] under its id, in the order of the
    calls, whatever became of them in the executor: rejected, failed and
    cancelled requests are logged like the others.  The logs of other
    transactions are not touched, and under an id that is not active the
    calls change nothing: not the manager, not the executor, not the
    pool. *)
Theorem transaction_logs_every_request
  (transaction_id : string) (calls : list (QueryRequest.t * Script))
  (self : TransactionManager.t) (ex : QueryExecutor.t)
  (p : ConnectionPool.t) :
  let after := RunSpec.execute_all transaction_id calls self ex p in
  match TransactionManager._active_transactions self !! transaction_id with
  | Some log =>
      TransactionManager._active_transactions after.1.1 !! transaction_id
      = Some (log ++ List.map fst calls)
      /\ forall other, other <> transaction_id ->
           TransactionManager._active_transactions after.1.1 !! other
           = TransactionManager._active_transactions self !! other
  | None => after = (self, ex, p)
  end.
Proof.
  intros after. subst after.
  destruct (TransactionManager._active_transactions self !! transaction_id)
    as [log|] eqn:E.
  - by apply TransactionLogFacts.execute_all_log.
  - by apply TransactionLogFacts.execute_all_missing.
Qed.

(** X25. The statements that [is_read_only] lets a read-only request run
    are those whose leading keyword, without regard to case, is SELECT,
    PRAGMA or EXPLAIN. *)
Theorem read_only_types_by_keyword (sql : string) :
  QueryAnalyzer.is_read_only (QueryAnalyzer.determine_type sql)
  = bool_decide (AnalyzerSpec.leading_keyword sql ∈ RunSpec.read_keywords).
Proof.
  rewrite AnalyzerFacts.determine_type_classify.
  unfold AnalyzerSpec.classify, AnalyzerSpec.keyword_table,
    RunSpec.read_keywords.
  generalize (AnalyzerSpec.leading_keyword sql). intros kw.
  cbn [AnalyzerSpec.first_entry].
  repeat match goal with
         | |- context [String.eqb kw ?k] =>
             destruct (String.eqb_spec kw k) as [->|?];
               [vm_compute; reflexivity|]
         end.
  cbn [QueryAnalyzer.is_read_only]. symmetry. apply bool_decide_eq_false.
  rewrite !elem_of_cons, elem_of_nil. tauto.
Qed.
